(** * filter_clang_tidy.py: partition of a compilation database

    A shallow embedding of [build_linux/clang-tidy/filter_clang_tidy.py].
    A Python [str] is the list of the bytes of its UTF-8 encoding, in which
    the characters of a string are told apart by their leading bytes; JSON
    documents are a small inductive type, the module-level globals of the script form a record that
    is threaded through the pipeline stages, and the dictionaries that
    [json.load] allocates live in an object store addressed by position, so
    that the aliasing between [commands], [commands_inc] and [commands_exc]
    is the one of the script.

    [DEBUG] is the constant [False] in the script: the prints it guards are
    left out.  [read_args] (argparse, [chdir], [realpath]) is not embedded;
    the pipeline starts from the three paths it leaves in the globals, with
    the working directory equal to [path_relative]. *)

From Stdlib Require Import Ascii String.
From stdpp Require Import gmap strings list.

Open Scope list_scope.

(** ** Python strings *)

Abbreviation str := (list ascii).

(** [$"text"] is the Python literal ['text']. *)
Notation "$ s" := (list_ascii_of_string s%string) (at level 1, format "$ s").

Module pystr.

(** [s.startswith(p)] *)
Fixpoint startswith (p s : str) : bool :=
  match p, s with
  | [], _ => true
  | _ :: _, [] => false
  | a :: p', b :: s' => bool_decide (a = b) && startswith p' s'
  end.

(** [s.endswith(p)] *)
Definition endswith (p s : str) : bool := startswith (reverse p) (reverse s).

(** [p in s] for two strings: [p] occurs in [s] as a contiguous run. *)
Fixpoint contains (p s : str) : bool :=
  startswith p s ||
  match s with
  | [] => false
  | _ :: s' => contains p s'
  end.

(** [s.lstrip(c)] for a one-character argument. *)
Fixpoint lstrip (c : ascii) (s : str) : str :=
  match s with
  | [] => []
  | x :: s' => if bool_decide (x = c) then lstrip c s' else s
  end.

(** [s.rstrip(c)] for a one-character argument. *)
Definition rstrip (c : ascii) (s : str) : str := reverse (lstrip c (reverse s)).

(** [s.split(c)]: the pieces between the occurrences of [c]; never empty. *)
Fixpoint split (c : ascii) (s : str) : list str :=
  match s with
  | [] => [[]]
  | x :: s' =>
      if bool_decide (x = c) then [] :: split c s'
      else match split c s' with
           | [] => [[x]]
           | piece :: pieces => (x :: piece) :: pieces
           end
  end.

(** [sep.join(pieces)] *)
Fixpoint join (sep : str) (pieces : list str) : str :=
  match pieces with
  | [] => []
  | [piece] => piece
  | piece :: rest => piece ++ sep ++ join sep rest
  end.

(** A byte [10xxxxxx] continues the character begun by the bytes before it. *)
Definition continuation (b : ascii) : bool :=
  match b with
  | Ascii _ _ _ _ _ _ b6 b7 => b7 && negb b6
  end.

(** The characters of [s], each with the bytes that encode it: what
    [for ch in s] visits. *)
Fixpoint chars (s : str) : list str :=
  match s with
  | [] => []
  | b :: s' =>
      match s' with
      | [] => [[b]]
      | b' :: _ =>
          if continuation b'
          then match chars s' with
               | ch :: rest => (b :: ch) :: rest
               | [] => [[b]]
               end
          else [b] :: chars s'
      end
  end.

(** The scan of [s.replace(old, new)] for a non-empty [old]: left to right,
    every occurrence found is replaced and the scan resumes after it;
    [skip] counts the characters of the occurrence still to be passed. *)
Fixpoint replace_from (old new : str) (skip : nat) (s : str) : str :=
  match s with
  | [] => []
  | c :: s' =>
      match skip with
      | S k => replace_from old new k s'
      | O =>
          if startswith old s
          then new ++ replace_from old new (length old - 1) s'
          else c :: replace_from old new 0 s'
      end
  end.

(** [s.replace(old, new)]; an empty [old] matches before every character
    and at the end. *)
Definition replace (old new s : str) : str :=
  match old with
  | [] => new ++ flat_map (fun ch => ch ++ new) (chars s)
  | _ :: _ => replace_from old new 0 s
  end.

(** [s[:s.rfind(c) + 1]]: everything up to and including the last [c]. *)
Fixpoint upto_last (c : ascii) (s : str) : str :=
  match s with
  | [] => []
  | x :: s' =>
      match upto_last c s' with
      | [] => if bool_decide (x = c) then [x] else []
      | h => x :: h
      end
  end.

End pystr.

(** ** The POSIX flavour of [os.path] (the script lives under [build_linux]) *)

Module posixpath.
Import pystr.

Definition sep_char : ascii := "/"%char.
Definition sep : str := [sep_char].
Definition curdir : str := $".".
Definition pardir : str := $"..".

Definition isabs (s : str) : bool := startswith sep s.

(** [os.path.join(a, b)] *)
Definition join (a b : str) : str :=
  if startswith sep b then b
  else if bool_decide (a = []) || endswith sep a then a ++ b
  else a ++ sep ++ b.

(** [os.path.dirname(p)] *)
Definition dirname (p : str) : str :=
  let head := upto_last sep_char p in
  if bool_decide (head ≠ []) && negb (bool_decide (head = replicate (length head) sep_char))
  then rstrip sep_char head
  else head.

(** One round of the loop of [normpath] over the components. *)
Definition normpath_step (initial_slashes : nat) (new_comps : list str) (comp : str)
    : list str :=
  if bool_decide (comp = []) || bool_decide (comp = curdir) then new_comps
  else if negb (bool_decide (comp = pardir))
          || (bool_decide (initial_slashes = 0) && bool_decide (new_comps = []))
          || (negb (bool_decide (new_comps = []))
              && bool_decide (last new_comps = Some pardir))
  then new_comps ++ [comp]
  else removelast new_comps.

(** [os.path.normpath(path)] *)
Definition normpath (path : str) : str :=
  match path with
  | [] => curdir
  | _ :: _ =>
      let initial_slashes :=
        if startswith sep path
        then if startswith (sep ++ sep) path && negb (startswith (sep ++ sep ++ sep) path)
             then 2 else 1
        else 0 in
      let comps := fold_left (normpath_step initial_slashes) (split sep_char path) [] in
      let path := pystr.join sep comps in
      let path := replicate initial_slashes sep_char ++ path in
      match path with
      | [] => curdir
      | _ :: _ => path
      end
  end.

(** [os.path.abspath(path)] in a process whose working directory is [cwd]. *)
Definition abspath (cwd path : str) : str :=
  if isabs path then normpath path else normpath (join cwd path).

(** The length of [os.path.commonprefix([l1, l2])] on component lists. *)
Fixpoint commonprefix_len (l1 l2 : list str) : nat :=
  match l1, l2 with
  | a :: l1', b :: l2' => if bool_decide (a = b) then S (commonprefix_len l1' l2') else 0
  | _, _ => 0
  end.

Definition components (tail : str) : list str :=
  match tail with
  | [] => []
  | _ :: _ => split sep_char tail
  end.

(** [os.path.relpath(path, start)]; [None] is the [ValueError] raised for
    an empty [path]. *)
Definition relpath (cwd path start : str) : option str :=
  match path with
  | [] => None
  | _ :: _ =>
      let start_list := components (lstrip sep_char (abspath cwd start)) in
      let path_list := components (lstrip sep_char (abspath cwd path)) in
      let i := commonprefix_len start_list path_list in
      let rel_list := replicate (length start_list - i) pardir ++ drop i path_list in
      match rel_list with
      | [] => Some curdir
      | _ :: _ => Some (pystr.join sep rel_list)
      end
  end.

End posixpath.

(** ** JSON documents and the Python operations the script applies to them *)

#[local] Set Warnings "-register-all".

Inductive json : Type :=
  | JNull
  | JBool (b : bool)
  | JNum (literal : str)
  | JStr (s : str)
  | JArr (items : list json)
  | JObj (members : list (str * json)).

Inductive exit_arg : Type :=
  | ExitCode (n : Z)
  | ExitMessage (msg : str).

Inductive exception : Type :=
  | SystemExit (arg : exit_arg)
  | JSONDecodeError
  | UnicodeDecodeError
  | OSError
  | KeyError (key : str)
  | TypeError
  | ValueError
  | AttributeError
  | SystemError.

Inductive result (A : Type) : Type :=
  | Ok (a : A)
  | Raise (e : exception).
Arguments Ok {A} a.
Arguments Raise {A} e.

#[global] Instance result_ret : MRet result := fun _ a => Ok a.
#[global] Instance result_bind : MBind result := fun _ _ f m =>
  match m with
  | Ok a => f a
  | Raise e => Raise e
  end.

(** A [for] loop whose body may raise: the first exception ends it. *)
Fixpoint for_each {S A : Type} (body : S → A → result S) (s : S) (l : list A) : result S :=
  match l with
  | [] => Ok s
  | x :: l' => s' ← body s x; for_each body s' l'
  end.

Fixpoint map_result {A B : Type} (f : A → result B) (l : list A) : result (list B) :=
  match l with
  | [] => Ok []
  | x :: l' => y ← f x; ys ← map_result f l'; Ok (y :: ys)
  end.

Module py.
Import pystr.

Fixpoint dict_get (key : str) (members : list (str * json)) : option json :=
  match members with
  | [] => None
  | (k, v) :: rest => if bool_decide (k = key) then Some v else dict_get key rest
  end.

(** Assignment keeps the position of a key that is present and appends a
    new one. *)
Fixpoint dict_set (key : str) (value : json) (members : list (str * json))
    : list (str * json) :=
  match members with
  | [] => [(key, value)]
  | (k, v) :: rest =>
      if bool_decide (k = key) then (k, value) :: rest
      else (k, v) :: dict_set key value rest
  end.

(** [obj[key]] for a string key *)
Definition getitem (obj : json) (key : str) : result json :=
  match obj with
  | JObj members =>
      match dict_get key members with
      | Some v => Ok v
      | None => Raise (KeyError key)
      end
  | _ => Raise TypeError
  end.

(** [obj[key] = value] for a string key *)
Definition setitem (obj : json) (key : str) (value : json) : result json :=
  match obj with
  | JObj members => Ok (JObj (dict_set key value members))
  | _ => Raise TypeError
  end.

(** The values a [for] loop over [v] visits. *)
Definition iter (v : json) : result (list json) :=
  match v with
  | JArr items => Ok items
  | JObj members => Ok (map (fun kv => JStr kv.1) members)
  | JStr s => Ok (map JStr (chars s))
  | _ => Raise TypeError
  end.

Definition as_str (v : json) : result str :=
  match v with
  | JStr s => Ok s
  | _ => Raise TypeError
  end.

(** [sep.join(v)] *)
Definition str_join (sep : str) (v : json) : result str :=
  items ← iter v;
  pieces ← map_result as_str items;
  Ok (join sep pieces).

Definition is_str (s : str) (v : json) : bool :=
  match v with
  | JStr s' => bool_decide (s' = s)
  | _ => false
  end.

(** [needle in v] for a string [needle] *)
Definition contains (needle : str) (v : json) : result bool :=
  match v with
  | JStr s => Ok (pystr.contains needle s)
  | JArr items => Ok (existsb (is_str needle) items)
  | JObj members => Ok (existsb (fun kv => bool_decide (kv.1 = needle)) members)
  | _ => Raise TypeError
  end.

(** [v.replace(old, new)] *)
Definition replace (v : json) (old new : str) : result json :=
  match v with
  | JStr s => Ok (JStr (pystr.replace old new s))
  | _ => Raise AttributeError
  end.

(** [os.path.dirname(v)] *)
Definition dirname (v : json) : result str :=
  match v with
  | JStr s => Ok (posixpath.dirname s)
  | _ => Raise TypeError
  end.

(** [os.path.relpath(path, start)] *)
Definition relpath (cwd path start : str) : result str :=
  match posixpath.relpath cwd path start with
  | Some rel => Ok rel
  | None => Raise ValueError
  end.

End py.

(** ** The globals of the script and the object store *)

(** [commands], [commands_inc] and [commands_exc] are Python lists of
    references: a reference is the position in [store] of the object that
    [json.load] allocated for one array element. *)
Record state : Type := State {
  path_config : str;
  path_build : str;
  path_relative : str;
  commands : list nat;
  excludes : list str;
  commands_inc : list nat;
  commands_exc : list nat;
  store : list json
}.

Definition DEF_BUILD : str := $"../../_build".
Definition DEF_CONFIG : str := $"excludes_clang_tidy.json".
Definition REPLACE_WITH_SYSTEM_HEADERS : bool := true.

Definition set_excludes (l : list str) (st : state) : state :=
  State (path_config st) (path_build st) (path_relative st) (commands st) l
        (commands_inc st) (commands_exc st) (store st).
Definition set_commands (refs : list nat) (objs : list json) (st : state) : state :=
  State (path_config st) (path_build st) (path_relative st) refs (excludes st)
        (commands_inc st) (commands_exc st) objs.
Definition set_commands_inc (l : list nat) (st : state) : state :=
  State (path_config st) (path_build st) (path_relative st) (commands st) (excludes st)
        l (commands_exc st) (store st).
Definition set_commands_exc (l : list nat) (st : state) : state :=
  State (path_config st) (path_build st) (path_relative st) (commands st) (excludes st)
        (commands_inc st) l (store st).
Definition set_store (objs : list json) (st : state) : state :=
  State (path_config st) (path_build st) (path_relative st) (commands st) (excludes st)
        (commands_inc st) (commands_exc st) objs.

(** The object behind a reference; a reference outside the store cannot
    arise in a run. *)
Definition deref (st : state) (r : nat) : result json :=
  match store st !! r with
  | Some obj => Ok obj
  | None => Raise SystemError
  end.

(** ** filter_sources *)

(** [path_str] of the loop body: one separator, then the directory of
    [command['file']] relative to [path_relative].  The working directory is
    [path_relative] since [read_args] changed into it. *)
Definition path_str_of (st : state) (command : json) : result str :=
  file ← py.getitem command $"file";
  dir ← py.dirname file;
  rel ← py.relpath (path_relative st) dir (path_relative st);
  Ok (posixpath.sep ++ rel).

(** The inner loop: [include_folder] after the scan, which stops at the
    first fragment found in [path_str]. *)
Fixpoint scan_excludes (excl : list str) (path_str : str) (include_folder : bool) : bool :=
  match excl with
  | [] => include_folder
  | exclude :: rest =>
      if pystr.contains exclude path_str then false
      else scan_excludes rest path_str include_folder
  end.

Definition filter_source (st : state) (r : nat) : result state :=
  command ← deref st r;
  path_str ← path_str_of st command;
  let include_folder := scan_excludes (excludes st) path_str true in
  if include_folder
  then Ok (set_commands_inc (commands_inc st ++ [r]) st)
  else Ok (set_commands_exc (commands_exc st ++ [r]) st).

Definition filter_sources (st : state) : result state :=
  for_each filter_source st (commands st).

(** ** filter_headers *)

Definition header_include (exclude_path : str) : str := $"-I" ++ exclude_path.
Definition header_system (exclude_path : str) : str := $"-isystem " ++ exclude_path.

(** The body of the inner loop for one command and one fragment. *)
Definition filter_header (r : nat) (st : state) (exclude : str) : result state :=
  let exclude_path := posixpath.join (path_relative st) exclude in
  command ← deref st r;
  value ← py.getitem command $"command";
  found ← py.contains (header_include exclude_path) value;
  if found : bool then
    replaced ← py.replace value (header_include exclude_path) (header_system exclude_path);
    command' ← py.setitem command $"command" replaced;
    Ok (set_store (<[r := command']> (store st)) st)
  else Ok st.

Definition filter_headers (st : state) : result state :=
  if REPLACE_WITH_SYSTEM_HEADERS then
    let st := set_excludes (map (pystr.lstrip posixpath.sep_char) (excludes st)) st in
    for_each (fun st r => for_each (filter_header r) st (excludes st)) st (commands_inc st)
  else Ok st.

(** ** The files: read_config, read_commands, save_commands, main *)

(** What a path names: a directory, a file whose bytes are not text in the
    encoding in which [open] reads, or a file of text.  The content of a file
    of text is the JSON document that [json.load] returns from it, [None]
    when the text is not JSON.  Paths are told apart as strings, and the
    process may read and write every file. *)
Inductive node : Type :=
  | Directory
  | Undecodable
  | File (doc : option json).

Record world : Type := World {
  fs : gmap str node;
  stdout : list str
}.

Definition io (A : Type) : Type := world → world * result A.

Definition io_bind {A B : Type} (m : io A) (f : A → io B) : io B := fun w =>
  match m w with
  | (w', Ok a) => f a w'
  | (w', Raise e) => (w', Raise e)
  end.

Definition lift {A : Type} (r : result A) : io A := fun w => (w, r).

Notation "x ⇐ m ;; k" := (io_bind m (fun x => k))
  (at level 100, m at next level, right associativity).

Definition print (line : str) : io unit := fun w =>
  (World (fs w) (stdout w ++ [line]), Ok ()).

(** [json.load(open(path, 'r'))]: [open] raises [FileNotFoundError] or
    [IsADirectoryError], both [OSError]; reading the file decodes its bytes,
    and the decoder of JSON then reads the text. *)
Definition json_load (path : str) : io json := fun w =>
  match fs w !! path with
  | None | Some Directory => (w, Raise OSError)
  | Some Undecodable => (w, Raise UnicodeDecodeError)
  | Some (File None) => (w, Raise JSONDecodeError)
  | Some (File (Some doc)) => (w, Ok doc)
  end.

(** The paths above [path]: its directory, the directory above that one, and
    so on; every round but the last ones shortens the path. *)
Fixpoint ancestors (rounds : nat) (path : str) : list str :=
  match rounds with
  | O => []
  | S k => posixpath.dirname path :: ancestors k (posixpath.dirname path)
  end.

(** The directories of the world: the paths that name one, the working
    directory (the empty path), and the paths above a path that names
    something, since nothing is in a file system without the directories
    that lead to it. *)
Definition is_directory (w : world) (d : str) : bool :=
  match fs w !! d with
  | Some Directory => true
  | _ => false
  end
  || bool_decide (d = [])
  || existsb (fun entry => bool_decide (d ∈ ancestors (length entry.1) entry.1))
             (map_to_list (fs w)).

(** [open(path, 'w')] leaves an empty file, which [json.dump] then fills.  It
    raises [FileNotFoundError] when the directory of [path] is missing and
    [IsADirectoryError] when [path] names a directory, both [OSError]. *)
Definition open_w (path : str) : io unit := fun w =>
  if is_directory w (posixpath.dirname path) then
    match fs w !! path with
    | Some Directory => (w, Raise OSError)
    | _ => (World (<[path := File None]> (fs w)) (stdout w), Ok ())
    end
  else (w, Raise OSError).

Definition json_dump (doc : json) (path : str) : io unit := fun w =>
  (World (<[path := File (Some doc)]> (fs w)) (stdout w), Ok ()).

Definition exists_path (path : str) : io bool := fun w =>
  (w, Ok (bool_decide (is_Some (fs w !! path)))).

Definition dquote : ascii := ascii_of_nat 34.
Definition newline : ascii := ascii_of_nat 10.

Definition msg_config_skipped : str :=
  $"ERROR - Directory exclusion configuration is missing, skipping further processing".
Definition msg_config_fatal (path : str) : str :=
  $"** FATAL - file to list excluded directories is missing:" ++ [newline] ++ path.
Definition msg_commands_skipped : str :=
  $"ERROR - CMake-generated file " ++ [dquote] ++ $"compile_commands.json" ++ [dquote]
  ++ $" is missing, skipping further processing".
Definition msg_commands_fatal (path : str) : str :=
  $"** FATAL - file to list compile commands is missing:" ++ [newline] ++ path.

(** The body of the loop of [read_config]. *)
Definition read_exclude (st : state) (exclude_raw : json) : result state :=
  joined ← py.str_join posixpath.sep exclude_raw;
  let exclude := posixpath.sep ++ joined in
  Ok (set_excludes (excludes st ++ [exclude]) st).

(** The objects the [for] of [filter_sources] visits in a loaded document.
    A document that cannot be iterated makes that loop raise [TypeError] at
    once; the embedding keeps such a document as the single object, on which
    the subscript [command['file']] raises the same [TypeError]. *)
Definition loaded_objects (doc : json) : list json :=
  match py.iter doc with
  | Ok items => items
  | Raise _ => [doc]
  end.

Section loaders.
(** The script fixes [TERMINATE_OK = False]; the loaders are stated for
    both values of the flag. *)
Variable TERMINATE_OK : bool.

Definition read_config (st : state) : io state :=
  found ⇐ exists_path (path_config st) ;;
  if found : bool then
    excludes_raw ⇐ json_load (path_config st) ;;
    lift (items ← py.iter excludes_raw; for_each read_exclude st items)
  else if TERMINATE_OK then
    _ ⇐ print msg_config_skipped ;;
    lift (Raise (SystemExit (ExitCode 0)))
  else
    lift (Raise (SystemExit (ExitMessage (msg_config_fatal (path_config st))))).

Definition read_commands (st : state) : io state :=
  let path_database := posixpath.join (path_build st) $"compile_commands.json" in
  found ⇐ exists_path path_database ;;
  if found : bool then
    doc ⇐ json_load path_database ;;
    let objs := loaded_objects doc in
    lift (Ok (set_commands (seq 0 (length objs)) objs st))
  else if TERMINATE_OK then
    _ ⇐ print msg_commands_skipped ;;
    lift (Raise (SystemExit (ExitCode 0)))
  else
    lift (Raise (SystemExit (ExitMessage (msg_commands_fatal path_database)))).

Definition save_commands (st : state) : io state :=
  let PATH_COMPILE_COMMANDS_INC := posixpath.join (path_build st) $"compile_commands_inc.json" in
  let PATH_COMPILE_COMMANDS_EXC := posixpath.join (path_build st) $"compile_commands_exc.json" in
  _ ⇐ open_w PATH_COMPILE_COMMANDS_INC ;;
  inc ⇐ lift (map_result (deref st) (commands_inc st)) ;;
  _ ⇐ json_dump (JArr inc) PATH_COMPILE_COMMANDS_INC ;;
  _ ⇐ open_w PATH_COMPILE_COMMANDS_EXC ;;
  exc ⇐ lift (map_result (deref st) (commands_exc st)) ;;
  _ ⇐ json_dump (JArr exc) PATH_COMPILE_COMMANDS_EXC ;;
  lift (Ok st).

(** [main] after [read_args], which only fills [path_config], [path_build]
    and [path_relative] and changes into [path_relative]. *)
Definition main (st : state) : io state :=
  st ⇐ read_config st ;;
  st ⇐ read_commands st ;;
  st ⇐ lift (filter_sources st) ;;
  st ⇐ lift (filter_headers st) ;;
  save_commands st.

End loaders.

(** The value of the flag in the script. *)
Definition TERMINATE_OK : bool := false.

(** The globals when the module has been loaded and [read_args] has run. *)
Definition initial_state (config build relative : str) : state :=
  State config build relative [] [] [] [] [].

(** The status with which the interpreter leaves [main]. *)
Definition exit_status {A : Type} (r : result A) : Z :=
  match r with
  | Ok _ => 0
  | Raise (SystemExit (ExitCode n)) => n
  | Raise _ => 1
  end.

(** What the interpreter writes to the error stream for [SystemExit]. *)
Definition exit_message {A : Type} (r : result A) : option str :=
  match r with
  | Raise (SystemExit (ExitMessage msg)) => Some msg
  | _ => None
  end.

(** ** Definitions that follow the words of the specification *)

(** The partitioner that tests every fragment, without the [break]. *)
Fixpoint scan_excludes_exhaustive (excl : list str) (path_str : str) (include_folder : bool)
    : bool :=
  match excl with
  | [] => include_folder
  | exclude :: rest =>
      scan_excludes_exhaustive rest path_str
        (if pystr.contains exclude path_str then false else include_folder)
  end.

Definition filter_source_exhaustive (st : state) (r : nat) : result state :=
  command ← deref st r;
  path_str ← path_str_of st command;
  let include_folder := scan_excludes_exhaustive (excludes st) path_str true in
  if include_folder
  then Ok (set_commands_inc (commands_inc st ++ [r]) st)
  else Ok (set_commands_exc (commands_exc st ++ [r]) st).

Definition filter_sources_exhaustive (st : state) : result state :=
  for_each filter_source_exhaustive st (commands st).

(** A fragment matches a directory segment-wise when its segments are a run
    of consecutive whole segments of the directory. *)
Fixpoint segments_start (frag dir : list str) : bool :=
  match frag, dir with
  | [], _ => true
  | _ :: _, [] => false
  | a :: frag', b :: dir' => bool_decide (a = b) && segments_start frag' dir'
  end.

Fixpoint segments_match (frag dir : list str) : bool :=
  segments_start frag dir ||
  match dir with
  | [] => false
  | _ :: dir' => segments_match frag dir'
  end.

(** The header rewrite of one command string: the fragments in turn, each
    replaced where its plain-include flag occurs. *)
Definition rewrite_flag (exclude_path : str) (command : str) : str :=
  if pystr.contains (header_include exclude_path) command
  then pystr.replace (header_include exclude_path) (header_system exclude_path) command
  else command.

Definition rewrite_command (relative : str) (excl : list str) (command : str) : str :=
  fold_left (fun c exclude => rewrite_flag (posixpath.join relative exclude) c) excl command.

(** ** Notions used to state the properties *)

(** The verdict of the partitioner on the object behind [r]: [true] when it
    is appended to [commands_inc]. *)
Definition included (st : state) (r : nat) : bool :=
  match deref st r ≫= path_str_of st with
  | Ok path_str => scan_excludes (excludes st) path_str true
  | Raise _ => false
  end.

(** An entry the partitioner can place: an object whose ['file'] is a string
    with a directory part, as every absolute path has. *)
Definition has_directory (obj : json) : bool :=
  match py.getitem obj $"file" with
  | Ok (JStr file) => negb (bool_decide (posixpath.dirname file = []))
  | _ => false
  end.

Definition locatable (st : state) (r : nat) : bool :=
  match store st !! r with
  | Some obj => has_directory obj
  | None => false
  end.

(** The ['command'] of an entry, when the entry is an object that holds a
    string under that key. *)
Definition command_of (obj : json) : option str :=
  match py.getitem obj $"command" with
  | Ok (JStr s) => Some s
  | _ => None
  end.

Definition has_command (st : state) (r : nat) : bool :=
  match store st !! r with
  | Some obj => bool_decide (is_Some (command_of obj))
  | None => false
  end.

Definition path_database (st : state) : str :=
  posixpath.join (path_build st) $"compile_commands.json".

(** How the process ends when a loader misses its file: in the lenient mode
    a line on the output and status 0, in the strict mode [SystemExit] with
    a message. *)
Definition missing_file_exit (lenient : bool) (line msg : str) (w : world)
    : world * result state :=
  if lenient
  then (World (fs w) (stdout w ++ [line]), Raise (SystemExit (ExitCode 0)))
  else (w, Raise (SystemExit (ExitMessage msg))).

(** Two objects that differ at most in the value under ['command']. *)
Definition same_but_command (obj obj' : json) : Prop :=
  obj' = obj ∨ ∃ members value, obj = JObj members ∧ obj' = JObj (py.dict_set $"command" value members).

(** What a stage may do that only rewrites the commands of the objects
    behind [refs]. *)
Definition rewritten_only (refs : list nat) (st st' : state) : Prop :=
  path_config st' = path_config st ∧ path_build st' = path_build st ∧
  path_relative st' = path_relative st ∧ commands st' = commands st ∧
  excludes st' = excludes st ∧ commands_inc st' = commands_inc st ∧
  commands_exc st' = commands_exc st ∧
  ∀ r, (r ∉ refs → store st' !! r = store st !! r) ∧
       (∀ obj, store st !! r = Some obj →
               ∃ obj', store st' !! r = Some obj' ∧ same_but_command obj obj').

(** The fragments as [filter_headers] uses them, and the command it leaves
    for the command string [s]. *)
Definition stripped_excludes (st : state) : list str :=
  map (pystr.lstrip posixpath.sep_char) (excludes st).

Definition exclude_paths (st : state) : list str :=
  map (posixpath.join (path_relative st)) (stripped_excludes st).

Definition rewritten (st : state) (s : str) : str :=
  rewrite_command (path_relative st) (stripped_excludes st) s.

(** No fragment occurs in the [path_str] of any entry. *)
Definition no_fragment_matches (st : state) : bool :=
  forallb (fun r =>
             match deref st r ≫= path_str_of st with
             | Ok path_str => forallb (fun e => negb (pystr.contains e path_str)) (excludes st)
             | Raise _ => false
             end) (commands st).

(** No plain-include flag of an excluded directory occurs in [s]. *)
Definition no_flag_in (st : state) (s : str) : bool :=
  forallb (fun p => negb (pystr.contains (header_include p) s)) (exclude_paths st).

(** The loop body can place the object behind [r]. *)
Definition placeable (st : state) (r : nat) : Prop :=
  ∃ obj path_str, deref st r = Ok obj ∧ path_str_of st obj = Ok path_str.

(** The command a stage leaves behind [r], for objects with a string
    command. *)
Definition command_rewritten (excl : list str) (st st' : state) (r : nat) : Prop :=
  ∀ m s, store st !! r = Some (JObj m) → py.dict_get $"command" m = Some (JStr s) →
         store st' !! r
         = Some (JObj (py.dict_set $"command" (JStr (rewrite_command (path_relative st) excl s)) m)).

(** *** Commands cut at the flags of a common beginning

    The exclusion paths of a run begin alike, with [path_relative] at least.
    For a common beginning [c], a command is a head followed by pieces, each
    piece one of the two flags of [c] and the text up to the next flag.  The
    rewrite for a path [c ++ q] turns the plain pieces whose text begins with
    [q] into system pieces, as long as the paths keep apart from the flags
    of [c]. *)

(** Some non-empty ending of [p] is a beginning of [m]. *)
Fixpoint ends_into (p m : str) : bool :=
  match p with
  | [] => false
  | _ :: p' => pystr.startswith p m || ends_into p' m
  end.

(** [p] begins with [c] and keeps apart from the two flags of [c]: neither
    flag occurs in [p], and [p] does not end with a non-empty beginning of
    one of them. *)
Definition flags_apart (c p : str) : bool :=
  pystr.startswith c p
  && negb (pystr.contains (header_include c) p)
  && negb (pystr.contains (header_system c) p)
  && negb (ends_into p (header_include c))
  && negb (ends_into p (header_system c)).

Definition flag (c : str) (system : bool) : str :=
  if system then header_system c else header_include c.

Definition flag_free (c w : str) : bool := negb (pystr.contains (header_include c) w).

Definition render_flags (c : str) (pieces : list (bool * str)) : str :=
  flat_map (fun piece => flag c piece.1 ++ piece.2) pieces.

(** The head and the texts of the plain pieces of a string. *)
Fixpoint cut_flags (c s : str) : str * list str :=
  match s with
  | [] => ([], [])
  | x :: s' =>
      let (w, ws) := cut_flags c s' in
      if pystr.startswith (header_include c) (x :: w)
      then ([], drop (length (header_include c)) (x :: w) :: ws)
      else (x :: w, ws)
  end.

(** Empty, or beginning with one of the two flags of [c]. *)
Definition flag_headed (c t : str) : bool :=
  bool_decide (t = [])
  || pystr.startswith (header_include c) t
  || pystr.startswith (header_system c) t.

(** The path [p] turns the plain pieces that go on with the rest of [p] into
    system pieces; all paths together turn those that go on with the rest of
    any of them. *)
Definition mark_flag (c p : str) (piece : bool * str) : bool * str :=
  (piece.1 || pystr.startswith (drop (length c) p) piece.2, piece.2).

Definition settle_flags (c rel : str) (excl : list str) (piece : bool * str) : bool * str :=
  (piece.1
   || existsb (fun e => pystr.startswith (drop (length c) (posixpath.join rel e)) piece.2) excl,
   piece.2).

Definition dash : ascii := "-"%char.
Definition upper_i : ascii := "I"%char.
Definition lower_i : ascii := "i"%char.

(** A path in which every [-] is followed by a character other than [I]
    and [i]. *)
Fixpoint flag_safe (p : str) : bool :=
  match p with
  | [] => true
  | c :: p' =>
      (if bool_decide (c = dash)
       then match p' with
            | [] => false
            | d :: _ => negb (bool_decide (d = upper_i)) && negb (bool_decide (d = lower_i))
            end
       else true)
      && flag_safe p'
  end.

(** ** Concrete inputs *)

(** The scenario of the specification: [vendor] excluded, run from [/proj]. *)
Definition scenario_world : world :=
  World (<[ $"/proj/excludes_clang_tidy.json" := File (Some (JArr [JArr [JStr $"vendor"]])) ]>
         (<[ $"/proj/_build/compile_commands.json" :=
               File (Some (JArr [
                 JObj [($"directory", JStr $"/proj/_build");
                       ($"command", JStr $"g++ -I/proj/vendor -c /proj/src/main.cpp");
                       ($"file", JStr $"/proj/src/main.cpp")];
                 JObj [($"directory", JStr $"/proj/_build");
                       ($"command", JStr $"g++ -I/proj/vendor -c /proj/vendor/lib.cpp");
                       ($"file", JStr $"/proj/vendor/lib.cpp")]])) ]> ∅)) [].

Definition scenario_state : state :=
  initial_state $"/proj/excludes_clang_tidy.json" $"/proj/_build" $"/proj".

Definition main_cpp : json :=
  JObj [($"directory", JStr $"/proj/_build");
        ($"command", JStr $"g++ -I/proj/vendor -c /proj/src/main.cpp");
        ($"file", JStr $"/proj/src/main.cpp")].

Definition lib_cpp : json :=
  JObj [($"directory", JStr $"/proj/_build");
        ($"command", JStr $"g++ -I/proj/vendor -c /proj/vendor/lib.cpp");
        ($"file", JStr $"/proj/vendor/lib.cpp")].

(** The globals of the scenario once both loaders have run. *)
Definition scenario_loaded : state :=
  State $"/proj/excludes_clang_tidy.json" $"/proj/_build" $"/proj"
        [0; 1] [ $"/vendor" ] [] [] [main_cpp; lib_cpp].

(** A directory [liblib] next to the excluded [lib]. *)
Definition liblib_cpp : json :=
  JObj [($"directory", JStr $"/proj/_build");
        ($"command", JStr $"g++ -c /proj/liblib/a.cpp");
        ($"file", JStr $"/proj/liblib/a.cpp")].

Definition liblib_world : world :=
  World (<[ $"/proj/excludes_clang_tidy.json" := File (Some (JArr [JArr [JStr $"lib"]])) ]>
         (<[ $"/proj/_build/compile_commands.json" := File (Some (JArr [liblib_cpp])) ]> ∅))
        [].

Definition liblib_loaded : state :=
  State $"/proj/excludes_clang_tidy.json" $"/proj/_build" $"/proj"
        [0] [ $"/lib" ] [] [] [liblib_cpp].

(** An include path [/proj/vendor2] that continues the excluded
    [/proj/vendor]. *)
Definition vendor2_cpp : json :=
  JObj [($"directory", JStr $"/proj/_build");
        ($"command", JStr $"g++ -I/proj/vendor2 -c /proj/src/main.cpp");
        ($"file", JStr $"/proj/src/main.cpp")].

Definition vendor2_loaded : state :=
  State $"/proj/excludes_clang_tidy.json" $"/proj/_build" $"/proj"
        [0] [ $"/vendor" ] [] [] [vendor2_cpp].

(** A build directory without files. *)
Definition empty_world : world := World ∅ [].

(** A world with the configuration of the scenario and no database. *)
Definition config_only_world : world :=
  World (<[ $"/proj/excludes_clang_tidy.json" := File (Some (JArr [JArr [JStr $"vendor"]])) ]> ∅)
        [].

(** One entry outside the excluded [vendor] whose command includes its
    headers. *)
Definition flagged_loaded : state :=
  State $"/proj/excludes_clang_tidy.json" $"/proj/_build" $"/proj"
        [0] [ $"/vendor" ] [] [] [main_cpp].

(** The scenario after the partitioner. *)
Definition scenario_partitioned : state :=
  State $"/proj/excludes_clang_tidy.json" $"/proj/_build" $"/proj"
        [0; 1] [ $"/vendor" ] [0] [1] [main_cpp; lib_cpp].

(** An excluded directory [third-i] under [/p], and a command that includes
    the headers of [/p/third-I/p/third-i]. *)
Definition dashed_command : str := $"g++ -I/p/third-I/p/third-i -c /p/src/main.cpp".

Definition dashed_cpp : json :=
  JObj [($"directory", JStr $"/p/_build");
        ($"command", JStr dashed_command);
        ($"file", JStr $"/p/src/main.cpp")].

Definition dashed_loaded : state :=
  State $"/p/excludes_clang_tidy.json" $"/p/_build" $"/p"
        [0] [ $"/third-i" ] [] [] [dashed_cpp].

(** ** Notions used for the further properties of the stages *)

(** The fragment that [read_config] builds from one list of directory
    names, and the JSON document of a configuration given as such lists. *)
Definition fragment (segs : list str) : str :=
  posixpath.sep ++ pystr.join posixpath.sep segs.

Definition config_doc (raw : list (list str)) : json :=
  JArr (map (fun segs => JArr (map JStr segs)) raw).

(** The two files [save_commands] writes. *)
Definition path_inc (st : state) : str :=
  posixpath.join (path_build st) $"compile_commands_inc.json".

Definition path_exc (st : state) : str :=
  posixpath.join (path_build st) $"compile_commands_exc.json".

(** The names joined with a separator before each. *)
Definition prefixed (segs : list str) : str :=
  flat_map (fun seg => posixpath.sep ++ seg) segs.

(** An entry that names its file without a directory. *)
Definition bare_cpp : json :=
  JObj [($"directory", JStr $"/proj/_build");
        ($"command", JStr $"g++ -c main.cpp");
        ($"file", JStr $"main.cpp")].

Definition bare_loaded : state :=
  State $"/proj/excludes_clang_tidy.json" $"/proj/_build" $"/proj"
        [0; 1] [ $"/vendor" ] [] [] [main_cpp; bare_cpp].

(** An included entry without a ['command']. *)
Definition uncommanded_cpp : json :=
  JObj [($"directory", JStr $"/proj/_build"); ($"file", JStr $"/proj/src/other.cpp")].

Definition uncommanded_partitioned : state :=
  State $"/proj/excludes_clang_tidy.json" $"/proj/_build" $"/proj"
        [0; 1] [ $"/vendor" ] [0; 1] [] [main_cpp; uncommanded_cpp].

(** The scenario with an entry that names its file without a directory. *)
Definition bare_world : world :=
  World (<[ $"/proj/excludes_clang_tidy.json" := File (Some (JArr [JArr [JStr $"vendor"]])) ]>
         (<[ $"/proj/_build/compile_commands.json" :=
               File (Some (JArr [main_cpp; bare_cpp])) ]> ∅)) [].

(** A rule given as a string of two characters, the first of which takes the
    two bytes 197 and 153. *)
Definition two_byte_rule : str := [ascii_of_nat 197; ascii_of_nat 153; "x"%char].

(** A rule starts a list of segments when its names but the last are the
    first segments and its last name begins the next one; it matches a
    directory when it starts the segments from some position on. *)
Fixpoint rule_starts (segs dir : list str) : bool :=
  match segs, dir with
  | [], _ => true
  | _ :: _, [] => false
  | [name], seg :: _ => pystr.startswith name seg
  | name :: segs', seg :: dir' => bool_decide (name = seg) && rule_starts segs' dir'
  end.

Fixpoint rule_matches (segs dir : list str) : bool :=
  rule_starts segs dir ||
  match dir with
  | [] => false
  | _ :: dir' => rule_matches segs dir'
  end.

(** A text that is empty or starts with a separator. *)
Definition at_separator (t : str) : Prop :=
  t = [] ∨ ∃ t', t = posixpath.sep_char :: t'.

(** * Checks of the embedding on concrete values *)

Example dirname_ex1 : posixpath.dirname $"/proj/src/main.cpp" = $"/proj/src".
Proof. reflexivity. Qed.
Example dirname_ex2 : posixpath.dirname $"main.cpp" = [].
Proof. reflexivity. Qed.
Example dirname_ex3 : posixpath.dirname $"//x" = $"//".
Proof. reflexivity. Qed.
Example dirname_ex4 : posixpath.dirname $"/a//b" = $"/a".
Proof. reflexivity. Qed.
Example normpath_ex1 : posixpath.normpath $"/a/./b/../c//d/" = $"/a/c/d".
Proof. reflexivity. Qed.
Example normpath_ex2 : posixpath.normpath $"../../x/.." = $"../..".
Proof. reflexivity. Qed.
Example normpath_ex3 : posixpath.normpath $"//a/../.." = $"//".
Proof. reflexivity. Qed.
Example relpath_ex1 : posixpath.relpath $"/proj" $"/proj/vendor/x" $"/proj" = Some $"vendor/x".
Proof. reflexivity. Qed.
Example relpath_ex2 : posixpath.relpath $"/proj" $"/other/x" $"/proj" = Some $"../other/x".
Proof. reflexivity. Qed.
Example relpath_ex3 : posixpath.relpath $"/proj" $"/proj" $"/proj" = Some $".".
Proof. reflexivity. Qed.
Example relpath_ex4 : posixpath.relpath $"/proj" $"src" $"/proj" = Some $"src".
Proof. reflexivity. Qed.
Example replace_ex1 : pystr.replace $"ab" $"X" $"aababab" = $"aXXX".
Proof. reflexivity. Qed.
Example replace_ex2 : pystr.replace $"aa" $"b" $"aaaaa" = $"bba".
Proof. reflexivity. Qed.
Example replace_ex3 : pystr.replace [] $"X" $"abc" = $"XaXbXcX".
Proof. reflexivity. Qed.
Example split_ex1 : pystr.split "/" $"/a//b" = [ []; $"a"; []; $"b"].
Proof. reflexivity. Qed.
Example chars_ex1 : pystr.chars $"lib" = [ $"l"; $"i"; $"b" ].
Proof. reflexivity. Qed.
Example chars_ex2 :
  pystr.chars two_byte_rule = [ [ascii_of_nat 197; ascii_of_nat 153]; $"x" ].
Proof. reflexivity. Qed.
Example ancestors_ex1 :
  ancestors 5 $"/proj/_build/compile_commands.json" = [ $"/proj/_build"; $"/proj"; $"/"; $"/"; $"/" ].
Proof. reflexivity. Qed.
Example is_directory_ex1 : is_directory scenario_world $"/proj/_build" = true.
Proof. reflexivity. Qed.
Example is_directory_ex2 : is_directory scenario_world $"/proj/_build/out" = false.
Proof. reflexivity. Qed.
Example is_directory_ex3 :
  is_directory scenario_world $"/proj/_build/compile_commands.json" = false.
Proof. reflexivity. Qed.
Example open_w_ex1 :
  open_w $"/proj/_build/out/compile_commands_inc.json" scenario_world
  = (scenario_world, Raise OSError).
Proof. reflexivity. Qed.
Example ends_into_ex1 : ends_into $"/p/third-i" $"-isystem /p" = true.
Proof. reflexivity. Qed.
Example ends_into_ex2 : ends_into $"/proj/third-party-impl" $"-isystem /proj" = false.
Proof. reflexivity. Qed.
Example cut_flags_ex1 :
  cut_flags $"/proj" $"g++ -I/proj/vendor -I/usr/include -I/proj/lib -c x.cpp"
  = ($"g++ ", [ $"/vendor -I/usr/include "; $"/lib -c x.cpp" ]).
Proof. reflexivity. Qed.
Example contains_ex1 : pystr.contains $"/lib" $"/liblib" = true.
Proof. reflexivity. Qed.

Example scenario_run :
  let '(w, r) := main TERMINATE_OK scenario_state scenario_world in
  fs w !! $"/proj/_build/compile_commands_inc.json" =
    Some (File (Some (JArr [
                 JObj [($"directory", JStr $"/proj/_build");
                       ($"command", JStr $"g++ -isystem /proj/vendor -c /proj/src/main.cpp");
                       ($"file", JStr $"/proj/src/main.cpp")]]))) ∧
  fs w !! $"/proj/_build/compile_commands_exc.json" =
    Some (File (Some (JArr [
                 JObj [($"directory", JStr $"/proj/_build");
                       ($"command", JStr $"g++ -I/proj/vendor -c /proj/vendor/lib.cpp");
                       ($"file", JStr $"/proj/vendor/lib.cpp")]]))) ∧
  exit_status r = 0%Z.
Proof. vm_compute. done. Qed.

(** * Facts about the string operations *)

Section string_facts.
Import pystr.

Lemma startswith_nil_r (p : str) : startswith p [] = true → p = [].
Proof. by destruct p. Qed.

Lemma startswith_app (p t : str) : startswith p (p ++ t) = true.
Proof.
  induction p as [|a p IH]; [done|].
  simpl. rewrite bool_decide_eq_true_2 by done. exact IH.
Qed.

Lemma startswith_inv (p s : str) : startswith p s = true → ∃ t, s = p ++ t.
Proof.
  revert s. induction p as [|a p IH]; intros s H.
  - by exists s.
  - destruct s as [|b s]; [done|].
    simpl in H. apply andb_true_iff in H as [Hab Hps].
    apply bool_decide_eq_true in Hab as ->.
    destruct (IH _ Hps) as [t ->]. by exists t.
Qed.

Lemma startswith_iff (p s : str) : startswith p s = true ↔ ∃ t, s = p ++ t.
Proof.
  split; [apply startswith_inv|]. intros [t ->]. apply startswith_app.
Qed.

Lemma startswith_cons (a b : ascii) (p s : str) :
  startswith (a :: p) (b :: s) = bool_decide (a = b) && startswith p s.
Proof. done. Qed.

Lemma startswith_app_l (u p s : str) : startswith (u ++ p) (u ++ s) = startswith p s.
Proof.
  induction u as [|a u IH]; [done|].
  simpl. by rewrite bool_decide_eq_true_2.
Qed.

Lemma contains_cons (p : str) (c : ascii) (s : str) :
  contains p (c :: s) = startswith p (c :: s) || contains p s.
Proof. done. Qed.

Lemma contains_app_r (p a s : str) : contains p s = true → contains p (a ++ s) = true.
Proof.
  intros H. induction a as [|c a IH]; [done|].
  simpl app. rewrite contains_cons, IH. apply orb_true_r.
Qed.

Lemma contains_intro (p a b : str) : contains p (a ++ p ++ b) = true.
Proof.
  apply contains_app_r. destruct (p ++ b) eqn:E.
  - apply app_eq_nil in E as [-> _]. done.
  - rewrite contains_cons, <- E, startswith_app. done.
Qed.

Lemma contains_inv (p s : str) : contains p s = true → ∃ a b, s = a ++ p ++ b.
Proof.
  induction s as [|c s IH]; simpl; intros H.
  - rewrite orb_false_r in H. apply startswith_nil_r in H as ->. by exists [], [].
  - apply orb_true_iff in H as [H|H].
    + apply startswith_inv in H as [t Ht]. exists [], t. by rewrite Ht.
    + destruct (IH H) as (a & b & ->). by exists (c :: a), b.
Qed.

Lemma contains_iff (p s : str) : contains p s = true ↔ ∃ a b, s = a ++ p ++ b.
Proof.
  split; [apply contains_inv|]. intros (a & b & ->). apply contains_intro.
Qed.

Lemma contains_false_cons (p : str) (c : ascii) (s : str) :
  contains p (c :: s) = false → contains p s = false.
Proof. rewrite contains_cons. by intros [_ ?]%orb_false_iff. Qed.

Lemma lstrip_idemp (c : ascii) (s : str) : lstrip c (lstrip c s) = lstrip c s.
Proof.
  induction s as [|x s IH]; [done|].
  simpl. case_bool_decide as E; [done|].
  simpl. by rewrite bool_decide_eq_false_2.
Qed.

(** *** The scan of [replace] *)

Lemma replace_from_skip (old new : str) (k : nat) (s : str) :
  replace_from old new k s = replace_from old new 0 (drop k s).
Proof.
  revert k. induction s as [|c s IH]; intros [|k]; try done.
  simpl. by rewrite IH.
Qed.

Lemma replace_from_hit (old new s : str) :
  old ≠ [] → startswith old s = true →
  replace_from old new 0 s = new ++ replace_from old new 0 (drop (length old) s).
Proof.
  intros Hold H. destruct s as [|c s].
  - by apply startswith_nil_r in H.
  - cbn [replace_from]. rewrite H, replace_from_skip.
    destruct old as [|a old]; [done|]. simpl. by rewrite Nat.sub_0_r.
Qed.

Lemma replace_from_miss (old new : str) (c : ascii) (s : str) :
  startswith old (c :: s) = false →
  replace_from old new 0 (c :: s) = c :: replace_from old new 0 s.
Proof. intros H. cbn [replace_from]. by rewrite H. Qed.

(** A stretch [u] in which no occurrence of [old] starts is copied. *)
Lemma replace_from_copy (old new u t : str) :
  (∀ a b, u = a ++ b → b ≠ [] → startswith old (b ++ t) = false) →
  replace_from old new 0 (u ++ t) = u ++ replace_from old new 0 t.
Proof.
  induction u as [|c u IH]; intros H; [done|].
  simpl app. rewrite replace_from_miss.
  - f_equal. apply IH. intros a b -> Hb. apply (H (c :: a) b); done.
  - apply (H [] (c :: u)); done.
Qed.

Lemma contains_copy (old u t : str) :
  (∀ a b, u = a ++ b → b ≠ [] → startswith old (b ++ t) = false) →
  contains old (u ++ t) = contains old t.
Proof.
  induction u as [|c u IH]; intros H; [done|].
  assert (H0 : startswith old (c :: (u ++ t)) = false)
    by (apply (H [] (c :: u)); done).
  simpl app. rewrite contains_cons, H0.
  simpl. apply IH. intros a b -> Hb. apply (H (c :: a) b); done.
Qed.

Lemma replace_absent (old new s : str) :
  old ≠ [] → contains old s = false → replace old new s = s.
Proof.
  intros Hold H. destruct old as [|o old]; [done|]. unfold replace.
  induction s as [|c s IH]; [done|].
  rewrite contains_cons in H. apply orb_false_iff in H as [H1 H2].
  rewrite replace_from_miss by done. f_equal. by apply IH.
Qed.
End string_facts.
(** * The partitioner *)

Section partition.
Import pystr.

Lemma scan_excludes_exhaustive_false (excl : list str) (path_str : str) :
  scan_excludes_exhaustive excl path_str false = false.
Proof. induction excl as [|e excl IH]; [done|]. simpl. by destruct (contains _ _). Qed.

Lemma scan_excludes_break (excl : list str) (path_str : str) :
  scan_excludes_exhaustive excl path_str true = scan_excludes excl path_str true.
Proof.
  induction excl as [|e excl IH]; [done|].
  simpl. destruct (contains e path_str); [apply scan_excludes_exhaustive_false | exact IH].
Qed.

(** The verdict only says whether some fragment occurs in [path_str]. *)
Lemma scan_excludes_existsb (excl : list str) (path_str : str) :
  scan_excludes excl path_str true = negb (existsb (fun e => contains e path_str) excl).
Proof.
  induction excl as [|e excl IH]; [done|].
  simpl. destruct (contains e path_str); [done | exact IH].
Qed.

Lemma for_each_ext {S A : Type} (f g : S → A → result S) (s : S) (l : list A) :
  (∀ s x, f s x = g s x) → for_each f s l = for_each g s l.
Proof.
  intros E. revert s. induction l as [|x l IH]; intros s; [done|].
  simpl. rewrite E. destruct (g s x); simpl; [apply IH | done].
Qed.

Lemma relpath_total (cwd path start : str) :
  path ≠ [] → ∃ rel, posixpath.relpath cwd path start = Some rel.
Proof.
  intros H. destruct path as [|c path]; [done|].
  unfold posixpath.relpath. destruct (_ ++ _); eauto.
Qed.

Lemma locatable_path_str (st : state) (r : nat) :
  locatable st r = true → placeable st r.
Proof.
  unfold placeable, locatable, deref, has_directory, path_str_of.
  destruct (store st !! r) as [obj|]; [|done].
  destruct (py.getitem obj _) as [[| | |file| |]|] eqn:Hfile; try done.
  intros H%negb_true_iff%bool_decide_eq_false.
  destruct (relpath_total (path_relative st) _ (path_relative st) H) as [rel Hrel].
  exists obj, (posixpath.sep ++ rel). split; [done|].
  rewrite Hfile. unfold mbind, result_bind, py.dirname, py.relpath. by rewrite Hrel.
Qed.

Lemma included_located (st : state) (r : nat) (obj : json) (path_str : str) :
  deref st r = Ok obj → path_str_of st obj = Ok path_str →
  included st r = scan_excludes (excludes st) path_str true.
Proof. intros H1 H2. unfold included. rewrite H1. simpl. by rewrite H2. Qed.

(** One round of the loop of [filter_sources]. *)
Lemma filter_source_step (st : state) (r : nat) :
  placeable st r →
  filter_source st r =
    Ok (if included st r
        then set_commands_inc (commands_inc st ++ [r]) st
        else set_commands_exc (commands_exc st ++ [r]) st).
Proof.
  intros (obj & path_str & H1 & H2).
  rewrite (included_located _ _ _ _ H1 H2).
  unfold filter_source. rewrite H1. simpl. rewrite H2. simpl.
  by destruct (scan_excludes _ _ _).
Qed.

(** The loop appends to the two lists and touches nothing else. *)
Lemma filter_sources_loop (refs : list nat) (st : state) :
  (∀ r, r ∈ refs → placeable st r) →
  for_each filter_source st refs =
    Ok (State (path_config st) (path_build st) (path_relative st) (commands st)
              (excludes st)
              (commands_inc st ++ filter (λ r, included st r) refs)
              (commands_exc st ++ filter (λ r, ¬ included st r) refs)
              (store st)).
Proof.
  revert st. induction refs as [|r refs IH]; intros st Hloc.
  - simpl. rewrite !filter_nil, !app_nil_r. by destruct st.
  - simpl. rewrite filter_source_step by (apply Hloc; left).
    simpl. rewrite !filter_cons.
    destruct (included st r) eqn:E.
    + rewrite IH by (intros r' Hr'; apply (Hloc r'); by right).
      rewrite decide_True, decide_False by (simpl; tauto).
      simpl. by rewrite <- app_assoc.
    + rewrite IH by (intros r' Hr'; apply (Hloc r'); by right).
      rewrite decide_False, decide_True by (simpl; tauto).
      simpl. by rewrite <- app_assoc.
Qed.

Lemma filter_sources_fresh (st : state) :
  commands_inc st = [] → commands_exc st = [] →
  (∀ r, r ∈ commands st → placeable st r) →
  filter_sources st =
    Ok (State (path_config st) (path_build st) (path_relative st) (commands st)
              (excludes st)
              (filter (λ r, included st r) (commands st))
              (filter (λ r, ¬ included st r) (commands st))
              (store st)).
Proof.
  intros Hi He Hloc. unfold filter_sources.
  rewrite filter_sources_loop by done. by rewrite Hi, He.
Qed.

(** Whatever the loop returns, it has only appended references that the
    partitioner judged, each to the list of its verdict. *)
Lemma filter_sources_loop_inv (refs : list nat) (st st' : state) :
  for_each filter_source st refs = Ok st' →
  path_relative st' = path_relative st ∧ excludes st' = excludes st ∧
  store st' = store st ∧ commands st' = commands st ∧
  commands_inc st' = commands_inc st ++ filter (λ r, included st r) refs ∧
  commands_exc st' = commands_exc st ++ filter (λ r, ¬ included st r) refs.
Proof.
  revert st. induction refs as [|r refs IH]; intros st H.
  - simpl in H. injection H as <-. by rewrite !filter_nil, !app_nil_r.
  - simpl in H. destruct (filter_source st r) as [st1|e] eqn:E1; [|done].
    simpl in H. apply IH in H as (Hp & Hx & Hs & Hc & Hi & He).
    unfold filter_source in E1.
    destruct (deref st r) as [obj|] eqn:Hobj; [|done]. simpl in E1.
    destruct (path_str_of st obj) as [path_str|] eqn:Hps; [|done]. simpl in E1.
    assert (Hsame : ∀ r', included st1 r' = included st r').
    { destruct (scan_excludes _ _ _); injection E1 as <-; done. }
    rewrite !filter_cons, (included_located _ _ _ _ Hobj Hps).
    rewrite (list_filter_iff _ (λ r, included st r)) in Hi
      by (intros r'; by rewrite Hsame).
    rewrite (list_filter_iff _ (λ r, ¬ included st r)) in He
      by (intros r'; by rewrite Hsame).
    destruct (scan_excludes _ _ _); injection E1 as <-; simpl in *.
    + rewrite Hi, <- app_assoc. done.
    + rewrite He, <- app_assoc. done.
Qed.
End partition.
(** ** Absolute paths have a directory part *)

Section path_facts.
Import pystr.

Lemma upto_last_sep (c : ascii) (s : str) : upto_last c (c :: s) ≠ [].
Proof.
  cbn [upto_last]. destruct (upto_last c s); [|done].
  by rewrite bool_decide_eq_true_2.
Qed.

Lemma lstrip_nil (c : ascii) (s : str) : lstrip c s = [] → s = replicate (length s) c.
Proof.
  induction s as [|x s IH]; [done|].
  cbn [lstrip]. case_bool_decide as E; [|done].
  intros H. subst x. simpl. f_equal. by apply IH.
Qed.

Lemma rstrip_nil (c : ascii) (s : str) : rstrip c s = [] → s = replicate (length s) c.
Proof.
  unfold rstrip. intros H.
  assert (H' : lstrip c (reverse s) = []).
  { apply (f_equal reverse) in H. by rewrite reverse_involutive in H. }
  apply lstrip_nil in H'. rewrite length_reverse in H'.
  apply (f_equal reverse) in H'. by rewrite reverse_involutive, reverse_replicate in H'.
Qed.

Lemma isabs_has_directory (file : str) :
  posixpath.isabs file = true → posixpath.dirname file ≠ [].
Proof.
  unfold posixpath.isabs, posixpath.sep. intros [t ->]%startswith_inv.
  unfold posixpath.dirname. simpl app.
  pose proof (upto_last_sep posixpath.sep_char t) as Hhead.
  destruct (bool_decide _ && negb _) eqn:E; [|done].
  apply andb_true_iff in E as [_ E%negb_true_iff%bool_decide_eq_false].
  intros H%rstrip_nil. done.
Qed.

(** An object whose ['file'] is an absolute path can be placed. *)
Lemma absolute_file_has_directory (obj : json) (file : str) :
  py.getitem obj $"file" = Ok (JStr file) → posixpath.isabs file = true →
  has_directory obj = true.
Proof.
  intros Hfile Habs. unfold has_directory. rewrite Hfile.
  apply negb_true_iff, bool_decide_eq_false. by apply isabs_has_directory.
Qed.
End path_facts.

(** ** Properties of the partition *)

(** C9. The partitioner that stops at the first fragment found in [path_str]
    returns the same state, hence the same two lists, as the one that tests
    every fragment; and the verdict is the boolean "no fragment occurs in
    [path_str]", whichever fragment it is that occurs. *)
Theorem short_circuit_same_partition :
  (∀ st : state, filter_sources_exhaustive st = filter_sources st) ∧
  (∀ (excl : list str) (path_str : str),
     scan_excludes excl path_str true
     = negb (existsb (fun e => pystr.contains e path_str) excl)).
Proof.
  split.
  - intros st. unfold filter_sources_exhaustive, filter_sources.
    apply for_each_ext. intros s r.
    unfold filter_source_exhaustive, filter_source.
    destruct (deref s r) as [obj|]; [|done]. simpl.
    destruct (path_str_of s obj) as [path_str|]; [|done]. simpl.
    by rewrite scan_excludes_break.
  - apply scan_excludes_existsb.
Qed.

Lemma included_store (st : state) (r1 r2 : nat) :
  store st !! r1 = store st !! r2 → included st r1 = included st r2.
Proof. intros H. unfold included, deref. by rewrite H. Qed.

(** C2. On a database whose entries all name their file with a directory
    part, the partitioner returns, and its two lists are disjoint (as
    references and as contents), their lengths add up to the length of the
    input, and together they are a rearrangement of the input: every entry is
    in exactly one of them, none is duplicated and none is dropped. *)
Theorem partition_complete (st : state) :
  commands_inc st = [] → commands_exc st = [] →
  forallb (locatable st) (commands st) = true →
  ∃ st', filter_sources st = Ok st' ∧
    store st' = store st ∧
    length (commands_inc st') + length (commands_exc st') = length (commands st) ∧
    commands_inc st' ++ commands_exc st' ≡ₚ commands st ∧
    (∀ r, r ∈ commands st ↔ r ∈ commands_inc st' ∨ r ∈ commands_exc st') ∧
    (∀ r, r ∈ commands_inc st' → r ∉ commands_exc st') ∧
    (∀ r1 r2, r1 ∈ commands_inc st' → r2 ∈ commands_exc st' →
              store st !! r1 ≠ store st !! r2).
Proof.
  intros Hi He Hloc.
  assert (Hloc' : ∀ r, r ∈ commands st → placeable st r).
  { intros r Hr. rewrite forallb_forall in Hloc.
    apply locatable_path_str, Hloc. by apply list_elem_of_In. }
  eexists. split; [by apply filter_sources_fresh|]. simpl.
  pose proof (filter_app_complement (λ r, included st r) (commands st)) as Hperm.
  split; [done|]. split; [|split; [done|]].
  { rewrite <- length_app. by rewrite Hperm. }
  split; [|split].
  - intros r. rewrite <- Hperm at 1. apply elem_of_app.
  - intros r [Hin _]%list_elem_of_filter [Hex _]%list_elem_of_filter. done.
  - intros r1 r2 [H1 _]%list_elem_of_filter [H2 _]%list_elem_of_filter Heq.
    apply H2. by rewrite <- (included_store _ _ _ Heq).
Qed.

Lemma partition_complete_witness :
  forallb (locatable scenario_loaded) (commands scenario_loaded) = true ∧
  ∃ st', filter_sources scenario_loaded = Ok st' ∧
    store st' = store scenario_loaded ∧
    length (commands_inc st') + length (commands_exc st') = 2 ∧
    commands_inc st' ++ commands_exc st' ≡ₚ [0; 1] ∧
    (∀ r, r ∈ [0; 1] ↔ r ∈ commands_inc st' ∨ r ∈ commands_exc st') ∧
    (∀ r, r ∈ commands_inc st' → r ∉ commands_exc st') ∧
    (∀ r1 r2, r1 ∈ commands_inc st' → r2 ∈ commands_exc st' →
              store scenario_loaded !! r1 ≠ store scenario_loaded !! r2).
Proof.
  split; [reflexivity|].
  apply (partition_complete scenario_loaded); reflexivity.
Defined.

(** C3. The partition is stable: each of the two lists is the input with the
    entries of the other verdict left out, so both keep the order of the
    input. *)
Theorem partition_stable (st : state) :
  commands_inc st = [] → commands_exc st = [] →
  forallb (locatable st) (commands st) = true →
  ∃ st', filter_sources st = Ok st' ∧
    commands_inc st' = filter (λ r, included st r) (commands st) ∧
    commands_exc st' = filter (λ r, ¬ included st r) (commands st) ∧
    commands_inc st' `sublist_of` commands st ∧
    commands_exc st' `sublist_of` commands st.
Proof.
  intros Hi He Hloc.
  assert (Hloc' : ∀ r, r ∈ commands st → placeable st r).
  { intros r Hr. rewrite forallb_forall in Hloc.
    apply locatable_path_str, Hloc. by apply list_elem_of_In. }
  eexists. split; [by apply filter_sources_fresh|]. simpl.
  repeat split; apply sublist_filter.
Qed.

Lemma partition_stable_witness :
  forallb (locatable scenario_loaded) (commands scenario_loaded) = true ∧
  ∃ st', filter_sources scenario_loaded = Ok st' ∧
    commands_inc st' = filter (λ r, included scenario_loaded r) [0; 1] ∧
    commands_exc st' = filter (λ r, ¬ included scenario_loaded r) [0; 1] ∧
    commands_inc st' `sublist_of` [0; 1] ∧
    commands_exc st' `sublist_of` [0; 1].
Proof.
  split; [reflexivity|].
  apply (partition_stable scenario_loaded); reflexivity.
Defined.

(** ** Which entries are excluded *)

(** The partitioner excludes an entry exactly when some fragment occurs in
    its [path_str] as a run of characters. *)
Lemma excluded_iff_substring (st : state) (r : nat) (obj : json) (path_str : str) :
  deref st r = Ok obj → path_str_of st obj = Ok path_str →
  included st r = false ↔ ∃ exclude, exclude ∈ excludes st ∧ pystr.contains exclude path_str = true.
Proof.
  intros H1 H2. rewrite (included_located _ _ _ _ H1 H2), scan_excludes_existsb.
  rewrite negb_false_iff, existsb_exists.
  split; intros (e & He & Hc); exists e; (split; [by apply list_elem_of_In | done]).
Qed.

(** C1, at the input where the code departs from it: the configuration
    [[["lib"]]] and a source file in [/proj/liblib], run from [/proj].  The
    loader builds the fragment [/lib], the directory of the file is
    [/liblib], no run of whole segments of [liblib] is [lib], and yet the
    partitioner puts the entry in [commands_exc]: [main] writes it to the
    file of the excluded commands and leaves the other file empty. *)
Theorem lib_excludes_liblib :
  read_config TERMINATE_OK scenario_state liblib_world
    = (liblib_world, Ok (set_excludes [ $"/lib" ] scenario_state)) ∧
  path_str_of liblib_loaded liblib_cpp = Ok $"/liblib" ∧
  segments_match [ $"lib" ] (pystr.split "/" $"liblib") = false ∧
  (∃ st', filter_sources liblib_loaded = Ok st' ∧
          commands_inc st' = [] ∧ commands_exc st' = [0]) ∧
  (let w := (main TERMINATE_OK scenario_state liblib_world).1 in
   fs w !! $"/proj/_build/compile_commands_exc.json" = Some (File (Some (JArr [liblib_cpp]))) ∧
   fs w !! $"/proj/_build/compile_commands_inc.json" = Some (File (Some (JArr [])))).
Proof.
  split; [vm_compute; reflexivity|].
  split; [vm_compute; reflexivity|].
  split; [vm_compute; reflexivity|].
  split; [eexists; split; [vm_compute; reflexivity | split; reflexivity]|].
  split; vm_compute; reflexivity.
Qed.

(** * The loaders and the missing files *)

Lemma read_exclude_frame (st st' : state) (items : list json) :
  for_each read_exclude st items = Ok st' →
  path_config st' = path_config st ∧ path_build st' = path_build st ∧
  path_relative st' = path_relative st.
Proof.
  revert st. induction items as [|x items IH]; intros st H.
  - by injection H as <-.
  - simpl in H. destruct (read_exclude st x) as [st1|] eqn:E; [|done].
    simpl in H. apply IH in H. unfold read_exclude in E.
    destruct (py.str_join _ x) as [joined|]; [|done]. by injection E as <-.
Qed.

(** [read_config] writes no file and prints nothing when it finds its file. *)
Lemma read_config_ok (lenient : bool) (st st1 : state) (w w1 : world) :
  read_config lenient st w = (w1, Ok st1) →
  w1 = w ∧ path_build st1 = path_build st ∧ is_Some (fs w !! path_config st).
Proof.
  unfold read_config, io_bind, exists_path, json_load, lift, print.
  case_bool_decide as Hex.
  - destruct Hex as [n Hn]. rewrite Hn.
    destruct n as [| |[doc|]]; try done.
    destruct (py.iter doc) as [items|]; [|done]. simpl.
    intros [= <- H]. apply read_exclude_frame in H as (_ & ? & _). eauto.
  - by destruct lenient.
Qed.

Lemma read_config_missing (lenient : bool) (st : state) (w : world) :
  fs w !! path_config st = None →
  read_config lenient st w
  = missing_file_exit lenient msg_config_skipped (msg_config_fatal (path_config st)) w.
Proof.
  intros H. unfold read_config, io_bind, exists_path, lift, print, missing_file_exit.
  rewrite bool_decide_eq_false_2 by (rewrite H; by intros [? ?]).
  by destruct lenient.
Qed.

Lemma read_commands_missing (lenient : bool) (st : state) (w : world) :
  fs w !! path_database st = None →
  read_commands lenient st w
  = missing_file_exit lenient msg_commands_skipped (msg_commands_fatal (path_database st)) w.
Proof.
  intros H. unfold read_commands, io_bind, exists_path, lift, print, missing_file_exit.
  fold (path_database st).
  rewrite bool_decide_eq_false_2 by (rewrite H; by intros [? ?]).
  by destruct lenient.
Qed.

Lemma missing_file_exit_facts (lenient : bool) (line msg : str) (w : world) :
  fs (missing_file_exit lenient line msg w).1 = fs w ∧
  exit_status (missing_file_exit lenient line msg w).2 = (if lenient then 0 else 1)%Z ∧
  (lenient = false →
     exit_message (missing_file_exit lenient line msg w).2 = Some msg ∧
     stdout (missing_file_exit lenient line msg w).1 = stdout w) ∧
  (lenient = true →
     exit_message (missing_file_exit lenient line msg w).2 = None ∧
     stdout (missing_file_exit lenient line msg w).1 = stdout w ++ [line]).
Proof. unfold missing_file_exit. by destruct lenient. Qed.

Lemma main_config_missing (lenient : bool) (st : state) (w : world) :
  fs w !! path_config st = None →
  main lenient st w
  = missing_file_exit lenient msg_config_skipped (msg_config_fatal (path_config st)) w.
Proof.
  intros H. unfold main, io_bind at 1. rewrite (read_config_missing _ _ _ H).
  unfold missing_file_exit. by destruct lenient.
Qed.

Lemma main_database_missing (lenient : bool) (st0 st : state) (w : world) :
  read_config lenient st0 w = (w, Ok st) → fs w !! path_database st = None →
  main lenient st0 w
  = missing_file_exit lenient msg_commands_skipped (msg_commands_fatal (path_database st)) w.
Proof.
  intros Hcfg H. unfold main, io_bind at 1. rewrite Hcfg. unfold io_bind at 1.
  rewrite (read_commands_missing _ _ _ H). unfold missing_file_exit. by destruct lenient.
Qed.

(** C8. A loader that does not find its file ends the process: [read_config]
    when the configuration is missing, [read_commands] when the database is
    missing, and [main] with them (for the database, once the configuration
    has been read).  The process ends before any file is written; in the
    strict mode (the script's [TERMINATE_OK = False]) with [SystemExit]
    carrying the message that names the missing file, hence with status 1;
    in the lenient mode after printing one line, with status 0. *)
Theorem missing_input_terminates (lenient : bool) (st : state) (w : world) :
  (fs w !! path_config st = None →
     read_config lenient st w
     = missing_file_exit lenient msg_config_skipped (msg_config_fatal (path_config st)) w ∧
     main lenient st w
     = missing_file_exit lenient msg_config_skipped (msg_config_fatal (path_config st)) w) ∧
  (fs w !! path_database st = None →
     read_commands lenient st w
     = missing_file_exit lenient msg_commands_skipped (msg_commands_fatal (path_database st)) w ∧
     ∀ st0, read_config lenient st0 w = (w, Ok st) →
       main lenient st0 w
       = missing_file_exit lenient msg_commands_skipped
           (msg_commands_fatal (path_database st)) w) ∧
  (∀ line msg,
     fs (missing_file_exit lenient line msg w).1 = fs w ∧
     exit_status (missing_file_exit lenient line msg w).2 = (if lenient then 0 else 1)%Z ∧
     (lenient = false →
        exit_message (missing_file_exit lenient line msg w).2 = Some msg ∧
        stdout (missing_file_exit lenient line msg w).1 = stdout w) ∧
     (lenient = true →
        exit_message (missing_file_exit lenient line msg w).2 = None ∧
        stdout (missing_file_exit lenient line msg w).1 = stdout w ++ [line])).
Proof.
  split; [|split].
  - intros H. split; [by apply read_config_missing | by apply main_config_missing].
  - intros H. split; [by apply read_commands_missing|].
    intros st0 Hcfg. by apply main_database_missing.
  - intros line msg. apply missing_file_exit_facts.
Qed.

Lemma missing_input_terminates_witness :
  fs empty_world !! path_config scenario_state = None ∧
  main TERMINATE_OK scenario_state empty_world
  = missing_file_exit TERMINATE_OK msg_config_skipped
      (msg_config_fatal (path_config scenario_state)) empty_world ∧
  fs config_only_world !! path_database (set_excludes [ $"/vendor" ] scenario_state) = None ∧
  read_config TERMINATE_OK scenario_state config_only_world
  = (config_only_world, Ok (set_excludes [ $"/vendor" ] scenario_state)) ∧
  main TERMINATE_OK scenario_state config_only_world
  = missing_file_exit TERMINATE_OK msg_commands_skipped
      (msg_commands_fatal (path_database scenario_state)) config_only_world.
Proof.
  destruct (missing_input_terminates TERMINATE_OK scenario_state empty_world)
    as (Hconfig & _ & _).
  destruct (missing_input_terminates TERMINATE_OK (set_excludes [ $"/vendor" ] scenario_state)
              config_only_world) as (_ & Hdatabase & _).
  split; [reflexivity|]. split; [apply Hconfig; reflexivity|].
  split; [reflexivity|]. split; [vm_compute; reflexivity|].
  apply Hdatabase; [reflexivity | vm_compute; reflexivity].
Defined.

Example missing_config_strict :
  main TERMINATE_OK scenario_state empty_world
  = (empty_world,
     Raise (SystemExit (ExitMessage
       ($"** FATAL - file to list excluded directories is missing:" ++ [newline]
        ++ $"/proj/excludes_clang_tidy.json")))).
Proof. vm_compute. reflexivity. Qed.

(** What [read_commands] leaves when it returns: one reference for each
    object of the store, all distinct. *)
Lemma read_commands_ok (lenient : bool) (st st1 : state) (w w1 : world) :
  read_commands lenient st w = (w1, Ok st1) →
  w1 = w ∧ commands st1 = seq 0 (length (store st1)) ∧ NoDup (commands st1) ∧
  excludes st1 = excludes st ∧ commands_inc st1 = commands_inc st ∧
  commands_exc st1 = commands_exc st.
Proof.
  unfold read_commands, io_bind, exists_path, json_load, lift, print.
  case_bool_decide as Hex.
  - destruct Hex as [n Hn]. rewrite Hn.
    destruct n as [| |[doc|]]; try done.
    intros [= <- <-]. simpl. repeat split; try done. apply NoDup_seq.
  - by destruct lenient.
Qed.

(** From fresh lists the partitioner includes every entry at most once when
    the loaded references are distinct. *)
Lemma filter_sources_distinct (st st1 : state) :
  commands_inc st = [] → commands_exc st = [] → NoDup (commands st) →
  filter_sources st = Ok st1 →
  NoDup (commands_inc st1) ∧ NoDup (commands_exc st1).
Proof.
  intros Hi He Hnd H.
  apply filter_sources_loop_inv in H as (_ & _ & _ & _ & -> & ->).
  rewrite Hi, He. simpl. split; by apply NoDup_filter.
Qed.

(** * The header rewrite *)

Section dictionaries.
Import py.

Lemma dict_get_set_eq (k : str) (v : json) (m : list (str * json)) :
  dict_get k (dict_set k v m) = Some v.
Proof.
  induction m as [|[k' v'] m IH]; simpl.
  - by rewrite bool_decide_eq_true_2.
  - case_bool_decide as E; simpl.
    + by rewrite bool_decide_eq_true_2.
    + by rewrite bool_decide_eq_false_2.
Qed.

Lemma dict_get_set_ne (k k' : str) (v : json) (m : list (str * json)) :
  k' ≠ k → dict_get k' (dict_set k v m) = dict_get k' m.
Proof.
  intros Hne. induction m as [|[k0 v0] m IH]; simpl.
  - by rewrite bool_decide_eq_false_2.
  - case_bool_decide as E; simpl.
    + subst k0. by rewrite !bool_decide_eq_false_2.
    + by rewrite IH.
Qed.

Lemma dict_set_set (k : str) (v1 v2 : json) (m : list (str * json)) :
  dict_set k v2 (dict_set k v1 m) = dict_set k v2 m.
Proof.
  induction m as [|[k0 v0] m IH]; simpl.
  - by rewrite bool_decide_eq_true_2.
  - case_bool_decide as E; simpl.
    + by rewrite bool_decide_eq_true_2.
    + by rewrite bool_decide_eq_false_2, IH.
Qed.

Lemma dict_set_id (k : str) (v : json) (m : list (str * json)) :
  dict_get k m = Some v → dict_set k v m = m.
Proof.
  induction m as [|[k0 v0] m IH]; simpl; [done|].
  case_bool_decide as E.
  - by intros [= ->].
  - intros H. by rewrite IH.
Qed.

Lemma dict_set_keys (k : str) (v : json) (m : list (str * json)) :
  is_Some (dict_get k m) → (dict_set k v m).*1 = m.*1.
Proof.
  induction m as [|[k0 v0] m IH]; [by intros [? ?]|].
  cbn [dict_get dict_set]. case_bool_decide as E; [done|].
  intros H. rewrite !fmap_cons. f_equal. by apply IH.
Qed.

Lemma same_but_command_refl (obj : json) : same_but_command obj obj.
Proof. by left. Qed.

Lemma same_but_command_trans (o1 o2 o3 : json) :
  same_but_command o1 o2 → same_but_command o2 o3 → same_but_command o1 o3.
Proof.
  intros [->|(m & v & -> & ->)] [->|(m' & v' & E & ->)]; try by left.
  - right. eauto.
  - right. eauto.
  - injection E as <-. right. exists m, v'. by rewrite dict_set_set.
Qed.

Lemma same_but_command_getitem (obj obj' : json) (k : str) :
  same_but_command obj obj' → k ≠ $"command" → getitem obj' k = getitem obj k.
Proof.
  intros [->|(m & v & -> & ->)] Hk; [done|].
  simpl. by rewrite dict_get_set_ne.
Qed.
End dictionaries.

Section rewritten_only_facts.

Lemma rewritten_only_refl (refs : list nat) (st : state) : rewritten_only refs st st.
Proof.
  repeat split; try done. intros obj H. exists obj. split; [done | apply same_but_command_refl].
Qed.

Lemma rewritten_only_trans (refs : list nat) (s1 s2 s3 : state) :
  rewritten_only refs s1 s2 → rewritten_only refs s2 s3 → rewritten_only refs s1 s3.
Proof.
  intros (A1 & A2 & A3 & A4 & A5 & A6 & A7 & A8) (B1 & B2 & B3 & B4 & B5 & B6 & B7 & B8).
  repeat split; try congruence.
  - intros Hr. destruct (A8 r) as [E1 _], (B8 r) as [E2 _]. rewrite E2, E1; done.
  - intros obj Hobj. destruct (A8 r) as [_ E1], (B8 r) as [_ E2].
    destruct (E1 _ Hobj) as (o2 & Ho2 & S12). destruct (E2 _ Ho2) as (o3 & Ho3 & S23).
    exists o3. split; [done|]. by eapply same_but_command_trans.
Qed.

Lemma rewritten_only_mono (refs refs' : list nat) (st st' : state) :
  refs ⊆ refs' → rewritten_only refs st st' → rewritten_only refs' st st'.
Proof.
  intros Hsub (A1 & A2 & A3 & A4 & A5 & A6 & A7 & A8).
  repeat split; try done.
  - intros Hr. apply A8. intros Hin. apply Hr, Hsub, Hin.
  - apply A8.
Qed.

(** Writing an object that only differs in its command. *)
Lemma rewritten_only_insert (st : state) (r : nat) (obj obj' : json) :
  store st !! r = Some obj → same_but_command obj obj' →
  rewritten_only [r] st (set_store (<[r := obj']> (store st)) st).
Proof.
  intros Hobj Hsame. repeat split; try done; simpl.
  - intros Hr. apply list_lookup_insert_ne. set_solver.
  - intros o Ho. destruct (decide (r0 = r)) as [->|Hne].
    + exists obj'. rewrite list_lookup_insert_eq by (by eapply lookup_lt_Some).
      split; [done|]. congruence.
    + exists o. rewrite list_lookup_insert_ne by done.
      split; [done | apply same_but_command_refl].
Qed.

Lemma filter_header_frame (r : nat) (st st' : state) (exclude : str) :
  filter_header r st exclude = Ok st' → rewritten_only [r] st st'.
Proof.
  unfold filter_header, deref.
  destruct (store st !! r) as [obj|] eqn:Hobj; [|done]. simpl.
  destruct (py.getitem obj _) as [value|]; [|done]. simpl.
  destruct (py.contains _ value) as [[|]|]; simpl; try done.
  - destruct (py.replace value _ _) as [replaced|]; [|done]. simpl.
    destruct obj as [| | | | |m]; try done. simpl.
    intros [= <-]. eapply rewritten_only_insert; [done|]. right. eauto.
  - intros [= <-]. apply rewritten_only_refl.
Qed.

Lemma for_each_frame (refs : list nat) (excl : list str) (r : nat) (st st' : state) :
  r ∈ refs →
  for_each (filter_header r) st excl = Ok st' → rewritten_only refs st st'.
Proof.
  intros Hr. revert st. induction excl as [|e excl IH]; intros st H.
  - injection H as <-. apply rewritten_only_refl.
  - simpl in H. destruct (filter_header r st e) as [st1|] eqn:E; [|done]. simpl in H.
    eapply rewritten_only_trans; [|by apply IH].
    eapply rewritten_only_mono; [|by eapply filter_header_frame].
    by intros x ->%list_elem_of_singleton.
Qed.

Lemma headers_loop_frame (all refs : list nat) (st st' : state) :
  refs ⊆ all →
  for_each (fun st r => for_each (filter_header r) st (excludes st)) st refs = Ok st' →
  rewritten_only all st st'.
Proof.
  revert st. induction refs as [|r refs IH]; intros st Hsub H.
  - injection H as <-. apply rewritten_only_refl.
  - simpl in H.
    destruct (for_each (filter_header r) st (excludes st)) as [st1|] eqn:E; [|done].
    simpl in H. eapply rewritten_only_trans.
    + eapply for_each_frame; [|done]. set_solver.
    + apply IH; [set_solver | done].
Qed.

(** [filter_headers] strips the fragments and rewrites commands of included
    entries; it does nothing else. *)
Lemma filter_headers_frame (st st' : state) :
  filter_headers st = Ok st' →
  rewritten_only (commands_inc st) (set_excludes (stripped_excludes st) st) st'.
Proof.
  unfold filter_headers. simpl. intros H.
  by apply (headers_loop_frame (commands_inc st)) in H.
Qed.
End rewritten_only_facts.

(** ** The rewrite of string commands *)

Section string_commands.
Import py.

Lemma set_store_same (st : state) : set_store (store st) st = st.
Proof. by destruct st. Qed.

Lemma filter_header_str (r : nat) (st : state) (e : str) (m : list (str * json)) (s : str) :
  store st !! r = Some (JObj m) → dict_get $"command" m = Some (JStr s) →
  filter_header r st e
  = Ok (set_store
          (<[r := JObj (dict_set $"command"
                          (JStr (rewrite_flag (posixpath.join (path_relative st) e) s)) m)]>
             (store st)) st).
Proof.
  intros Hobj Hcmd. unfold filter_header, deref, getitem, rewrite_flag.
  rewrite Hobj. cbn [mbind result_bind]. rewrite Hcmd. cbn [mbind result_bind py.contains].
  destruct (pystr.contains _ s) eqn:Hfound.
  - reflexivity.
  - rewrite (dict_set_id _ _ _ Hcmd), list_insert_id by done. by rewrite set_store_same.
Qed.

Lemma rewrite_command_cons (rel e : str) (excl : list str) (s : str) :
  rewrite_command rel (e :: excl) s
  = rewrite_command rel excl (rewrite_flag (posixpath.join rel e) s).
Proof. done. Qed.

Lemma filter_header_loop (r : nat) (excl : list str) (st : state)
    (m : list (str * json)) (s : str) :
  store st !! r = Some (JObj m) → dict_get $"command" m = Some (JStr s) →
  for_each (filter_header r) st excl
  = Ok (set_store
          (<[r := JObj (dict_set $"command"
                          (JStr (rewrite_command (path_relative st) excl s)) m)]>
             (store st)) st).
Proof.
  revert st m s. induction excl as [|e excl IH]; intros st m s Hobj Hcmd.
  - cbn [for_each rewrite_command fold_left].
    rewrite (dict_set_id _ _ _ Hcmd), list_insert_id by done.
    by rewrite set_store_same.
  - cbn [for_each]. rewrite (filter_header_str _ _ _ _ _ Hobj Hcmd).
    cbn [mbind result_bind].
    assert (Hlt : r < length (store st)) by (by eapply lookup_lt_Some).
    erewrite IH.
    + cbn [set_store store path_relative].
      rewrite list_insert_insert_eq, dict_set_set. reflexivity.
    + cbn [set_store store]. by apply list_lookup_insert_eq.
    + apply dict_get_set_eq.
Qed.

Lemma has_command_inv (st : state) (r : nat) :
  has_command st r = true →
  ∃ m s, store st !! r = Some (JObj m) ∧ dict_get $"command" m = Some (JStr s).
Proof.
  unfold has_command. destruct (store st !! r) as [obj|]; [|done].
  intros [s Hs]%bool_decide_eq_true. unfold command_of, getitem in Hs.
  destruct obj as [| | | | |m]; try done.
  destruct (dict_get _ m) as [[| | |s'| |]|] eqn:E; try done. eauto.
Qed.

(** The outer loop over distinct references to objects with string commands
    returns, and every object visited holds the rewritten command. *)
Lemma headers_loop_str (excl : list str) (refs : list nat) (st : state) :
  excludes st = excl → NoDup refs →
  (∀ r, r ∈ refs → has_command st r = true) →
  ∃ st', for_each (fun st r => for_each (filter_header r) st (excludes st)) st refs = Ok st' ∧
         ∀ r, r ∈ refs → command_rewritten excl st st' r.
Proof.
  revert st. induction refs as [|r refs IH]; intros st Hexcl Hnd Hcmd.
  - exists st. split; [done|]. by intros r ?%elem_of_nil.
  - apply NoDup_cons in Hnd as [Hr Hnd].
    destruct (has_command_inv st r) as (m & s & Hobj & Hget); [apply Hcmd; left|].
    cbn [for_each]. rewrite Hexcl, (filter_header_loop _ _ _ _ _ Hobj Hget).
    cbn [mbind result_bind].
    set (st1 := set_store _ st).
    assert (Hother : ∀ r', r' ≠ r → store st1 !! r' = store st !! r').
    { intros r' Hne. simpl. by apply list_lookup_insert_ne. }
    destruct (IH st1) as (st' & Hrun & Hall); [done | done | |].
    { intros r' Hr'. unfold has_command. rewrite Hother by set_solver.
      apply Hcmd. by right. }
    exists st'. split; [done|].
    intros r' [->|Hr']%elem_of_cons m' s' Hobj' Hget'.
    + assert (Hframe : rewritten_only refs st1 st')
        by (by apply (headers_loop_frame refs refs) in Hrun).
      destruct Hframe as (_ & _ & _ & _ & _ & _ & _ & Hst).
      destruct (Hst r) as [Hsame _]. rewrite Hsame by done.
      cbn [st1 set_store store].
      rewrite list_lookup_insert_eq by (by eapply lookup_lt_Some).
      congruence.
    + apply (Hall r' Hr'); [|done]. rewrite Hother by set_solver. done.
Qed.

Lemma rewrite_command_absent (rel : str) (excl : list str) (s : str) :
  forallb (fun p => negb (pystr.contains (header_include p) s))
          (map (posixpath.join rel) excl) = true →
  rewrite_command rel excl s = s.
Proof.
  induction excl as [|e excl IH]; [done|].
  cbn [map forallb]. intros [H1 H2]%andb_true_iff. rewrite rewrite_command_cons.
  unfold rewrite_flag at 1. apply negb_true_iff in H1. rewrite H1. by apply IH.
Qed.
End string_commands.

(** ** The whole stage on string commands, and the run without matches *)

Lemma command_of_members (m : list (str * json)) (s : str) :
  command_of (JObj m) = Some s ↔ py.dict_get $"command" m = Some (JStr s).
Proof.
  unfold command_of, py.getitem.
  destruct (py.dict_get _ m) as [[| | |s'| |]|]; split; try done; by intros [= ->].
Qed.

Lemma command_of_inv (obj : json) (s : str) :
  command_of obj = Some s →
  ∃ m, obj = JObj m ∧ py.dict_get $"command" m = Some (JStr s).
Proof.
  destruct obj as [| | | | |m]; try done. intros H%command_of_members. eauto.
Qed.

(** On distinct included entries that hold string commands the stage
    returns; it strips the fragments and leaves, behind each included
    reference, the object with its command rewritten. *)
Lemma filter_headers_str (st : state) :
  NoDup (commands_inc st) →
  (∀ r, r ∈ commands_inc st → has_command st r = true) →
  ∃ st', filter_headers st = Ok st' ∧
    rewritten_only (commands_inc st) (set_excludes (stripped_excludes st) st) st' ∧
    ∀ r obj s, r ∈ commands_inc st → store st !! r = Some obj → command_of obj = Some s →
      ∃ obj', store st' !! r = Some obj' ∧ command_of obj' = Some (rewritten st s) ∧
              same_but_command obj obj'.
Proof.
  intros Hnd Hcmd.
  destruct (headers_loop_str (stripped_excludes st) (commands_inc st)
              (set_excludes (stripped_excludes st) st)) as (st' & Hrun & Hall);
    [done | done | done |].
  exists st'. split; [exact Hrun|]. split.
  - apply filter_headers_frame. exact Hrun.
  - intros r obj s Hr Hobj Hs. apply command_of_inv in Hs as (m & -> & Hget).
    eexists. split; [by apply (Hall r Hr m s)|]. split.
    + apply command_of_members. apply dict_get_set_eq.
    + right. eauto.
Qed.

Lemma no_fragment_included (st : state) (r : nat) :
  no_fragment_matches st = true → r ∈ commands st →
  placeable st r ∧ included st r = true.
Proof.
  unfold no_fragment_matches. rewrite forallb_forall. intros H Hr%list_elem_of_In.
  specialize (H r Hr).
  destruct (deref st r) as [obj|] eqn:Hobj; [|done]. cbn [mbind result_bind] in H.
  destruct (path_str_of st obj) as [path_str|] eqn:Hps; [|done].
  split; [by exists obj, path_str|].
  rewrite (included_located _ _ _ _ Hobj Hps), scan_excludes_existsb.
  apply negb_true_iff, not_true_iff_false. intros (e & He & Hc)%existsb_exists.
  rewrite forallb_forall in H. specialize (H e He). by rewrite Hc in H.
Qed.

Lemma filter_all (P : nat → Prop) `{∀ x, Decision (P x)} (l : list nat) :
  (∀ x, x ∈ l → P x) → filter P l = l.
Proof.
  induction l as [|x l IH]; intros HP; [done|].
  rewrite filter_cons_True by (apply HP; left). f_equal. apply IH.
  intros y Hy. apply HP. by right.
Qed.

Lemma filter_none (P : nat → Prop) `{∀ x, Decision (P x)} (l : list nat) :
  (∀ x, x ∈ l → ¬ P x) → filter P l = [].
Proof.
  induction l as [|x l IH]; intros HP; [done|].
  rewrite filter_cons_False by (apply HP; left). apply IH.
  intros y Hy. apply HP. by right.
Qed.

(** C7, amended.  When no fragment occurs in the [path_str] of any entry (of
    a database of distinct entries that hold string commands), the two
    filters return, nothing is excluded and the included list is the input in
    its order; every entry keeps all its attributes but the command, which is
    the rewritten one; an entry whose command holds no plain-include flag of
    an excluded directory is left exactly as it was. *)
Theorem no_match_keeps_all (st : state) :
  commands_inc st = [] → commands_exc st = [] → NoDup (commands st) →
  no_fragment_matches st = true →
  forallb (has_command st) (commands st) = true →
  ∃ st1 st2, filter_sources st = Ok st1 ∧ filter_headers st1 = Ok st2 ∧
    commands_exc st2 = [] ∧ commands_inc st2 = commands st ∧
    ∀ r obj s, r ∈ commands st → store st !! r = Some obj → command_of obj = Some s →
      (∃ obj', store st2 !! r = Some obj' ∧ command_of obj' = Some (rewritten st s) ∧
               ∀ k, k ≠ $"command" → py.getitem obj' k = py.getitem obj k) ∧
      (no_flag_in st s = true → store st2 !! r = Some obj).
Proof.
  intros Hi He Hnd Hno Hcmd.
  pose proof (filter_sources_fresh st Hi He
                (λ r Hr, proj1 (no_fragment_included st r Hno Hr))) as H1.
  rewrite (filter_all (λ r, included st r)) in H1
    by (intros r Hr; by rewrite (proj2 (no_fragment_included st r Hno Hr))).
  rewrite (filter_none (λ r, ¬ included st r)) in H1
    by (intros r Hr; rewrite (proj2 (no_fragment_included st r Hno Hr)); simpl; tauto).
  set (st1 := State _ _ _ _ _ _ _ _) in H1.
  destruct (filter_headers_str st1) as (st2 & H2 & Hframe & Hall); [done | |].
  { intros r Hr. rewrite forallb_forall in Hcmd. apply (Hcmd r). by apply list_elem_of_In. }
  exists st1, st2. split; [done|]. split; [done|].
  destruct Hframe as (_ & _ & _ & _ & _ & Hinc & Hexc & _).
  split; [done|]. split; [done|].
  intros r obj s Hr Hobj Hs.
  destruct (Hall r obj s Hr Hobj Hs) as (obj' & Hobj' & Hs' & Hsame).
  split.
  - exists obj'. split; [done|]. split; [done|].
    intros k Hk. by apply same_but_command_getitem.
  - intros Hflag. rewrite Hobj'. f_equal.
    apply command_of_inv in Hs as (m & -> & Hget).
    destruct Hsame as [->|(m' & v & [= <-] & ->)]; [done|].
    rewrite command_of_members, dict_get_set_eq in Hs'. injection Hs' as ->.
    unfold rewritten. rewrite rewrite_command_absent by exact Hflag.
    by rewrite dict_set_id.
Qed.

Lemma no_match_keeps_all_witness :
  no_fragment_matches flagged_loaded = true ∧
  forallb (has_command flagged_loaded) (commands flagged_loaded) = true ∧
  ∃ st1 st2, filter_sources flagged_loaded = Ok st1 ∧ filter_headers st1 = Ok st2 ∧
    commands_exc st2 = [] ∧ commands_inc st2 = [0] ∧
    ∀ r obj s, r ∈ [0] → store flagged_loaded !! r = Some obj → command_of obj = Some s →
      (∃ obj', store st2 !! r = Some obj' ∧ command_of obj' = Some (rewritten flagged_loaded s) ∧
               ∀ k, k ≠ $"command" → py.getitem obj' k = py.getitem obj k) ∧
      (no_flag_in flagged_loaded s = true → store st2 !! r = Some obj).
Proof.
  split; [reflexivity|]. split; [reflexivity|].
  apply (no_match_keeps_all flagged_loaded); try reflexivity.
  apply (bool_decide_unpack _). reflexivity.
Defined.

(** C7 as stated fails: no fragment occurs in [/src], the entry is included,
    and the stage still rewrites its command, which names the headers of the
    excluded [vendor]. *)
Lemma no_match_command_rewritten :
  no_fragment_matches flagged_loaded = true ∧
  ∃ st1 st2, filter_sources flagged_loaded = Ok st1 ∧ filter_headers st1 = Ok st2 ∧
    commands_exc st2 = [] ∧ commands_inc st2 = [0] ∧
    store flagged_loaded !! 0 ≫= command_of = Some $"g++ -I/proj/vendor -c /proj/src/main.cpp" ∧
    store st2 !! 0 ≫= command_of = Some $"g++ -isystem /proj/vendor -c /proj/src/main.cpp" ∧
    store st2 !! 0 ≠ store flagged_loaded !! 0.
Proof.
  split; [reflexivity|].
  eexists _, _. split; [vm_compute; reflexivity|]. split; [vm_compute; reflexivity|].
  repeat split; try reflexivity. simpl. discriminate.
Qed.

Lemma map_result_ext {A B : Type} (f g : A → result B) (l : list A) :
  (∀ x, x ∈ l → f x = g x) → map_result f l = map_result g l.
Proof.
  induction l as [|x l IH]; intros H; [done|].
  simpl. rewrite (H x) by left. rewrite IH; [done|].
  intros y Hy. apply H. by right.
Qed.

(** The two filters return on a database of distinct entries that can be
    placed and hold string commands. *)
Lemma filters_return (st : state) :
  commands_inc st = [] → commands_exc st = [] → NoDup (commands st) →
  forallb (locatable st) (commands st) = true →
  forallb (has_command st) (commands st) = true →
  ∃ st1 st2, filter_sources st = Ok st1 ∧ filter_headers st1 = Ok st2.
Proof.
  intros Hi He Hnd Hloc Hcmd.
  assert (Hloc' : ∀ r, r ∈ commands st → placeable st r).
  { intros r Hr. rewrite forallb_forall in Hloc.
    apply locatable_path_str, Hloc. by apply list_elem_of_In. }
  pose proof (filter_sources_fresh st Hi He Hloc') as H1.
  set (st1 := State _ _ _ _ _ _ _ _) in H1.
  destruct (filter_headers_str st1) as (st2 & H2 & _).
  - by apply NoDup_filter.
  - intros r [_ Hr]%list_elem_of_filter. rewrite forallb_forall in Hcmd.
    apply (Hcmd r). by apply list_elem_of_In.
  - by exists st1, st2.
Qed.

(** C5. In a run of the two filters from fresh lists, the header rewrite
    leaves both lists as the partitioner made them, leaves every excluded
    entry as it was loaded (so the excluded output is the input entries,
    unchanged), and changes nothing of an included entry but the value under
    ['command'].  Such runs exist: the filters return on every database of
    distinct entries that can be placed and hold string commands. *)
Theorem rewrite_touches_only_included_commands (st : state) :
  commands_inc st = [] → commands_exc st = [] →
  (∀ st1 st2,
     filter_sources st = Ok st1 → filter_headers st1 = Ok st2 →
     commands_inc st2 = commands_inc st1 ∧ commands_exc st2 = commands_exc st1 ∧
     (∀ r, r ∈ commands_exc st2 → store st2 !! r = store st !! r) ∧
     map_result (deref st2) (commands_exc st2) = map_result (deref st) (commands_exc st2) ∧
     (∀ r obj, r ∈ commands_inc st2 → store st !! r = Some obj →
        ∃ obj', store st2 !! r = Some obj' ∧
                ∀ k, k ≠ $"command" → py.getitem obj' k = py.getitem obj k)) ∧
  (NoDup (commands st) →
   forallb (locatable st) (commands st) = true →
   forallb (has_command st) (commands st) = true →
   ∃ st1 st2, filter_sources st = Ok st1 ∧ filter_headers st1 = Ok st2).
Proof.
  intros Hi He. split; [|by apply filters_return].
  intros st1 st2 H1 H2.
  apply filter_sources_loop_inv in H1 as (_ & _ & Hs & _ & Hinc & Hexc).
  rewrite Hi in Hinc. rewrite He in Hexc. simpl in Hinc, Hexc.
  apply filter_headers_frame in H2 as (_ & _ & _ & _ & _ & Hinc2 & Hexc2 & Hstore).
  simpl in Hinc2, Hexc2, Hstore.
  assert (Hfix : ∀ r, r ∈ commands_exc st2 → store st2 !! r = store st !! r).
  { intros r Hr. rewrite <- Hs. apply Hstore.
    rewrite Hexc2, Hexc in Hr. apply list_elem_of_filter in Hr as [Hr _].
    rewrite Hinc. intros [Hr' _]%list_elem_of_filter. done. }
  split; [done|]. split; [done|]. split; [done|]. split.
  - apply map_result_ext. intros r Hr. unfold deref. by rewrite Hfix.
  - intros r obj _ Hobj. rewrite <- Hs in Hobj.
    destruct (Hstore r) as [_ Hr]. destruct (Hr _ Hobj) as (obj' & Hobj' & Hsame).
    exists obj'. split; [done|]. intros k Hk. by apply same_but_command_getitem.
Qed.

Lemma rewrite_touches_only_included_commands_witness :
  forallb (locatable scenario_loaded) (commands scenario_loaded) = true ∧
  forallb (has_command scenario_loaded) (commands scenario_loaded) = true ∧
  ∃ st1 st2,
    filter_sources scenario_loaded = Ok st1 ∧ filter_headers st1 = Ok st2 ∧
    commands_inc st2 = commands_inc st1 ∧ commands_exc st2 = commands_exc st1 ∧
    (∀ r, r ∈ commands_exc st2 → store st2 !! r = store scenario_loaded !! r) ∧
    map_result (deref st2) (commands_exc st2)
    = map_result (deref scenario_loaded) (commands_exc st2) ∧
    (∀ r obj, r ∈ commands_inc st2 → store scenario_loaded !! r = Some obj →
       ∃ obj', store st2 !! r = Some obj' ∧
               ∀ k, k ≠ $"command" → py.getitem obj' k = py.getitem obj k).
Proof.
  split; [reflexivity|]. split; [reflexivity|].
  destruct (rewrite_touches_only_included_commands scenario_loaded eq_refl eq_refl)
    as [Hframe Hreturn].
  destruct Hreturn as (st1 & st2 & H1 & H2);
    [apply (bool_decide_unpack _); reflexivity | reflexivity | reflexivity |].
  exists st1, st2. split; [exact H1|]. split; [exact H2|].
  exact (Hframe st1 st2 H1 H2).
Defined.

(** ** Include paths that continue an excluded path *)

Lemma header_include_cons (p : str) : header_include p = "-"%char :: "I"%char :: p.
Proof. done. Qed.

Lemma replace_flag_unfold (p s : str) :
  pystr.replace (header_include p) (header_system p) s
  = pystr.replace_from (header_include p) (header_system p) 0 s.
Proof. done. Qed.

(** C10. The rewrite is a substitution of text: a flag [-I<path>] is
    replaced also where the command goes on after it, so [-I<path>2], the
    flag of another directory, becomes [-isystem <path>2], for every
    [path_relative] and every fragment; and the substitution goes on in the
    text that follows.  In a run from [/proj] with [vendor] excluded, the
    included entry compiled with [-I/proj/vendor2] is written with
    [-isystem /proj/vendor2]. *)
Theorem longer_include_path_rewritten :
  (∀ rel e tail,
     let p := posixpath.join rel e in
     rewrite_command rel [e] (header_include p ++ tail)
     = header_system p ++ pystr.replace (header_include p) (header_system p) tail) ∧
  (∀ rel e,
     let p := posixpath.join rel e in
     rewrite_command rel [e] (header_include p ++ $"2") = header_system p ++ $"2") ∧
  (∃ st1 st2,
     filter_sources vendor2_loaded = Ok st1 ∧ filter_headers st1 = Ok st2 ∧
     commands_inc st2 = [0] ∧
     store vendor2_loaded !! 0 ≫= command_of = Some $"g++ -I/proj/vendor2 -c /proj/src/main.cpp" ∧
     store st2 !! 0 ≫= command_of = Some $"g++ -isystem /proj/vendor2 -c /proj/src/main.cpp").
Proof.
  assert (Hgen : ∀ rel e tail,
     let p := posixpath.join rel e in
     rewrite_command rel [e] (header_include p ++ tail)
     = header_system p ++ pystr.replace (header_include p) (header_system p) tail).
  { intros rel e tail p. unfold rewrite_command. cbn [fold_left]. fold p.
    unfold rewrite_flag.
    pose proof (contains_intro (header_include p) [] tail) as Hin.
    rewrite app_nil_l in Hin. rewrite Hin.
    rewrite !replace_flag_unfold, replace_from_hit.
    - by rewrite drop_app_length.
    - by rewrite header_include_cons.
    - apply startswith_app. }
  split; [exact Hgen|]. split.
  - intros rel e p. unfold p. rewrite Hgen. f_equal.
  - eexists _, _. split; [vm_compute; reflexivity|]. split; [vm_compute; reflexivity|].
    repeat split; reflexivity.
Qed.

(** * The flags in a command *)

Section flag_occurs.
Import pystr.

Lemma replace_flag_changes (p s : str) :
  contains (header_include p) s = true →
  replace_from (header_include p) (header_system p) 0 s ≠ s.
Proof.
  induction s as [|c s IH]; [by rewrite header_include_cons|].
  rewrite contains_cons. destruct (startswith (header_include p) (c :: s)) eqn:Hstart.
  - intros _. rewrite replace_from_hit by (done || by rewrite header_include_cons).
    apply startswith_inv in Hstart as [t Ht]. rewrite Ht at 2.
    rewrite header_include_cons. unfold header_system. cbn. discriminate.
  - cbn [orb]. intros Hin. rewrite replace_from_miss by done.
    intros [= Heq]. by apply IH.
Qed.

Lemma rewrite_flag_changes (p s : str) :
  rewrite_flag p s = s ↔ contains (header_include p) s = false.
Proof.
  unfold rewrite_flag. destruct (contains _ s) eqn:Hin; [|done].
  split; [|done]. intros H. by apply replace_flag_changes in H.
Qed.
End flag_occurs.

Lemma rewrite_flag_replace (p s : str) :
  rewrite_flag p s = pystr.replace (header_include p) (header_system p) s.
Proof.
  unfold rewrite_flag. destruct (pystr.contains _ s) eqn:E; [done|].
  by rewrite replace_absent.
Qed.

(** * Commands as pieces between the flags of a common beginning *)

Section overlaps.
Import pystr.

Lemma startswith_length (p s : str) : startswith p s = true → length p ≤ length s.
Proof. intros [t ->]%startswith_inv. rewrite length_app. lia. Qed.

Lemma contains_length (p s : str) : contains p s = true → length p ≤ length s.
Proof. intros (a & b & ->)%contains_inv. rewrite !length_app. lia. Qed.

Lemma startswith_contains (p s : str) : startswith p s = true → contains p s = true.
Proof. intros H. destruct s; simpl; by rewrite H. Qed.

Lemma startswith_app_inv (x y s : str) : startswith (x ++ y) s = true → startswith x s = true.
Proof. intros [t ->]%startswith_inv. rewrite <- app_assoc. apply startswith_app. Qed.

(** A beginning of [b ++ t] lies in [b] or goes on into [t]. *)
Lemma startswith_straddle (x b t : str) :
  startswith x (b ++ t) = true →
  startswith x b = true ∨ ∃ v, v ≠ [] ∧ x = b ++ v ∧ startswith v t = true.
Proof.
  revert x. induction b as [|a b IH]; intros x H.
  - destruct x as [|a' x]; [by left|]. right. by exists (a' :: x).
  - destruct x as [|a' x]; [by left|].
    simpl app in H. rewrite startswith_cons in H.
    apply andb_true_iff in H as [->%bool_decide_eq_true H].
    destruct (IH x H) as [Hb|(v & Hv & -> & Ht)].
    + left. rewrite startswith_cons, Hb. by rewrite bool_decide_eq_true_2.
    + right. by exists v.
Qed.

(** Of two beginnings of a string the shorter begins the longer. *)
Lemma startswith_shorter (v m t : str) :
  startswith v t = true → startswith m t = true → length v ≤ length m →
  startswith v m = true.
Proof.
  revert m t. induction v as [|a v IH]; intros m t Hv Hm Hlen; [done|].
  destruct m as [|b m]; [simpl in Hlen; lia|].
  destruct t as [|x t]; [done|].
  rewrite startswith_cons in Hv, Hm. rewrite startswith_cons.
  apply andb_true_iff in Hv as [->%bool_decide_eq_true Hv].
  apply andb_true_iff in Hm as [->%bool_decide_eq_true Hm].
  rewrite bool_decide_eq_true_2 by done. simpl in Hlen. apply (IH m t); [done..|lia].
Qed.

Lemma ends_into_intro (a v m : str) :
  v ≠ [] → startswith v m = true → ends_into (a ++ v) m = true.
Proof.
  intros Hv H. induction a as [|x a IH].
  - destruct v as [|y v]; [done|]. simpl app. cbn [ends_into]. by rewrite H.
  - simpl app. cbn [ends_into]. rewrite IH. apply orb_true_r.
Qed.

Lemma ends_into_inv (p m : str) :
  ends_into p m = true → ∃ a v, p = a ++ v ∧ v ≠ [] ∧ startswith v m = true.
Proof.
  induction p as [|x p IH]; [done|]. cbn [ends_into].
  intros [H|H]%orb_true_iff.
  - by exists [], (x :: p).
  - destruct (IH H) as (a & v & -> & Hv & Hm). by exists (x :: a), v.
Qed.
End overlaps.

Section flags.
Import pystr.
Variable c : str.
Hypothesis Hc : flags_apart c c = true.

Lemma flags_apart_inv (p : str) :
  flags_apart c p = true →
  startswith c p = true ∧
  (∀ system, contains (flag c system) p = false) ∧
  (∀ system, ends_into p (flag c system) = false).
Proof.
  unfold flags_apart. rewrite !andb_true_iff, !negb_true_iff.
  intros ((((H1 & H2) & H3) & H4) & H5).
  split; [done|]. split; by intros [|].
Qed.

Lemma flag_length (system : bool) : length c < length (flag c system).
Proof.
  destruct system; unfold flag, header_include, header_system;
    rewrite length_app; simpl; lia.
Qed.

(** No flag begins with a non-empty ending of a path that keeps apart. *)
Lemma ending_no_flag (p a v : str) (system : bool) :
  flags_apart c p = true → p = a ++ v → v ≠ [] → startswith v (flag c system) = false.
Proof.
  intros (_ & _ & H)%flags_apart_inv -> Hv.
  apply not_true_iff_false. intros Hm.
  pose proof (ends_into_intro a v _ Hv Hm) as E. by rewrite H in E.
Qed.

(** No flag begins inside the ending of such a path, whatever follows. *)
Lemma flag_not_in_ending (p a b w : str) (system : bool) :
  flags_apart c p = true → p = a ++ b → b ≠ [] →
  startswith (flag c system) (b ++ w) = false.
Proof.
  intros Hp -> Hb. apply not_true_iff_false. intros H.
  destruct (startswith_straddle _ _ _ H) as [Hin|(v & Hv & Hsplit & _)].
  - apply startswith_contains, (contains_app_r _ a) in Hin.
    destruct (flags_apart_inv _ Hp) as (_ & Hno & _). by rewrite Hno in Hin.
  - pose proof (startswith_app b v) as Hbm. rewrite <- Hsplit in Hbm.
    by rewrite (ending_no_flag _ a b system Hp eq_refl Hb) in Hbm.
Qed.

Lemma flag_headed_inv (t : str) :
  flag_headed c t = true → t = [] ∨ ∃ system, startswith (flag c system) t = true.
Proof.
  unfold flag_headed. intros [[H|H]%orb_true_iff|H]%orb_true_iff.
  - left. by apply bool_decide_eq_true in H.
  - right. by exists false.
  - right. by exists true.
Qed.

Lemma render_flags_cons (b : bool) (w : str) (pieces : list (bool * str)) :
  render_flags c ((b, w) :: pieces) = flag c b ++ w ++ render_flags c pieces.
Proof. unfold render_flags. cbn [flat_map fst snd]. by rewrite <- app_assoc. Qed.

Lemma flag_headed_render (pieces : list (bool * str)) :
  flag_headed c (render_flags c pieces) = true.
Proof.
  destruct pieces as [|[b w] pieces]; [done|].
  rewrite render_flags_cons. unfold flag_headed.
  destruct b; cbn [flag]; rewrite startswith_app; by rewrite ?orb_true_r.
Qed.

(** A path that keeps apart does not run past the end of a piece. *)
Lemma startswith_flag_piece (q w t : str) :
  flags_apart c (c ++ q) = true → flag_headed c t = true →
  startswith q (w ++ t) = startswith q w.
Proof.
  intros Hp Ht. destruct (startswith q w) eqn:E.
  - apply startswith_inv in E as [w' ->]. rewrite <- app_assoc. apply startswith_app.
  - apply not_true_iff_false. intros H.
    destruct (startswith_straddle _ _ _ H) as [Hin|(v & Hv & -> & Hvt)]; [congruence|].
    destruct (flag_headed_inv t Ht) as [->|[system Hm]];
      [by apply startswith_nil_r in Hvt|].
    destruct (decide (length v ≤ length (flag c system))) as [Hlen|Hlen].
    + pose proof (startswith_shorter _ _ _ Hvt Hm Hlen) as Hvm.
      rewrite (ending_no_flag (c ++ w ++ v) (c ++ w) v system) in Hvm;
        [done | done | by rewrite <- app_assoc | done].
    + assert (Hmv : startswith (flag c system) v = true)
        by (apply (startswith_shorter _ _ t); [done..|lia]).
      apply startswith_contains, (contains_app_r _ (c ++ w)) in Hmv.
      rewrite <- app_assoc in Hmv.
      destruct (flags_apart_inv _ Hp) as (_ & Hno & _). by rewrite Hno in Hmv.
Qed.

(** No plain-include flag of a path begins inside a stretch without the
    plain flag of [c] that a piece follows. *)
Lemma no_flag_begins (q u t : str) :
  flag_free c u = true → flag_headed c t = true →
  ∀ a b, u = a ++ b → b ≠ [] → startswith (header_include (c ++ q)) (b ++ t) = false.
Proof.
  intros Hu Ht a b -> Hb. apply not_true_iff_false. intros H.
  assert (HP : startswith (header_include c) (b ++ t) = true).
  { unfold header_include in *. rewrite app_assoc in H. by apply startswith_app_inv in H. }
  destruct (startswith_straddle _ _ _ HP) as [Hin|(v & Hv & Hsplit & Hvt)].
  - apply startswith_contains, (contains_app_r _ a) in Hin.
    unfold flag_free in Hu. by rewrite Hin in Hu.
  - destruct (flag_headed_inv t Ht) as [->|[system Hm]];
      [by apply startswith_nil_r in Hvt|].
    change (header_include c) with (dash :: upper_i :: c) in Hsplit.
    destruct b as [|x [|y b]]; [done| |].
    + injection Hsplit as _ <-.
      destruct t as [|z t]; [done|]. rewrite startswith_cons in Hvt.
      apply andb_true_iff in Hvt as [<-%bool_decide_eq_true _].
      by destruct system.
    + injection Hsplit as _ _ Hcv.
      assert (Hvm : startswith v (flag c system) = true).
      { apply (startswith_shorter _ _ t); [done..|].
        pose proof (flag_length system) as Hlen.
        apply (f_equal length) in Hcv as Hl. rewrite length_app in Hl. lia. }
      by rewrite (ending_no_flag c b v system Hc Hcv Hv) in Hvm.
Qed.

Lemma flag_free_app_r (a b : str) : flag_free c (a ++ b) = true → flag_free c b = true.
Proof.
  unfold flag_free. rewrite !negb_true_iff. induction a as [|x a IH]; [done|].
  intros H. apply IH. by eapply contains_false_cons.
Qed.

(** The ending of a flag brings no new plain flag. *)
Lemma flag_free_ending (a b w : str) :
  c = a ++ b → flag_free c w = true → flag_free c (b ++ w) = true.
Proof.
  intros Hab Hw. unfold flag_free in *. rewrite contains_copy; [done|].
  intros a' b' -> Hb'. apply (flag_not_in_ending c (a ++ a') b' w false Hc); [|done].
  by rewrite <- app_assoc.
Qed.

Lemma flag_free_plain (w : str) :
  flag_free c w = true → flag_free c (upper_i :: c ++ w) = true.
Proof.
  intros Hw. apply (flag_free_ending [] c w eq_refl) in Hw.
  unfold flag_free in *. by rewrite contains_cons.
Qed.

Lemma flag_free_system (w : str) :
  flag_free c w = true → flag_free c (flag c true ++ w) = true.
Proof.
  intros Hw. apply (flag_free_ending [] c w eq_refl) in Hw.
  unfold flag_free, flag, header_system, header_include in *.
  rewrite <- app_assoc. simpl. exact Hw.
Qed.

Lemma plain_piece (w t : str) :
  flag c false ++ w ++ t = dash :: (upper_i :: c ++ w) ++ t.
Proof. unfold flag, header_include. simpl. by rewrite <- app_assoc. Qed.

(** The scan of [replace] over the pieces: a plain piece that goes on with
    the rest of the path becomes a system piece, the others are copied. *)
Lemma replace_flags (q : str) (pieces : list (bool * str)) :
  flags_apart c (c ++ q) = true →
  Forall (λ piece, flag_free c piece.2 = true) pieces →
  replace_from (header_include (c ++ q)) (header_system (c ++ q)) 0 (render_flags c pieces)
  = render_flags c (map (mark_flag c (c ++ q)) pieces).
Proof.
  intros Hp. induction 1 as [|[b w] pieces Hw Hall IH]; [done|].
  cbn [map]. unfold mark_flag at 1. cbn [fst snd] in *. rewrite drop_app_length.
  rewrite !render_flags_cons.
  pose proof (flag_headed_render pieces) as Ht.
  destruct b.
  - (* a system piece is copied *)
    cbn [orb]. rewrite app_assoc, replace_from_copy.
    + by rewrite IH, <- app_assoc.
    + apply no_flag_begins; [by apply flag_free_system | done].
  - cbn [orb]. destruct (startswith q w) eqn:Hqw.
    + (* the flag is found at the piece *)
      apply startswith_inv in Hqw as [w' ->].
      replace (flag c false ++ (q ++ w') ++ render_flags c pieces)
        with (header_include (c ++ q) ++ w' ++ render_flags c pieces)
        by (unfold flag, header_include; by rewrite <- !app_assoc).
      rewrite replace_from_hit; [|done|apply startswith_app].
      rewrite drop_app_length, replace_from_copy.
      * rewrite IH. unfold flag, header_system. by rewrite <- !app_assoc.
      * apply no_flag_begins; [|done]. by apply flag_free_app_r in Hw.
    + (* the piece begins no flag of this path *)
      rewrite (plain_piece w (render_flags c pieces)).
      rewrite replace_from_miss.
      * rewrite replace_from_copy; [by rewrite IH, plain_piece|].
        apply no_flag_begins; [by apply flag_free_plain | done].
      * rewrite <- (plain_piece w (render_flags c pieces)).
        unfold flag, header_include. rewrite <- !app_assoc, !startswith_app_l.
        rewrite startswith_flag_piece by done. exact Hqw.
Qed.

Lemma rewrite_flag_flags (q head : str) (pieces : list (bool * str)) :
  flags_apart c (c ++ q) = true → flag_free c head = true →
  Forall (λ piece, flag_free c piece.2 = true) pieces →
  rewrite_flag (c ++ q) (head ++ render_flags c pieces)
  = head ++ render_flags c (map (mark_flag c (c ++ q)) pieces).
Proof.
  intros Hp Hhead Hall. rewrite rewrite_flag_replace, replace_flag_unfold.
  rewrite replace_from_copy.
  - by rewrite replace_flags.
  - apply no_flag_begins; [done | apply flag_headed_render].
Qed.

(** The flags of a path that occur in a command are its plain pieces that go
    on with the rest of the path. *)
Lemma contains_flags (q head : str) (pieces : list (bool * str)) :
  flags_apart c (c ++ q) = true → flag_free c head = true →
  Forall (λ piece, flag_free c piece.2 = true) pieces →
  contains (header_include (c ++ q)) (head ++ render_flags c pieces)
  = existsb (λ piece, negb piece.1 && startswith q piece.2) pieces.
Proof.
  intros Hp Hhead Hall.
  rewrite contains_copy by (apply no_flag_begins; [done | apply flag_headed_render]).
  clear Hhead. induction Hall as [|[b w] pieces Hw Hall IH].
  - by rewrite header_include_cons.
  - cbn [existsb fst snd] in *. rewrite render_flags_cons.
    pose proof (flag_headed_render pieces) as Ht.
    destruct b; cbn [negb andb orb].
    + rewrite app_assoc, contains_copy; [done|].
      apply no_flag_begins; [by apply flag_free_system | done].
    + rewrite (plain_piece w (render_flags c pieces)).
      rewrite contains_cons. f_equal.
      * rewrite <- (plain_piece w (render_flags c pieces)).
        unfold flag, header_include. rewrite <- !app_assoc, !startswith_app_l.
        by rewrite startswith_flag_piece.
      * rewrite contains_copy; [done|].
        apply no_flag_begins; [by apply flag_free_plain | done].
Qed.

(** A system piece that goes on with the rest of the path shows the system
    flag of the path. *)
Lemma contains_system_flag (q w head : str) (pieces : list (bool * str)) :
  (true, w) ∈ pieces → startswith q w = true →
  contains (header_system (c ++ q)) (head ++ render_flags c pieces) = true.
Proof.
  intros Hin [w' ->]%startswith_inv. apply contains_app_r.
  induction pieces as [|[b v] pieces IH]; [by apply elem_of_nil in Hin|].
  rewrite render_flags_cons. apply elem_of_cons in Hin as [[= <- <-]|Hin].
  - replace (flag c true ++ (q ++ w') ++ render_flags c pieces)
      with ([] ++ header_system (c ++ q) ++ w' ++ render_flags c pieces)
      by (unfold flag, header_system; by rewrite <- !app_assoc).
    apply contains_intro.
  - rewrite app_assoc. apply contains_app_r. by apply IH.
Qed.

Lemma mark_flag_free (p : str) (pieces : list (bool * str)) :
  Forall (λ piece, flag_free c piece.2 = true) pieces →
  Forall (λ piece, flag_free c piece.2 = true) (map (mark_flag c p) pieces).
Proof. intros H. apply Forall_map. by eapply Forall_impl. Qed.

Lemma settle_flags_free (rel : str) (excl : list str) (pieces : list (bool * str)) :
  Forall (λ piece, flag_free c piece.2 = true) pieces →
  Forall (λ piece, flag_free c piece.2 = true) (map (settle_flags c rel excl) pieces).
Proof. intros H. apply Forall_map. by eapply Forall_impl. Qed.

Lemma flags_apart_path (p : str) :
  flags_apart c p = true → p = c ++ drop (length c) p.
Proof.
  intros (Hcp & _)%flags_apart_inv. apply startswith_inv in Hcp as [q ->].
  by rewrite drop_app_length.
Qed.

(** All fragments in turn: a piece ends as a system piece when it was one or
    goes on with the rest of the path of some fragment. *)
Lemma rewrite_command_flags (rel : str) (excl : list str) (head : str)
    (pieces : list (bool * str)) :
  forallb (flags_apart c) (map (posixpath.join rel) excl) = true →
  flag_free c head = true →
  Forall (λ piece, flag_free c piece.2 = true) pieces →
  rewrite_command rel excl (head ++ render_flags c pieces)
  = head ++ render_flags c (map (settle_flags c rel excl) pieces).
Proof.
  intros Hapart Hhead. revert pieces.
  induction excl as [|e excl IH]; intros pieces Hall.
  - cbn [rewrite_command fold_left]. f_equal. f_equal.
    rewrite <- (map_id pieces) at 1. apply map_ext. intros [b w].
    unfold settle_flags. simpl. by rewrite orb_false_r.
  - cbn [map forallb] in Hapart. apply andb_true_iff in Hapart as [He Hapart].
    rewrite rewrite_command_cons.
    rewrite (flags_apart_path _ He) at 1. rewrite rewrite_flag_flags;
      [|by rewrite <- flags_apart_path|done..].
    rewrite <- flags_apart_path by done.
    rewrite IH by (done || by apply mark_flag_free).
    f_equal. f_equal. rewrite map_map. apply map_ext. intros [b w].
    unfold settle_flags, mark_flag. cbn [fst snd existsb]. by rewrite orb_assoc.
Qed.

Lemma settle_flags_idemp (rel : str) (excl : list str) (piece : bool * str) :
  settle_flags c rel excl (settle_flags c rel excl piece) = settle_flags c rel excl piece.
Proof.
  destruct piece as [b w]. unfold settle_flags. cbn [fst snd]. f_equal.
  by destruct b, (existsb _ excl).
Qed.

Lemma cut_flags_render (s : str) :
  s = (cut_flags c s).1 ++ render_flags c (map (pair false) (cut_flags c s).2).
Proof.
  induction s as [|x s IH]; [done|].
  cbn [cut_flags]. destruct (cut_flags c s) as [w ws]. cbn [fst snd] in IH.
  destruct (startswith (header_include c) (x :: w)) eqn:E; cbn [fst snd].
  - apply startswith_inv in E as [t E]. rewrite E, drop_app_length.
    cbn [map]. rewrite render_flags_cons. cbn [flag app].
    rewrite IH at 1. by rewrite app_comm_cons, E, <- app_assoc.
  - by rewrite IH at 1.
Qed.

Lemma cut_flags_free (s : str) :
  flag_free c (cut_flags c s).1 = true
  ∧ Forall (λ w, flag_free c w = true) (cut_flags c s).2.
Proof.
  induction s as [|x s IH]; [by split|].
  cbn [cut_flags]. destruct (cut_flags c s) as [w ws]. cbn [fst snd] in IH.
  destruct IH as [Hw Hws].
  destruct (startswith (header_include c) (x :: w)) eqn:E; cbn [fst snd].
  - split; [done|]. constructor; [|done].
    apply startswith_inv in E as [t E]. rewrite E, drop_app_length.
    rewrite header_include_cons in E. injection E as _ E. rewrite E in Hw.
    by apply (flag_free_app_r (upper_i :: c)) in Hw.
  - split; [|done]. unfold flag_free in *. by rewrite contains_cons, E.
Qed.

(** Every command is a head and plain pieces without the plain flag inside. *)
Lemma command_flags (s : str) :
  ∃ head pieces, s = head ++ render_flags c pieces ∧ flag_free c head = true ∧
                 Forall (λ piece, flag_free c piece.2 = true) pieces.
Proof.
  exists (cut_flags c s).1, (map (pair false) (cut_flags c s).2).
  split; [apply cut_flags_render|]. destruct (cut_flags_free s) as [H1 H2].
  split; [done|]. apply Forall_map. by eapply Forall_impl.
Qed.

Lemma settle_flags_system (rel : str) (excl : list str) (e w : str) (b : bool) :
  e ∈ excl → startswith (drop (length c) (posixpath.join rel e)) w = true →
  settle_flags c rel excl (b, w) = (true, w).
Proof.
  intros He Hw. unfold settle_flags. cbn [fst snd]. f_equal.
  rewrite orb_true_iff. right. apply existsb_exists.
  exists e. split; [by apply list_elem_of_In | done].
Qed.

(** On paths that keep apart, a flag found in the command is a system flag
    afterwards and is found no more. *)
Lemma rewrite_command_apart (rel : str) (excl : list str) (e s : str) :
  forallb (flags_apart c) (map (posixpath.join rel) excl) = true → e ∈ excl →
  contains (header_include (posixpath.join rel e)) s = true →
  contains (header_system (posixpath.join rel e)) (rewrite_command rel excl s) = true ∧
  contains (header_include (posixpath.join rel e)) (rewrite_command rel excl s) = false.
Proof.
  intros Hapart He Hin.
  assert (Hp : flags_apart c (posixpath.join rel e) = true).
  { rewrite forallb_forall in Hapart. apply Hapart, in_map. by apply list_elem_of_In. }
  destruct (command_flags s) as (head & pieces & -> & Hhead & Hall).
  rewrite rewrite_command_flags by done.
  pose proof (flags_apart_path _ Hp) as Hq.
  set (q := drop (length c) (posixpath.join rel e)) in *.
  rewrite Hq in Hin, Hp |- *.
  rewrite contains_flags in Hin by done.
  rewrite contains_flags by (done || by apply settle_flags_free).
  apply existsb_exists in Hin as ([b w] & Hbw & Hstart). cbn [fst snd] in Hstart.
  apply andb_true_iff in Hstart as [_ Hstart].
  split.
  - apply (contains_system_flag _ w); [|done].
    apply list_elem_of_In in Hbw.
    apply (list_elem_of_fmap_2 (settle_flags c rel excl)) in Hbw.
    by rewrite (settle_flags_system _ _ e) in Hbw.
  - apply not_true_iff_false. intros ([b' w'] & Hin' & Hst)%existsb_exists.
    apply in_map_iff in Hin' as ([b0 w0] & Heq & _).
    cbn [fst snd] in Hst. apply andb_true_iff in Hst as [Hplain Hst].
    unfold settle_flags in Heq. cbn [fst snd] in Heq. injection Heq as Hb <-.
    rewrite <- Hb in Hplain. apply negb_true_iff, orb_false_iff in Hplain as [_ Hnone].
    assert (Hsome : existsb (λ e0, startswith (drop (length c) (posixpath.join rel e0)) w0)
                      excl = true).
    { apply existsb_exists. exists e. split; [by apply list_elem_of_In | done]. }
    congruence.
Qed.

Lemma rewrite_command_settled (rel : str) (excl : list str) (s : str) :
  forallb (flags_apart c) (map (posixpath.join rel) excl) = true →
  rewrite_command rel excl (rewrite_command rel excl s) = rewrite_command rel excl s.
Proof.
  intros Hapart.
  destruct (command_flags s) as (head & pieces & -> & Hhead & Hall).
  rewrite !rewrite_command_flags by (done || by apply settle_flags_free).
  f_equal. f_equal. rewrite map_map. apply map_ext. intros piece. apply settle_flags_idemp.
Qed.
End flags.

(** Paths in which no [-] is followed by [I] or [i] keep apart from the
    flags of the empty beginning, [-I] and [-isystem ]. *)
Section safe_paths.
Import pystr.

Lemma flag_safe_cons (x : ascii) (p : str) : flag_safe (x :: p) = true → flag_safe p = true.
Proof. cbn [flag_safe]. by intros [_ ?]%andb_true_iff. Qed.

Lemma flag_safe_start (x y : ascii) (p m : str) :
  flag_safe (x :: p) = true → y = upper_i ∨ y = lower_i →
  startswith (dash :: y :: m) (x :: p) = false ∧ startswith (x :: p) (dash :: y :: m) = false.
Proof.
  cbn [flag_safe]. intros [Hx _]%andb_true_iff Hy. rewrite !startswith_cons.
  destruct (decide (x = dash)) as [->|Hne].
  - rewrite bool_decide_eq_true_2 in Hx by done. rewrite bool_decide_eq_true_2 by done.
    destruct p as [|d p]; [done|].
    apply andb_true_iff in Hx as [H1%negb_true_iff%bool_decide_eq_false
                                  H2%negb_true_iff%bool_decide_eq_false].
    rewrite !startswith_cons.
    assert (Hd : d ≠ y) by (by destruct Hy as [->| ->]).
    rewrite (bool_decide_eq_false_2 (d = y)) by done.
    rewrite (bool_decide_eq_false_2 (y = d)) by (by intros ->). done.
  - rewrite (bool_decide_eq_false_2 (x = dash)) by done.
    rewrite (bool_decide_eq_false_2 (dash = x)) by (by intros <-). done.
Qed.

Lemma flag_safe_contains (y : ascii) (p m : str) :
  flag_safe p = true → y = upper_i ∨ y = lower_i → contains (dash :: y :: m) p = false.
Proof.
  intros Hp Hy. induction p as [|x p IH]; [done|].
  rewrite contains_cons. destruct (flag_safe_start x y p m Hp Hy) as [-> _].
  apply IH. by eapply flag_safe_cons.
Qed.

Lemma flag_safe_ends (y : ascii) (p m : str) :
  flag_safe p = true → y = upper_i ∨ y = lower_i → ends_into p (dash :: y :: m) = false.
Proof.
  intros Hp Hy. induction p as [|x p IH]; [done|].
  cbn [ends_into]. destruct (flag_safe_start x y p m Hp Hy) as [_ ->].
  apply IH. by eapply flag_safe_cons.
Qed.

Lemma flag_safe_apart (p : str) : flag_safe p = true → flags_apart [] p = true.
Proof.
  intros Hp. unfold flags_apart.
  change (header_include []) with (dash :: upper_i :: []).
  change (header_system []) with (dash :: lower_i :: $"system ").
  rewrite !flag_safe_contains, !flag_safe_ends by auto. done.
Qed.

Lemma flag_safe_all_apart (paths : list str) :
  forallb flag_safe paths = true → forallb (flags_apart []) paths = true.
Proof.
  rewrite !forallb_forall. intros H p Hp. by apply flag_safe_apart, H.
Qed.
End safe_paths.

(** ** The flags after the rewrite *)

(** C6, amended.  When the exclusion paths keep apart from the flags of a
    common beginning [c] (the empty string, [path_relative], or the path
    itself when there is one fragment), that is, when [c] begins every
    exclusion path and neither [c] nor any exclusion path contains [-I<c>] or
    [-isystem <c>] or ends with a non-empty beginning of one of them, the
    rewrite of a command string is idempotent: after one rewrite no
    plain-include flag of an excluded directory is left, and a second rewrite
    returns the same string. *)
Theorem rewrite_idempotent (c rel : str) (excl : list str) (s : str) :
  forallb (flags_apart c) (c :: map (posixpath.join rel) excl) = true →
  rewrite_command rel excl (rewrite_command rel excl s) = rewrite_command rel excl s.
Proof.
  intros Hapart. cbn [forallb] in Hapart. apply andb_true_iff in Hapart as [Hc Hapart].
  destruct (command_flags c s) as (head & pieces & -> & Hhead & Hall).
  rewrite !(rewrite_command_flags c Hc) by (done || by apply settle_flags_free).
  f_equal. f_equal. rewrite map_map. apply map_ext. intros piece.
  apply settle_flags_idemp.
Qed.

Lemma rewrite_idempotent_witness :
  forallb (flags_apart $"/proj")
    ($"/proj" :: map (posixpath.join $"/proj") [ $"third-party-impl"; $"vendor" ]) = true ∧
  rewrite_command $"/proj" [ $"third-party-impl"; $"vendor" ]
    (rewrite_command $"/proj" [ $"third-party-impl"; $"vendor" ]
       $"g++ -I/proj/vendor -I/proj/third-party-impl -c /proj/src/main.cpp")
  = rewrite_command $"/proj" [ $"third-party-impl"; $"vendor" ]
      $"g++ -I/proj/vendor -I/proj/third-party-impl -c /proj/src/main.cpp".
Proof.
  split; [reflexivity|].
  apply (rewrite_idempotent $"/proj" $"/proj" [ $"third-party-impl"; $"vendor" ]).
  reflexivity.
Defined.

(** C6 as stated fails: with the excluded directory [/p/third-i], the first
    rewrite of a command that includes [/p/third-I/p/third-i] puts the new
    flag right after [-I/p/third], which makes a plain-include flag of the
    excluded directory that the second rewrite replaces. *)
Lemma rewrite_not_idempotent :
  rewrite_command $"/p" [ $"third-i" ] dashed_command
    = $"g++ -I/p/third-isystem /p/third-i -c /p/src/main.cpp" ∧
  rewrite_command $"/p" [ $"third-i" ] (rewrite_command $"/p" [ $"third-i" ] dashed_command)
    = $"g++ -isystem /p/third-isystem /p/third-i -c /p/src/main.cpp" ∧
  rewrite_command $"/p" [ $"third-i" ] (rewrite_command $"/p" [ $"third-i" ] dashed_command)
    ≠ rewrite_command $"/p" [ $"third-i" ] dashed_command.
Proof.
  split; [vm_compute; reflexivity|]. split; [vm_compute; reflexivity|].
  vm_compute. discriminate.
Qed.

(** C4, amended.  For distinct included entries that hold string commands,
    when the exclusion paths keep apart from the flags of a common beginning
    [c], the stage returns, and for every included entry and every exclusion
    path whose plain-include flag occurs in the command of the entry, the
    command after the stage contains the system-include flag of that path and
    no longer contains its plain-include flag. *)
Theorem include_flag_replaced (st : state) (c : str) :
  NoDup (commands_inc st) →
  forallb (has_command st) (commands_inc st) = true →
  forallb (flags_apart c) (c :: exclude_paths st) = true →
  ∃ st', filter_headers st = Ok st' ∧
    ∀ r obj s p,
      r ∈ commands_inc st → p ∈ exclude_paths st →
      store st !! r = Some obj → command_of obj = Some s →
      pystr.contains (header_include p) s = true →
      ∃ obj' s', store st' !! r = Some obj' ∧ command_of obj' = Some s' ∧
                 pystr.contains (header_system p) s' = true ∧
                 pystr.contains (header_include p) s' = false.
Proof.
  intros Hnd Hcmd Hapart.
  cbn [forallb] in Hapart. apply andb_true_iff in Hapart as [Hc Hapart].
  destruct (filter_headers_str st) as (st' & Hrun & _ & Hall); [done | |].
  { intros r Hr. rewrite forallb_forall in Hcmd. apply (Hcmd r). by apply list_elem_of_In. }
  exists st'. split; [done|].
  intros r obj s p Hr Hp Hobj Hs Hin.
  destruct (Hall r obj s Hr Hobj Hs) as (obj' & Hobj' & Hs' & _).
  exists obj', (rewritten st s). split; [done|]. split; [done|].
  unfold exclude_paths in Hp. apply list_elem_of_fmap in Hp as (e & -> & He).
  by apply (rewrite_command_apart c Hc).
Qed.

Lemma include_flag_replaced_witness :
  forallb (has_command scenario_partitioned) (commands_inc scenario_partitioned) = true ∧
  forallb (flags_apart $"/proj") ($"/proj" :: exclude_paths scenario_partitioned) = true ∧
  ∃ st', filter_headers scenario_partitioned = Ok st' ∧
    ∀ r obj s p,
      r ∈ [0] → p ∈ [ $"/proj/vendor" ] →
      store scenario_partitioned !! r = Some obj → command_of obj = Some s →
      pystr.contains (header_include p) s = true →
      ∃ obj' s', store st' !! r = Some obj' ∧ command_of obj' = Some s' ∧
                 pystr.contains (header_system p) s' = true ∧
                 pystr.contains (header_include p) s' = false.
Proof.
  split; [reflexivity|]. split; [reflexivity|].
  apply (include_flag_replaced scenario_partitioned $"/proj"); try reflexivity.
  apply (bool_decide_unpack _). reflexivity.
Defined.

(** C4 as stated fails: the included entry's command contains the flag
    [-I/p/third-i] of the excluded directory, and the command after the
    stage still contains it. *)
Lemma include_flag_still_present :
  ∃ st1 st2,
    filter_sources dashed_loaded = Ok st1 ∧ filter_headers st1 = Ok st2 ∧
    commands_inc st1 = [0] ∧ exclude_paths st1 = [ $"/p/third-i" ] ∧
    store st1 !! 0 ≫= command_of = Some dashed_command ∧
    pystr.contains (header_include $"/p/third-i") dashed_command = true ∧
    store st2 !! 0 ≫= command_of = Some $"g++ -I/p/third-isystem /p/third-i -c /p/src/main.cpp" ∧
    pystr.contains (header_include $"/p/third-i")
      $"g++ -I/p/third-isystem /p/third-i -c /p/src/main.cpp" = true.
Proof.
  eexists _, _. split; [vm_compute; reflexivity|]. split; [vm_compute; reflexivity|].
  repeat split; vm_compute; reflexivity.
Qed.

(** ** The condition on the paths is the exact one for a single rule *)

Section one_rule.
Import pystr.

Lemma contains_short (old y : str) : length y < length old → contains old y = false.
Proof. intros Hlen. apply not_true_iff_false. intros H%contains_length. lia. Qed.

Lemma startswith_refl (p : str) : startswith p p = true.
Proof. rewrite <- (app_nil_r p) at 2. apply startswith_app. Qed.

(** A proper ending of a flag that begins a flag of [p] is an ending of [p]. *)
Lemma flag_overlap (p b v m : str) :
  header_include p = b ++ v → b ≠ [] → v ≠ [] → startswith v (dash :: m) = true →
  ∃ a, p = a ++ v.
Proof.
  rewrite header_include_cons. intros Hsplit Hb Hv Hm.
  destruct b as [|x [|y b]]; [done| |].
  - injection Hsplit as _ <-. done.
  - injection Hsplit as _ _ ->. by exists b.
Qed.

(** A path that does not keep apart from its own flags has a command in
    which its plain flag occurs before the rewrite and after it. *)
Lemma own_flags_needed (p : str) :
  flags_apart p p = false →
  ∃ s, contains (header_include p) s = true ∧
       contains (header_include p) (rewrite_flag p s) = true.
Proof.
  intros Hp.
  assert (Hends : ends_into p (header_include p) = true ∨
                  (ends_into p (header_include p) = false ∧
                   ends_into p (header_system p) = true)).
  { unfold flags_apart in Hp. rewrite startswith_refl in Hp.
    rewrite !contains_short in Hp
      by (unfold header_include, header_system; rewrite length_app; simpl; lia).
    cbn [negb andb] in Hp.
    destruct (ends_into p (header_include p)); [by left|]. right.
    by destruct (ends_into p (header_system p)). }
  destruct Hends as [HA|[HA HB]].
  - (* the flag overlaps itself *)
    apply ends_into_inv in HA as (a & v & Hav & Hv & [y Hy]%startswith_inv).
    exists (header_include p ++ y). split; [apply (contains_intro _ [])|].
    rewrite rewrite_flag_replace, replace_flag_unfold.
    rewrite replace_from_hit; [|by rewrite header_include_cons|apply startswith_app].
    rewrite drop_app_length, <- replace_flag_unfold, replace_absent;
      [|by rewrite header_include_cons|].
    + replace (header_system p ++ y) with (($"-isystem " ++ a) ++ header_include p ++ [])
        by (rewrite app_nil_r, Hy; unfold header_system; rewrite Hav at 1;
            by rewrite <- !app_assoc).
      apply contains_intro.
    + apply contains_short. rewrite Hy, length_app. destruct v; [done|]. simpl. lia.
  - (* the end of the flag begins the system flag *)
    apply ends_into_inv in HB as (a & v & Hav & Hv & [z Hz]%startswith_inv).
    exists (($"-I" ++ a) ++ header_include p).
    split; [rewrite <- (app_nil_r (header_include p)) at 2; apply contains_intro|].
    rewrite rewrite_flag_replace, replace_flag_unfold.
    rewrite replace_from_copy.
    + rewrite <- (app_nil_r (header_include p)) at 3.
      rewrite replace_from_hit; [|by rewrite header_include_cons|apply startswith_app].
      rewrite drop_app_length. cbn [replace_from]. rewrite app_nil_r.
      replace (($"-I" ++ a) ++ header_system p) with ([] ++ header_include p ++ z)
        by (rewrite Hz; unfold header_include; rewrite Hav at 1; by rewrite <- !app_assoc).
      apply contains_intro.
    + intros a' b' Hx Hb'. apply not_true_iff_false. intros H.
      destruct (startswith_straddle _ _ _ H) as [Hin|(v' & Hv' & Hsplit & Hvm)].
      * apply startswith_length in Hin.
        apply (f_equal length) in Hx. unfold header_include in Hin.
        rewrite Hav, !length_app in *. destruct v; [done|]. simpl in *. lia.
      * destruct (flag_overlap p b' v' (upper_i :: p) Hsplit Hb' Hv' Hvm) as [a'' Ha''].
        pose proof (ends_into_intro a'' v' (header_include p) Hv' Hvm) as E.
        rewrite <- Ha'' in E. congruence.
Qed.

(** For one rule, the rewrite is idempotent on all commands exactly when the
    path keeps apart from its own flags. *)
Lemma one_rule_idempotent (rel e : str) :
  flags_apart (posixpath.join rel e) (posixpath.join rel e) = true
  ↔ ∀ s, rewrite_command rel [e] (rewrite_command rel [e] s) = rewrite_command rel [e] s.
Proof.
  split.
  - intros Hp s. apply (rewrite_command_settled _ Hp). cbn [map forallb]. by rewrite Hp.
  - intros Hidem. destruct (flags_apart _ _) eqn:Hp; [done|].
    destruct (own_flags_needed _ Hp) as (s & _ & Hin).
    specialize (Hidem s). rewrite !rewrite_command_cons in Hidem.
    cbn [rewrite_command fold_left] in Hidem.
    apply rewrite_flag_changes in Hidem. congruence.
Qed.

(** For one rule, the flag found in a command is always gone after the
    rewrite exactly when the path keeps apart from its own flags. *)
Lemma one_rule_flag_gone (rel e : str) :
  flags_apart (posixpath.join rel e) (posixpath.join rel e) = true
  ↔ ∀ s, contains (header_include (posixpath.join rel e)) s = true →
         contains (header_include (posixpath.join rel e)) (rewrite_command rel [e] s) = false.
Proof.
  split.
  - intros Hp s Hin. apply (rewrite_command_apart _ Hp); [|by left|done].
    cbn [map forallb]. by rewrite Hp.
  - intros Hgone. destruct (flags_apart _ _) eqn:Hp; [done|].
    destruct (own_flags_needed _ Hp) as (s & Hin & Hout).
    specialize (Hgone s Hin). cbn [rewrite_command fold_left] in Hgone. congruence.
Qed.
End one_rule.

Example keeps_apart_ex1 : flags_apart $"/proj" $"/proj/third-party-impl" = true.
Proof. reflexivity. Qed.
Example keeps_apart_ex2 : flags_apart [] $"/home/ci/my-ide/x-include" = true.
Proof. reflexivity. Qed.
Example keeps_apart_ex3 : flags_apart $"/proj" $"/proj/lib-Internal/my-isolated" = true.
Proof. reflexivity. Qed.
Example keeps_apart_ex4 : ∀ c, flags_apart c $"/p/third-i" = false.
Proof.
  intros c. unfold flags_apart.
  replace (ends_into $"/p/third-i" (header_system c)) with true by reflexivity.
  apply andb_false_r.
Qed.

(** * Further properties of the stages *)

(** ** read_config *)

Lemma map_result_as_str (segs : list str) :
  map_result py.as_str (map JStr segs) = Ok segs.
Proof.
  induction segs as [|seg segs IH]; [done|].
  cbn [map map_result py.as_str mbind result_bind]. by rewrite IH.
Qed.

Lemma str_join_strings (sep : str) (segs : list str) :
  py.str_join sep (JArr (map JStr segs)) = Ok (pystr.join sep segs).
Proof.
  unfold py.str_join. cbn [py.iter mbind result_bind]. by rewrite map_result_as_str.
Qed.

Lemma read_exclude_strings (st : state) (segs : list str) :
  read_exclude st (JArr (map JStr segs))
  = Ok (set_excludes (excludes st ++ [fragment segs]) st).
Proof. unfold read_exclude. by rewrite str_join_strings. Qed.

Lemma read_exclude_loop (raw : list (list str)) (st : state) :
  for_each read_exclude st (map (fun segs => JArr (map JStr segs)) raw)
  = Ok (set_excludes (excludes st ++ map fragment raw) st).
Proof.
  revert st. induction raw as [|segs raw IH]; intros st.
  - cbn [map for_each]. rewrite app_nil_r. by destruct st.
  - cbn [map for_each]. rewrite read_exclude_strings.
    cbn [mbind result_bind]. rewrite IH. f_equal.
    unfold set_excludes. cbn. by rewrite <- app_assoc.
Qed.

Lemma read_config_strings (lenient : bool) (st : state) (w : world) (raw : list (list str)) :
  fs w !! path_config st = Some (File (Some (config_doc raw))) →
  read_config lenient st w = (w, Ok (set_excludes (excludes st ++ map fragment raw) st)).
Proof.
  intros H. unfold read_config, io_bind, exists_path, json_load, lift.
  rewrite bool_decide_eq_true_2 by (rewrite H; eauto). rewrite H.
  unfold config_doc. cbn [py.iter mbind result_bind]. by rewrite read_exclude_loop.
Qed.

(** X1. On a configuration that is an array of arrays of strings,
    [read_config] appends one fragment for each inner array, in order: a
    separator followed by the names joined by separators.  It prints nothing,
    writes nothing and changes no other global, whatever [TERMINATE_OK]. *)
Theorem read_config_builds_fragments (lenient : bool) (st : state) (w : world)
    (raw : list (list str)) :
  fs w !! path_config st = Some (File (Some (config_doc raw))) →
  read_config lenient st w = (w, Ok (set_excludes (excludes st ++ map fragment raw) st)).
Proof.
  intros Hfile. unfold read_config, io_bind, exists_path.
  rewrite bool_decide_eq_true_2 by (rewrite Hfile; eauto).
  unfold json_load. rewrite Hfile. unfold lift, config_doc.
  cbn [py.iter mbind result_bind].
  by rewrite read_exclude_loop.
Qed.

Lemma read_config_builds_fragments_witness :
  fs scenario_world !! path_config scenario_state
    = Some (File (Some (config_doc [[ $"vendor" ]]))) ∧
  read_config TERMINATE_OK scenario_state scenario_world
    = (scenario_world,
       Ok (set_excludes (excludes scenario_state ++ map fragment [[ $"vendor" ]])
             scenario_state)).
Proof.
  split; [reflexivity|].
  apply (read_config_builds_fragments TERMINATE_OK scenario_state scenario_world).
  reflexivity.
Defined.

Lemma for_each_app {S A : Type} (body : S → A → result S) (s : S) (l1 l2 : list A) :
  for_each body s (l1 ++ l2) = for_each body s l1 ≫= λ s', for_each body s' l2.
Proof.
  revert s. induction l1 as [|x l1 IH]; intros s; [done|].
  cbn [app for_each]. destruct (body s x) as [s'|e]; [|done].
  cbn [mbind result_bind]. apply IH.
Qed.

Lemma map_result_not_string (xs : list json) (x : json) :
  x ∈ xs → (∀ s, x ≠ JStr s) → map_result py.as_str xs = Raise TypeError.
Proof.
  intros Hin Hx. induction xs as [|y xs IH]; [by apply elem_of_nil in Hin|].
  cbn [map_result]. apply elem_of_cons in Hin as [<-|Hin].
  - destruct x; try done. by destruct (Hx s).
  - destruct y; try done. cbn [py.as_str mbind result_bind]. by rewrite IH.
Qed.

(** X2. A configuration entry with an element that is not a string (a
    number, [null], a boolean, an array, an object) makes [read_config] raise
    [TypeError], in both modes, when the entries before it are arrays of
    strings; nothing is printed or written. *)
Theorem read_config_rejects_non_string (lenient : bool) (st : state) (w : world)
    (good : list (list str)) (xs rest : list json) (x : json) :
  fs w !! path_config st
    = Some (File (Some (JArr (map (fun segs => JArr (map JStr segs)) good
                              ++ JArr xs :: rest)))) →
  x ∈ xs → (∀ s, x ≠ JStr s) →
  read_config lenient st w = (w, Raise TypeError).
Proof.
  intros H Hin Hx. unfold read_config, io_bind, exists_path, json_load, lift.
  rewrite bool_decide_eq_true_2 by (rewrite H; eauto). rewrite H.
  cbn [py.iter mbind result_bind]. rewrite for_each_app, read_exclude_loop.
  cbn [mbind result_bind for_each]. unfold read_exclude, py.str_join.
  cbn [py.iter mbind result_bind]. by rewrite (map_result_not_string xs x).
Qed.

Lemma read_config_rejects_non_string_witness :
  read_config TERMINATE_OK scenario_state
    (World (<[ $"/proj/excludes_clang_tidy.json" :=
                File (Some (JArr (map (fun segs => JArr (map JStr segs)) [[ $"vendor" ]]
                                  ++ JArr [JStr $"third_party"; JNum $"1"] :: []))) ]> ∅) [])
  = (World (<[ $"/proj/excludes_clang_tidy.json" :=
                File (Some (JArr (map (fun segs => JArr (map JStr segs)) [[ $"vendor" ]]
                                  ++ JArr [JStr $"third_party"; JNum $"1"] :: []))) ]> ∅) [],
     Raise TypeError).
Proof.
  apply (read_config_rejects_non_string TERMINATE_OK scenario_state _
           [[ $"vendor" ]] [JStr $"third_party"; JNum $"1"] [] (JNum $"1")).
  - reflexivity.
  - right. left.
  - intros s. discriminate.
Defined.

Lemma main_config_unreadable (lenient : bool) (st : state) (w : world) (n : node)
    (e : exception) :
  fs w !! path_config st = Some n → json_load (path_config st) w = (w, Raise e) →
  main lenient st w = (w, Raise e).
Proof.
  intros Hn Hload. unfold main, io_bind at 1, read_config, io_bind at 1, exists_path.
  rewrite bool_decide_eq_true_2 by (rewrite Hn; eauto).
  unfold io_bind at 1. by rewrite Hload.
Qed.

Lemma main_database_unreadable (lenient : bool) (st st1 : state) (w : world) (n : node)
    (e : exception) :
  read_config lenient st w = (w, Ok st1) →
  fs w !! path_database st = Some n → json_load (path_database st) w = (w, Raise e) →
  main lenient st w = (w, Raise e).
Proof.
  intros Hcfg Hn Hload. apply read_config_ok in Hcfg as Hcfg'.
  destruct Hcfg' as (_ & Hb & _).
  unfold main, io_bind at 1. rewrite Hcfg. unfold io_bind at 1.
  unfold read_commands, io_bind at 1, exists_path. fold (path_database st1).
  replace (path_database st1) with (path_database st)
    by (unfold path_database; by rewrite Hb).
  rewrite bool_decide_eq_true_2 by (rewrite Hn; eauto).
  unfold io_bind at 1. by rewrite Hload.
Qed.

(** X3. The lenient mode only covers missing files.  A configuration or a
    database that is there, but cannot be read, ends [main] with the
    exception of the failed read, whatever [TERMINATE_OK]:
    [UnicodeDecodeError] when its bytes are not text, [JSONDecodeError] when
    its text is not JSON, [OSError] when it is a directory.  Nothing is
    printed or written. *)
Theorem unreadable_input_raises (lenient : bool) (st : state) (w : world) :
  (fs w !! path_config st = Some Undecodable →
     main lenient st w = (w, Raise UnicodeDecodeError)) ∧
  (fs w !! path_config st = Some (File None) →
     main lenient st w = (w, Raise JSONDecodeError)) ∧
  (fs w !! path_config st = Some Directory →
     main lenient st w = (w, Raise OSError)) ∧
  (∀ st1, read_config lenient st w = (w, Ok st1) →
     (fs w !! path_database st = Some Undecodable →
        main lenient st w = (w, Raise UnicodeDecodeError)) ∧
     (fs w !! path_database st = Some (File None) →
        main lenient st w = (w, Raise JSONDecodeError)) ∧
     (fs w !! path_database st = Some Directory →
        main lenient st w = (w, Raise OSError))).
Proof.
  split; [|split; [|split]].
  - intros H. apply (main_config_unreadable _ _ _ _ _ H). unfold json_load. by rewrite H.
  - intros H. apply (main_config_unreadable _ _ _ _ _ H). unfold json_load. by rewrite H.
  - intros H. apply (main_config_unreadable _ _ _ _ _ H). unfold json_load. by rewrite H.
  - intros st1 Hcfg. split; [|split]; intros H;
      apply (main_database_unreadable _ _ _ _ _ _ Hcfg H); unfold json_load; by rewrite H.
Qed.

Lemma unreadable_input_raises_witness :
  main true scenario_state
    (World (<[ $"/proj/excludes_clang_tidy.json" := File None ]> ∅) [])
  = (World (<[ $"/proj/excludes_clang_tidy.json" := File None ]> ∅) [],
     Raise JSONDecodeError) ∧
  main true scenario_state
    (World (<[ $"/proj/excludes_clang_tidy.json" := Undecodable ]> ∅) [])
  = (World (<[ $"/proj/excludes_clang_tidy.json" := Undecodable ]> ∅) [],
     Raise UnicodeDecodeError) ∧
  main true scenario_state
    (World (<[ $"/proj/_build/compile_commands.json" := Undecodable ]> (fs config_only_world)) [])
  = (World (<[ $"/proj/_build/compile_commands.json" := Undecodable ]> (fs config_only_world)) [],
     Raise UnicodeDecodeError).
Proof.
  destruct (unreadable_input_raises true scenario_state
              (World (<[ $"/proj/excludes_clang_tidy.json" := File None ]> ∅) []))
    as (_ & H1 & _).
  destruct (unreadable_input_raises true scenario_state
              (World (<[ $"/proj/excludes_clang_tidy.json" := Undecodable ]> ∅) []))
    as (H2 & _).
  destruct (unreadable_input_raises true scenario_state
              (World (<[ $"/proj/_build/compile_commands.json" := Undecodable ]>
                        (fs config_only_world)) []))
    as (_ & _ & _ & H3).
  split; [apply H1; reflexivity|]. split; [apply H2; reflexivity|].
  destruct (H3 (set_excludes [ $"/vendor" ] scenario_state)) as (H & _).
  - vm_compute. reflexivity.
  - apply H. reflexivity.
Defined.

(** ** filter_sources *)

Lemma path_str_of_inv (st : state) (obj : json) (path_str : str) :
  path_str_of st obj = Ok path_str →
  ∃ file rel,
    py.getitem obj $"file" = Ok (JStr file) ∧
    posixpath.relpath (path_relative st) (posixpath.dirname file) (path_relative st) = Some rel ∧
    path_str = posixpath.sep ++ rel.
Proof.
  unfold path_str_of. destruct (py.getitem obj _) as [[| | |file| |]|]; try done.
  cbn [mbind result_bind py.dirname]. unfold py.relpath.
  destruct (posixpath.relpath _ _ _) as [rel|] eqn:Hrel; [|done].
  cbn [mbind result_bind]. intros [= <-]. by exists file, rel.
Qed.

(** What the partitioner decided, read off its two lists. *)
Lemma filter_sources_verdict (st st' : state) (r : nat) :
  commands_inc st = [] → commands_exc st = [] → filter_sources st = Ok st' →
  r ∈ commands st →
  (r ∈ commands_inc st' ↔ included st r = true) ∧
  (r ∈ commands_exc st' ↔ included st r = false).
Proof.
  intros Hi He H Hr.
  apply filter_sources_loop_inv in H as (_ & _ & _ & _ & -> & ->).
  rewrite Hi, He. cbn [app]. rewrite !list_elem_of_filter.
  destruct (included st r); simpl; split; split; try tauto; try done.
Qed.

(** X4. From fresh lists, an entry of the database is in the excluded list
    exactly when some fragment occurs in its [path_str] as a run of
    characters, and in the included list exactly when none does. *)
Theorem excluded_iff_fragment_occurs (st st' : state) (r : nat) (obj : json) (path_str : str) :
  commands_inc st = [] → commands_exc st = [] → filter_sources st = Ok st' →
  r ∈ commands st → deref st r = Ok obj → path_str_of st obj = Ok path_str →
  (r ∈ commands_exc st'
     ↔ ∃ exclude, exclude ∈ excludes st ∧ pystr.contains exclude path_str = true) ∧
  (r ∈ commands_inc st'
     ↔ ∀ exclude, exclude ∈ excludes st → pystr.contains exclude path_str = false).
Proof.
  intros Hi He H Hr Hobj Hps.
  destruct (filter_sources_verdict st st' r Hi He H Hr) as [Hinc Hexc].
  pose proof (excluded_iff_substring st r obj path_str Hobj Hps) as Hsub.
  split; [by rewrite Hexc|].
  rewrite Hinc. split.
  - intros Hyes e He'. destruct (pystr.contains e path_str) eqn:E; [|done].
    assert (included st r = false) by (apply Hsub; eauto). congruence.
  - intros Hall. apply not_false_iff_true. intros (e & He' & Hc)%Hsub.
    rewrite (Hall e He') in Hc. done.
Qed.

Lemma excluded_iff_fragment_occurs_witness :
  (1 ∈ commands_exc (set_commands_exc [1] (set_commands_inc [0] scenario_loaded))
     ↔ ∃ exclude, exclude ∈ excludes scenario_loaded
                  ∧ pystr.contains exclude $"/vendor" = true) ∧
  (1 ∈ commands_inc (set_commands_exc [1] (set_commands_inc [0] scenario_loaded))
     ↔ ∀ exclude, exclude ∈ excludes scenario_loaded
                  → pystr.contains exclude $"/vendor" = false).
Proof.
  apply (excluded_iff_fragment_occurs scenario_loaded _ 1 lib_cpp $"/vendor");
    try reflexivity.
  right. left.
Defined.

Section segments.
Import pystr.

Lemma split_cons_nonempty (c : ascii) (s : str) : split c s ≠ [].
Proof.
  destruct s as [|x s]; [done|]. cbn [split].
  case_bool_decide; [done|]. by destruct (split c s).
Qed.

Lemma join_cons (sep piece : str) (rest : list str) :
  rest ≠ [] → join sep (piece :: rest) = piece ++ sep ++ join sep rest.
Proof. by destruct rest. Qed.

(** [sep.join(s.split(sep))] is [s]. *)
Lemma join_split (c : ascii) (s : str) : join [c] (split c s) = s.
Proof.
  induction s as [|x s IH]; [done|].
  cbn [split]. pose proof (split_cons_nonempty c s) as Hne.
  case_bool_decide as E.
  - subst x. rewrite join_cons by done. by rewrite IH.
  - destruct (split c s) as [|piece pieces]; [done|].
    destruct pieces as [|p pieces]; [by rewrite <- IH|].
    rewrite join_cons by done. rewrite join_cons in IH by done.
    by rewrite <- IH.
Qed.

Lemma prefixed_join (segs : list str) :
  segs ≠ [] → posixpath.sep ++ join posixpath.sep segs = prefixed segs.
Proof.
  induction segs as [|seg segs IH]; [done|]. intros _.
  destruct segs as [|seg' segs].
  - unfold prefixed. cbn. by rewrite app_nil_r.
  - rewrite join_cons by done. rewrite IH by done.
    change (prefixed (seg :: seg' :: segs))
      with ((posixpath.sep ++ seg) ++ prefixed (seg' :: segs)).
    by rewrite <- app_assoc.
Qed.

Lemma segments_start_inv (frag dir : list str) :
  segments_start frag dir = true → ∃ rest, dir = frag ++ rest.
Proof.
  revert dir. induction frag as [|a frag IH]; intros dir H; [by exists dir|].
  destruct dir as [|b dir]; [done|]. cbn [segments_start] in H.
  apply andb_true_iff in H as [->%bool_decide_eq_true H].
  destruct (IH _ H) as [rest ->]. by exists rest.
Qed.

Lemma segments_match_inv (frag dir : list str) :
  segments_match frag dir = true → ∃ before after, dir = before ++ frag ++ after.
Proof.
  induction dir as [|seg dir IH]; cbn [segments_match]; intros H.
  - rewrite orb_false_r in H. apply segments_start_inv in H as [rest H].
    exists [], rest. done.
  - apply orb_true_iff in H as [H|H].
    + apply segments_start_inv in H as [rest H]. by exists [], rest.
    + destruct (IH H) as (before & after & ->). by exists (seg :: before), after.
Qed.

(** A fragment whose names are whole consecutive segments of a relative
    directory occurs in the [path_str] of that directory. *)
Lemma fragment_occurs (segs : list str) (rel : str) :
  segments_match segs (split posixpath.sep_char rel) = true →
  contains (fragment segs) (posixpath.sep ++ rel) = true.
Proof.
  intros (before & after & Hsplit)%segments_match_inv.
  destruct segs as [|seg segs].
  - unfold fragment. cbn [join]. rewrite app_nil_r. apply (contains_intro _ []).
  - unfold fragment. rewrite prefixed_join by done.
    rewrite <- (join_split posixpath.sep_char rel). fold posixpath.sep.
    rewrite prefixed_join by apply split_cons_nonempty.
    rewrite Hsplit. unfold prefixed. rewrite !flat_map_app. apply contains_intro.
Qed.
End segments.

(** X5. An entry whose directory, relative to [path_relative], has the names
    of a configured rule as whole consecutive segments is excluded. *)
Theorem configured_directory_excluded (st st' : state) (r : nat) (obj : json)
    (rel : str) (segs : list str) :
  commands_inc st = [] → commands_exc st = [] → filter_sources st = Ok st' →
  r ∈ commands st → deref st r = Ok obj →
  path_str_of st obj = Ok (posixpath.sep ++ rel) →
  fragment segs ∈ excludes st →
  segments_match segs (pystr.split posixpath.sep_char rel) = true →
  r ∈ commands_exc st'.
Proof.
  intros Hi He H Hr Hobj Hps Hfrag Hseg.
  apply (filter_sources_verdict st st' r Hi He H Hr).
  apply (excluded_iff_substring st r obj _ Hobj Hps).
  exists (fragment segs). split; [done | by apply fragment_occurs].
Qed.

Lemma configured_directory_excluded_witness :
  1 ∈ commands_exc (set_commands_exc [1] (set_commands_inc [0] scenario_loaded)).
Proof.
  apply (configured_directory_excluded scenario_loaded _ 1 lib_cpp $"vendor" [ $"vendor" ]);
    try reflexivity.
  - right. left.
  - left.
Defined.

Lemma path_str_headed (st : state) (obj : json) (path_str : str) :
  path_str_of st obj = Ok path_str → pystr.contains posixpath.sep path_str = true.
Proof.
  intros (file & rel & _ & _ & ->)%path_str_of_inv. apply (contains_intro _ []).
Qed.

(** X6. A rule that is an empty array gives the fragment that is one
    separator, which occurs in every [path_str]: the partitioner then
    excludes every entry. *)
Theorem empty_rule_excludes_all (st : state) :
  commands_inc st = [] → commands_exc st = [] →
  forallb (locatable st) (commands st) = true →
  fragment [] ∈ excludes st →
  ∃ st', filter_sources st = Ok st' ∧ commands_inc st' = [] ∧ commands_exc st' = commands st.
Proof.
  intros Hi He Hloc Hfrag.
  assert (Hloc' : ∀ r, r ∈ commands st → placeable st r).
  { intros r Hr. rewrite forallb_forall in Hloc.
    apply locatable_path_str, Hloc. by apply list_elem_of_In. }
  assert (Hexc : ∀ r, r ∈ commands st → included st r = false).
  { intros r Hr. destruct (Hloc' r Hr) as (obj & path_str & Hobj & Hps).
    apply (excluded_iff_substring st r obj path_str Hobj Hps).
    exists (fragment []). split; [done|].
    unfold fragment. cbn [pystr.join]. rewrite app_nil_r. by eapply path_str_headed. }
  eexists. split; [by apply filter_sources_fresh|].
  cbn [commands_inc commands_exc]. split.
  - apply filter_none. intros r Hr. rewrite (Hexc r Hr). simpl. tauto.
  - apply filter_all. intros r Hr. rewrite (Hexc r Hr). simpl. tauto.
Qed.

Lemma empty_rule_excludes_all_witness :
  ∃ st', filter_sources (set_excludes [fragment []] scenario_loaded) = Ok st' ∧
         commands_inc st' = [] ∧ commands_exc st' = [0; 1].
Proof.
  apply (empty_rule_excludes_all (set_excludes [fragment []] scenario_loaded));
    try reflexivity.
  left.
Defined.

Lemma headers_loop_no_rules (refs : list nat) (st : state) :
  excludes st = [] →
  for_each (fun st r => for_each (filter_header r) st (excludes st)) st refs = Ok st.
Proof.
  intros Hexcl. induction refs as [|r refs IH]; [done|].
  cbn [for_each]. rewrite Hexcl. cbn [for_each mbind result_bind]. exact IH.
Qed.

Lemma included_no_rules (st : state) (r : nat) :
  excludes st = [] → placeable st r → included st r = true.
Proof.
  intros Hexcl (obj & path_str & Hobj & Hps).
  rewrite (included_located _ _ _ _ Hobj Hps), Hexcl. done.
Qed.

(** X7. With no rule configured the two filters return on every database
    whose entries can be placed: nothing is excluded, the included list is
    the input in its order, and no object is read for its command or changed,
    so entries without a ['command'] pass as well. *)
Theorem no_rules_keeps_database (st : state) :
  excludes st = [] → commands_inc st = [] → commands_exc st = [] →
  forallb (locatable st) (commands st) = true →
  ∃ st1 st2, filter_sources st = Ok st1 ∧ filter_headers st1 = Ok st2 ∧
    commands_inc st2 = commands st ∧ commands_exc st2 = [] ∧ store st2 = store st.
Proof.
  intros Hexcl Hi He Hloc.
  assert (Hloc' : ∀ r, r ∈ commands st → placeable st r).
  { intros r Hr. rewrite forallb_forall in Hloc.
    apply locatable_path_str, Hloc. by apply list_elem_of_In. }
  pose proof (filter_sources_fresh st Hi He Hloc') as H1.
  rewrite (filter_all (λ r, included st r)) in H1
    by (intros r Hr; by rewrite included_no_rules by auto).
  rewrite (filter_none (λ r, ¬ included st r)) in H1
    by (intros r Hr; rewrite included_no_rules by auto; simpl; tauto).
  rewrite Hexcl in H1.
  eexists _, _. split; [exact H1|]. split.
  - unfold filter_headers. cbn [REPLACE_WITH_SYSTEM_HEADERS excludes map set_excludes
      commands_inc path_config path_build path_relative commands commands_exc store].
    by rewrite headers_loop_no_rules.
  - done.
Qed.

Lemma no_rules_keeps_database_witness :
  ∃ st1 st2, filter_sources (set_excludes [] scenario_loaded) = Ok st1 ∧
    filter_headers st1 = Ok st2 ∧
    commands_inc st2 = [0; 1] ∧ commands_exc st2 = [] ∧ store st2 = [main_cpp; lib_cpp].
Proof.
  apply (no_rules_keeps_database (set_excludes [] scenario_loaded)); reflexivity.
Defined.

Section bare_names.
Import pystr.

Lemma upto_last_absent (c : ascii) (s : str) : c ∉ s → upto_last c s = [].
Proof.
  induction s as [|x s IH]; [done|]. intros H.
  apply not_elem_of_cons in H as [Hx Hs]. cbn [upto_last].
  rewrite (IH Hs). by rewrite bool_decide_eq_false_2.
Qed.

Lemma dirname_bare (file : str) :
  posixpath.sep_char ∉ file → posixpath.dirname file = [].
Proof. intros H. unfold posixpath.dirname. by rewrite upto_last_absent. Qed.
End bare_names.

Lemma filter_sources_first_failure (st : state) (good rest : list nat) (r : nat)
    (obj : json) (e : exception) :
  commands st = good ++ r :: rest →
  forallb (locatable st) good = true →
  store st !! r = Some obj → path_str_of st obj = Raise e →
  filter_sources st = Raise e.
Proof.
  intros Hcmds Hgood Hobj Hps. unfold filter_sources. rewrite Hcmds, for_each_app.
  rewrite filter_sources_loop.
  - cbn [mbind result_bind for_each]. unfold filter_source, deref.
    cbn [store]. rewrite Hobj. cbn [mbind result_bind].
    change (path_str_of (State _ _ _ _ _ _ _ _) obj) with (path_str_of st obj).
    by rewrite Hps.
  - intros r' Hr'. rewrite forallb_forall in Hgood.
    apply locatable_path_str, Hgood. by apply list_elem_of_In.
Qed.

(** X8. The partitioner stops at the first entry it cannot place, with the
    exception of that entry: the one raised by [command['file']] (a
    [KeyError] when the key is missing), [TypeError] when the value is not a
    string, [ValueError] when the file name has no separator, hence no
    directory part. *)
Theorem unplaceable_entry_raises (st : state) (good rest : list nat) (r : nat) (obj : json) :
  commands st = good ++ r :: rest →
  forallb (locatable st) good = true →
  store st !! r = Some obj →
  (∀ members, obj = JObj members → py.dict_get $"file" members = None →
     filter_sources st = Raise (KeyError $"file")) ∧
  (∀ value, py.getitem obj $"file" = Ok value → (∀ s, value ≠ JStr s) →
     filter_sources st = Raise TypeError) ∧
  (∀ file, py.getitem obj $"file" = Ok (JStr file) → posixpath.sep_char ∉ file →
     filter_sources st = Raise ValueError).
Proof.
  intros Hcmds Hgood Hobj. split; [|split].
  - intros members -> Hnone.
    apply (filter_sources_first_failure st good rest r _ _ Hcmds Hgood Hobj).
    unfold path_str_of, py.getitem. by rewrite Hnone.
  - intros value Hfile Hvalue.
    apply (filter_sources_first_failure st good rest r obj _ Hcmds Hgood Hobj).
    unfold path_str_of. rewrite Hfile. cbn [mbind result_bind].
    destruct value; try done. by destruct (Hvalue s).
  - intros file Hfile Hbare.
    apply (filter_sources_first_failure st good rest r obj _ Hcmds Hgood Hobj).
    unfold path_str_of. rewrite Hfile. cbn [mbind result_bind py.dirname].
    by rewrite dirname_bare.
Qed.

Lemma unplaceable_entry_raises_witness : filter_sources bare_loaded = Raise ValueError.
Proof.
  destruct (unplaceable_entry_raises bare_loaded [0] [] 1 bare_cpp eq_refl eq_refl eq_refl)
    as (_ & _ & H).
  apply (H $"main.cpp"); [reflexivity|].
  apply (bool_decide_unpack _). reflexivity.
Defined.

(** ** filter_headers *)

Lemma has_command_insert (st : state) (r r' : nat) (m : list (str * json)) (s : str) :
  store st !! r = Some (JObj m) → has_command st r' = true →
  has_command (set_store (<[r := JObj (py.dict_set $"command" (JStr s) m)]> (store st)) st) r'
  = true.
Proof.
  intros Hobj Hcmd. unfold has_command. cbn [set_store store].
  destruct (decide (r' = r)) as [->|Hne].
  - rewrite list_lookup_insert_eq by (by eapply lookup_lt_Some).
    apply bool_decide_eq_true. exists s. apply command_of_members, dict_get_set_eq.
  - by rewrite list_lookup_insert_ne.
Qed.

(** The loop over included entries returns when they hold string commands,
    and they still do afterwards. *)
Lemma headers_loop_total (excl : list str) (refs : list nat) (st : state) :
  excludes st = excl →
  (∀ r, r ∈ refs → has_command st r = true) →
  ∃ st', for_each (fun st r => for_each (filter_header r) st (excludes st)) st refs = Ok st' ∧
         ∀ r, has_command st r = true → has_command st' r = true.
Proof.
  revert st. induction refs as [|r refs IH]; intros st Hexcl Hcmd.
  - by exists st.
  - destruct (has_command_inv st r) as (m & s & Hobj & Hget); [apply Hcmd; left|].
    cbn [for_each]. rewrite Hexcl, (filter_header_loop _ _ _ _ _ Hobj Hget).
    cbn [mbind result_bind].
    set (st1 := set_store _ st).
    assert (Hkeep : ∀ r', has_command st r' = true → has_command st1 r' = true)
      by (intros r' Hr'; by apply has_command_insert).
    destruct (IH st1) as (st' & Hrun & Hall); [done | |].
    { intros r' Hr'. apply Hkeep, Hcmd. by right. }
    exists st'. split; [done|]. intros r' Hr'. by apply Hall, Hkeep.
Qed.

Lemma filter_header_missing (r : nat) (st : state) (e : str) (m : list (str * json)) :
  store st !! r = Some (JObj m) → py.dict_get $"command" m = None →
  filter_header r st e = Raise (KeyError $"command").
Proof.
  intros Hobj Hnone. unfold filter_header, deref. rewrite Hobj.
  cbn [mbind result_bind py.getitem]. by rewrite Hnone.
Qed.

(** X9. When rules are configured, [filter_headers] raises [KeyError] at the
    first included entry that is an object without a ['command'], the
    entries before it holding string commands. *)
Theorem missing_command_raises (st : state) (good rest : list nat) (r : nat)
    (members : list (str * json)) :
  commands_inc st = good ++ r :: rest →
  forallb (has_command st) good = true →
  store st !! r = Some (JObj members) → py.dict_get $"command" members = None →
  excludes st ≠ [] →
  filter_headers st = Raise (KeyError $"command").
Proof.
  intros Hinc Hgood Hobj Hnone Hrules.
  assert (Hr : has_command st r = false).
  { unfold has_command, command_of, py.getitem. rewrite Hobj, Hnone.
    apply bool_decide_eq_false. by intros [? ?]. }
  assert (Hgood' : ∀ r', r' ∈ good → has_command st r' = true).
  { intros r' Hr'. rewrite forallb_forall in Hgood. apply Hgood. by apply list_elem_of_In. }
  unfold filter_headers. cbn [REPLACE_WITH_SYSTEM_HEADERS].
  set (st0 := set_excludes _ st).
  change (commands_inc st0) with (commands_inc st). rewrite Hinc, for_each_app.
  destruct (headers_loop_total (excludes st0) good st0) as (st1 & Hrun & _); [done | done |].
  rewrite Hrun. cbn [mbind result_bind for_each].
  apply (headers_loop_frame good good) in Hrun as (_ & _ & _ & _ & Hexcl & _ & _ & Hstore);
    [|done].
  assert (r ∉ good) by (intros Hin; rewrite (Hgood' r Hin) in Hr; done).
  destruct (Hstore r) as [Hsame _]. rewrite Hexcl.
  assert (Hrules0 : excludes st0 ≠ []).
  { subst st0. cbn [set_excludes excludes]. by destruct (excludes st). }
  destruct (excludes st0) as [|e es]; [done|].
  cbn [for_each]. rewrite (filter_header_missing r st1 e members); [done | | done].
  rewrite Hsame by done. exact Hobj.
Qed.

Lemma missing_command_raises_witness :
  filter_headers uncommanded_partitioned = Raise (KeyError $"command").
Proof.
  apply (missing_command_raises uncommanded_partitioned [0] [] 1
           [($"directory", JStr $"/proj/_build"); ($"file", JStr $"/proj/src/other.cpp")]);
    try reflexivity.
  discriminate.
Defined.


(** X10. For an included entry with a string command, one round of the
    inner loop of [filter_headers] returns, and it leaves the store as it was
    exactly when the plain-include flag of the fragment does not occur in the
    command: a command in which the flag occurs is always changed. *)
Theorem store_changes_iff_flag_occurs (r : nat) (st : state) (exclude : str)
    (members : list (str * json)) (s : str) :
  store st !! r = Some (JObj members) → py.dict_get $"command" members = Some (JStr s) →
  ∃ st', filter_header r st exclude = Ok st' ∧
    (store st' = store st
     ↔ pystr.contains (header_include (posixpath.join (path_relative st) exclude)) s = false).
Proof.
  intros Hobj Hget. eexists. split; [by apply filter_header_str|].
  cbn [set_store store]. rewrite <- rewrite_flag_changes. split.
  - intros Hsame. apply (f_equal (λ l, l !! r)) in Hsame.
    rewrite list_lookup_insert_eq, Hobj in Hsame by (by eapply lookup_lt_Some).
    injection Hsame as Hm. apply (f_equal (py.dict_get $"command")) in Hm.
    rewrite dict_get_set_eq, Hget in Hm. by injection Hm.
  - intros ->. rewrite dict_set_id by done. by apply list_insert_id.
Qed.

Lemma store_changes_iff_flag_occurs_witness :
  ∃ st', filter_header 0 scenario_partitioned $"vendor" = Ok st' ∧
    (store st' = store scenario_partitioned
     ↔ pystr.contains (header_include (posixpath.join $"/proj" $"vendor"))
         $"g++ -I/proj/vendor -c /proj/src/main.cpp" = false).
Proof.
  apply (store_changes_iff_flag_occurs 0 scenario_partitioned $"vendor"
           [($"directory", JStr $"/proj/_build");
            ($"command", JStr $"g++ -I/proj/vendor -c /proj/src/main.cpp");
            ($"file", JStr $"/proj/src/main.cpp")]); reflexivity.
Defined.

Section rule_paths.
Import pystr.

Lemma lstrip_fragment (segs : list str) :
  posixpath.isabs (join posixpath.sep segs) = false →
  lstrip posixpath.sep_char (fragment segs) = join posixpath.sep segs.
Proof.
  unfold fragment, posixpath.isabs, posixpath.sep. cbn [app lstrip].
  rewrite bool_decide_eq_true_2 by done.
  destruct (join _ segs) as [|c t]; [done|]. cbn [startswith lstrip].
  rewrite andb_true_r. intros H%bool_decide_eq_false.
  rewrite bool_decide_eq_false_2; [done | by intros ->].
Qed.
End rule_paths.

(** X11. The separator that [read_config] puts before a rule is the one that
    [filter_headers] strips: for fragments built from rules whose first name
    does not start with a separator, the directories whose flags are
    rewritten are [path_relative] joined with the names of each rule. *)
Theorem exclude_paths_of_rules (st : state) (raw : list (list str)) :
  excludes st = map fragment raw →
  forallb (fun segs => negb (posixpath.isabs (pystr.join posixpath.sep segs))) raw = true →
  exclude_paths st
  = map (fun segs => posixpath.join (path_relative st) (pystr.join posixpath.sep segs)) raw.
Proof.
  intros Hexcl Hrel. unfold exclude_paths, stripped_excludes. rewrite Hexcl, !map_map.
  apply map_ext_in. intros segs Hin. rewrite forallb_forall in Hrel.
  rewrite lstrip_fragment; [done|]. apply negb_true_iff. by apply Hrel.
Qed.

Lemma exclude_paths_of_rules_witness :
  exclude_paths (set_excludes (map fragment [[ $"third_party"; $"vendor" ]]) scenario_state)
  = [ $"/proj/third_party/vendor" ].
Proof.
  apply (exclude_paths_of_rules
           (set_excludes (map fragment [[ $"third_party"; $"vendor" ]]) scenario_state)
           [[ $"third_party"; $"vendor" ]]); reflexivity.
Defined.

(** ** The rules as a set *)

Lemma existsb_same_elements {A : Type} (f : A → bool) (l1 l2 : list A) :
  (∀ x, x ∈ l1 → x ∈ l2) → existsb f l1 = true → existsb f l2 = true.
Proof.
  intros Hsub (x & Hx & Hf)%existsb_exists. apply existsb_exists.
  exists x. split; [|done]. apply list_elem_of_In, Hsub. by apply list_elem_of_In.
Qed.

Lemma existsb_equiv {A : Type} (f : A → bool) (l1 l2 : list A) :
  (∀ x, x ∈ l1 ↔ x ∈ l2) → existsb f l1 = existsb f l2.
Proof.
  intros H. destruct (existsb f l1) eqn:E1, (existsb f l2) eqn:E2; try done.
  - apply (existsb_same_elements f l1 l2) in E1; [congruence | apply H].
  - apply (existsb_same_elements f l2 l1) in E2; [congruence | apply H].
Qed.

Lemma filter_sources_ok_placeable (refs : list nat) (st st' : state) :
  for_each filter_source st refs = Ok st' → ∀ r, r ∈ refs → placeable st r.
Proof.
  revert st. induction refs as [|r refs IH]; intros st H r' Hr'.
  - by apply elem_of_nil in Hr'.
  - cbn [for_each] in H. destruct (filter_source st r) as [st1|] eqn:E; [|done].
    cbn [mbind result_bind] in H. unfold filter_source in E.
    destruct (deref st r) as [obj|] eqn:Hobj; [|done]. cbn [mbind result_bind] in E.
    destruct (path_str_of st obj) as [path_str|] eqn:Hps; [|done].
    cbn [mbind result_bind] in E.
    apply elem_of_cons in Hr' as [->|Hr']; [by exists obj, path_str|].
    pose proof (IH st1 H r' Hr') as Hplace.
    destruct (scan_excludes _ _ _); injection E as <-; exact Hplace.
Qed.

Lemma included_with_rules (st : state) (excl : list str) (r : nat) :
  included (set_excludes excl st) r
  = match deref st r ≫= path_str_of st with
    | Ok path_str => negb (existsb (fun e => pystr.contains e path_str) excl)
    | Raise _ => false
    end.
Proof.
  unfold included.
  change (deref (set_excludes excl st) r ≫= path_str_of (set_excludes excl st))
    with (deref st r ≫= path_str_of st).
  destruct (deref st r ≫= path_str_of st); [|done].
  cbn [set_excludes excludes]. apply scan_excludes_existsb.
Qed.

Lemma set_excludes_same (st : state) : set_excludes (excludes st) st = st.
Proof. by destruct st. Qed.

(** X12. The partition depends on the rules as a set only: a configuration
    with the same fragments in another order, or with repetitions, gives the
    same two lists. *)
Theorem partition_ignores_rule_order (st st' : state) (excl : list str) :
  (∀ e, e ∈ excludes st ↔ e ∈ excl) →
  commands_inc st = [] → commands_exc st = [] →
  filter_sources st = Ok st' →
  filter_sources (set_excludes excl st) = Ok (set_excludes excl st').
Proof.
  intros Hsame Hi He H.
  pose proof (filter_sources_ok_placeable _ _ _ H) as Hplace.
  rewrite (filter_sources_fresh st Hi He Hplace) in H. injection H as <-.
  rewrite (filter_sources_fresh (set_excludes excl st)) by done.
  cbn [set_excludes path_config path_build path_relative commands excludes
       commands_inc commands_exc store].
  assert (Hinc : ∀ r, included (set_excludes excl st) r = included st r).
  { intros r. rewrite <- (set_excludes_same st) at 2. rewrite !included_with_rules.
    destruct (deref st r ≫= path_str_of st); [|done].
    f_equal. apply existsb_equiv. intros e. by rewrite Hsame. }
  rewrite (list_filter_iff (λ r, included (set_excludes excl st) r) (λ r, included st r))
    by (intros r; by rewrite Hinc).
  rewrite (list_filter_iff (λ r, ¬ included (set_excludes excl st) r)
             (λ r, ¬ included st r)) by (intros r; by rewrite Hinc).
  reflexivity.
Qed.

Lemma partition_ignores_rule_order_witness :
  filter_sources (set_excludes [ $"/src"; $"/vendor"; $"/src" ]
                    (set_excludes [ $"/vendor"; $"/src" ] scenario_loaded))
  = Ok (set_excludes [ $"/src"; $"/vendor"; $"/src" ]
          (set_commands_exc [0; 1] (set_excludes [ $"/vendor"; $"/src" ] scenario_loaded))).
Proof.
  apply (partition_ignores_rule_order (set_excludes [ $"/vendor"; $"/src" ] scenario_loaded));
    try reflexivity.
  intros e. cbn [set_excludes excludes]. rewrite !elem_of_cons, !elem_of_nil. tauto.
Defined.

Lemma filter_sublist_impl (P Q : nat → Prop) `{∀ x, Decision (P x)} `{∀ x, Decision (Q x)}
    (l : list nat) :
  (∀ x, P x → Q x) → filter P l `sublist_of` filter Q l.
Proof.
  intros HPQ. induction l as [|x l IH]; [done|].
  rewrite !filter_cons. destruct (decide (P x)) as [HP|HP].
  - rewrite decide_True by auto. by apply sublist_skip.
  - destruct (decide (Q x)); [by apply sublist_cons | done].
Qed.

(** X13. More rules exclude more: when every fragment of a configuration is
    also in a second one, the partitioner returns for the second as well, its
    included list is the first one with entries left out, and the first
    excluded list is the second with entries left out. *)
Theorem more_rules_exclude_more (st st' : state) (excl : list str) :
  (∀ e, e ∈ excludes st → e ∈ excl) →
  commands_inc st = [] → commands_exc st = [] →
  filter_sources st = Ok st' →
  ∃ st2, filter_sources (set_excludes excl st) = Ok st2 ∧
         commands_inc st2 `sublist_of` commands_inc st' ∧
         commands_exc st' `sublist_of` commands_exc st2.
Proof.
  intros Hsub Hi He H.
  pose proof (filter_sources_ok_placeable _ _ _ H) as Hplace.
  rewrite (filter_sources_fresh st Hi He Hplace) in H. injection H as <-.
  eexists. split; [by apply (filter_sources_fresh (set_excludes excl st))|].
  cbn [set_excludes path_config path_build path_relative commands excludes
       commands_inc commands_exc store].
  assert (Hinc : ∀ r, included (set_excludes excl st) r → included st r).
  { intros r. rewrite <- (set_excludes_same st) at 2. rewrite !included_with_rules.
    destruct (deref st r ≫= path_str_of st) as [path_str|]; [|done].
    destruct (existsb _ (excludes st)) eqn:E; [|done].
    by rewrite (existsb_same_elements _ _ excl Hsub E). }
  split; apply filter_sublist_impl; [exact Hinc|].
  intros r Hr Hr'. by apply Hr, Hinc.
Qed.

Lemma more_rules_exclude_more_witness :
  ∃ st2, filter_sources (set_excludes [ $"/vendor"; $"/src" ] scenario_loaded) = Ok st2 ∧
         commands_inc st2 `sublist_of` [0] ∧ [1] `sublist_of` commands_exc st2.
Proof.
  apply (more_rules_exclude_more scenario_loaded
           (set_commands_exc [1] (set_commands_inc [0] scenario_loaded))
           [ $"/vendor"; $"/src" ]); try reflexivity.
  intros e. cbn [scenario_loaded excludes]. rewrite !elem_of_cons. tauto.
Defined.

(** X14. When in no exclusion path a [-] is followed by [I] or [i] or ends
    the path, the rewritten command depends on the fragments as a set only:
    their order and repetitions do not matter. *)
Theorem rewrite_ignores_rule_order (rel : str) (excl1 excl2 : list str) (s : str) :
  forallb flag_safe (map (posixpath.join rel) excl1) = true →
  (∀ e, e ∈ excl1 ↔ e ∈ excl2) →
  rewrite_command rel excl1 s = rewrite_command rel excl2 s.
Proof.
  intros Hsafe Hsame.
  assert (Hsafe2 : forallb flag_safe (map (posixpath.join rel) excl2) = true).
  { rewrite forallb_forall in *. intros p (e & <- & He)%in_map_iff.
    apply Hsafe, in_map, list_elem_of_In, Hsame. by apply list_elem_of_In. }
  apply flag_safe_all_apart in Hsafe, Hsafe2.
  destruct (command_flags [] s) as (head & pieces & -> & Hhead & Hall).
  rewrite !(rewrite_command_flags [] eq_refl) by done.
  f_equal. f_equal. apply map_ext. intros [b w]. unfold settle_flags. cbn [fst snd].
  f_equal. f_equal. by apply existsb_equiv.
Qed.

Lemma rewrite_ignores_rule_order_witness :
  rewrite_command $"/proj" [ $"vendor"; $"third_party" ]
    $"g++ -I/proj/third_party -I/proj/vendor -c /proj/src/main.cpp"
  = rewrite_command $"/proj" [ $"third_party"; $"vendor"; $"vendor" ]
      $"g++ -I/proj/third_party -I/proj/vendor -c /proj/src/main.cpp".
Proof.
  apply (rewrite_ignores_rule_order $"/proj" [ $"vendor"; $"third_party" ]
           [ $"third_party"; $"vendor"; $"vendor" ]); [reflexivity|].
  intros e. rewrite !elem_of_cons, !elem_of_nil. tauto.
Defined.

(** ** save_commands *)

Section output_paths.
Import pystr.

Lemma join_relative_inj (a x y : str) :
  posixpath.isabs x = false → posixpath.isabs y = false →
  posixpath.join a x = posixpath.join a y → x = y.
Proof.
  unfold posixpath.isabs, posixpath.join. intros -> ->.
  destruct (bool_decide (a = []) || endswith posixpath.sep a).
  - by intros ?%app_inv_head.
  - by intros ?%app_inv_head%app_inv_head.
Qed.

Lemma path_inc_exc (st : state) : path_inc st ≠ path_exc st.
Proof. unfold path_inc, path_exc. by intros ?%join_relative_inj. Qed.

Lemma path_database_inc (st : state) : path_database st ≠ path_inc st.
Proof. unfold path_database, path_inc. by intros ?%join_relative_inj. Qed.

Lemma path_database_exc (st : state) : path_database st ≠ path_exc st.
Proof. unfold path_database, path_exc. by intros ?%join_relative_inj. Qed.
End output_paths.

Lemma save_commands_unfold (st : state) (w : world) :
  save_commands st w
  = (_ ⇐ open_w (path_inc st) ;;
     inc ⇐ lift (map_result (deref st) (commands_inc st)) ;;
     _ ⇐ json_dump (JArr inc) (path_inc st) ;;
     _ ⇐ open_w (path_exc st) ;;
     exc ⇐ lift (map_result (deref st) (commands_exc st)) ;;
     _ ⇐ json_dump (JArr exc) (path_exc st) ;;
     lift (Ok st)) w.
Proof. done. Qed.

(** *** The directory of the output files *)

Section directories.
Import pystr.

Lemma upto_last_app (c : ascii) (a x : str) : c ∉ x → upto_last c (a ++ x) = upto_last c a.
Proof.
  intros Hx. induction a as [|y a IH]; [by apply upto_last_absent|].
  cbn [app upto_last]. by rewrite IH.
Qed.

Lemma upto_last_length (c : ascii) (s : str) : length (upto_last c s) ≤ length s.
Proof.
  induction s as [|x s IH]; [done|]. cbn [upto_last].
  destruct (upto_last c s); [case_bool_decide|]; simpl in *; lia.
Qed.

Lemma lstrip_length (c : ascii) (s : str) : length (lstrip c s) ≤ length s.
Proof.
  induction s as [|x s IH]; [done|]. cbn [lstrip]. case_bool_decide; simpl; lia.
Qed.

Lemma dirname_length (p : str) : length (posixpath.dirname p) ≤ length (upto_last posixpath.sep_char p).
Proof.
  unfold posixpath.dirname. destruct (_ && _); [|done].
  unfold rstrip. rewrite length_reverse.
  etrans; [apply lstrip_length|]. by rewrite length_reverse.
Qed.

Lemma join_name (b y : str) :
  posixpath.sep_char ∉ y →
  posixpath.join b y
  = (if bool_decide (b = []) || endswith posixpath.sep b then b else b ++ posixpath.sep) ++ y.
Proof.
  intros Hy. unfold posixpath.join.
  assert (Hrel : startswith posixpath.sep y = false).
  { destruct y as [|c y]; [done|]. cbn [posixpath.sep startswith].
    rewrite bool_decide_eq_false_2; [done|]. intros <-. apply Hy. left. }
  rewrite Hrel. destruct (_ || _); [done|]. by rewrite <- app_assoc.
Qed.

Lemma dirname_join_name (b x y : str) :
  posixpath.sep_char ∉ x → posixpath.sep_char ∉ y →
  posixpath.dirname (posixpath.join b x) = posixpath.dirname (posixpath.join b y).
Proof.
  intros Hx Hy. rewrite !join_name by done. unfold posixpath.dirname.
  by rewrite !upto_last_app.
Qed.

Lemma dirname_join_ne (b x : str) :
  posixpath.sep_char ∉ x → x ≠ [] → posixpath.dirname (posixpath.join b x) ≠ posixpath.join b x.
Proof.
  intros Hx Hne E. apply (f_equal length) in E. rewrite join_name in E by done.
  pose proof (dirname_length
    ((if bool_decide (b = []) || endswith posixpath.sep b then b else b ++ posixpath.sep) ++ x))
    as H1.
  rewrite upto_last_app in H1 by done.
  pose proof (upto_last_length posixpath.sep_char
    (if bool_decide (b = []) || endswith posixpath.sep b then b else b ++ posixpath.sep)) as H2.
  rewrite length_app in E. destruct x; [done|]. simpl in E. lia.
Qed.

Lemma join_name_ne (b x : str) :
  posixpath.sep_char ∉ x → x ≠ [] → posixpath.join b x ≠ [].
Proof.
  intros Hx Hne. rewrite join_name by done. destruct x; [done|].
  by intros [_ ?]%app_eq_nil.
Qed.

Lemma path_exc_ne (st : state) : path_exc st ≠ [].
Proof. apply join_name_ne; [apply (bool_decide_unpack _); by vm_compute | done]. Qed.

Lemma path_database_ne (st : state) : path_database st ≠ [].
Proof. apply join_name_ne; [apply (bool_decide_unpack _); by vm_compute | done]. Qed.

Lemma dirname_exc (st : state) :
  posixpath.dirname (path_exc st) = posixpath.dirname (path_inc st).
Proof.
  apply dirname_join_name; apply (bool_decide_unpack _); by vm_compute.
Qed.

Lemma dirname_database (st : state) :
  posixpath.dirname (path_database st) = posixpath.dirname (path_inc st).
Proof.
  apply dirname_join_name; apply (bool_decide_unpack _); by vm_compute.
Qed.

Lemma dirname_inc_ne (st : state) : posixpath.dirname (path_inc st) ≠ path_inc st.
Proof.
  apply dirname_join_ne; [apply (bool_decide_unpack _); by vm_compute | done].
Qed.

Lemma dirname_ancestor (path : str) :
  path ≠ [] → posixpath.dirname path ∈ ancestors (length path) path.
Proof. destruct path; [done|]. intros _. left. Qed.

(** The directory of a path that names something is a directory. *)
Lemma is_directory_above (w : world) (path d : str) :
  is_Some (fs w !! path) → d ∈ ancestors (length path) path → is_directory w d = true.
Proof.
  intros [n Hn] Hd. unfold is_directory. apply orb_true_iff. right.
  apply existsb_exists. exists (path, n). split.
  - apply list_elem_of_In. by apply elem_of_map_to_list.
  - by apply bool_decide_eq_true_2.
Qed.

(** A directory stays one when another path is written. *)
Lemma is_directory_insert (w : world) (out : list str) (path d : str) (n : node) :
  path ≠ d → is_directory w d = true →
  is_directory (World (<[path := n]> (fs w)) out) d = true.
Proof.
  intros Hne H. unfold is_directory in *. cbn [fs].
  rewrite lookup_insert_ne by done.
  apply orb_true_iff in H as [H|H]; [by rewrite H|].
  apply orb_true_iff. right.
  apply existsb_exists in H as ([k v] & Hin & Hk).
  apply list_elem_of_In, elem_of_map_to_list in Hin.
  apply existsb_exists.
  destruct (decide (k = path)) as [->|Hk'].
  - exists (path, n). split; [|done].
    apply list_elem_of_In, elem_of_map_to_list. apply lookup_insert_eq.
  - exists (k, v). split; [|done].
    apply list_elem_of_In, elem_of_map_to_list. by rewrite lookup_insert_ne.
Qed.

End directories.

Lemma open_w_file (path : str) (w : world) :
  is_directory w (posixpath.dirname path) = true → fs w !! path ≠ Some Directory →
  open_w path w = (World (<[path := File None]> (fs w)) (stdout w), Ok ()).
Proof. unfold open_w. intros -> H. by destruct (fs w !! path) as [[| |]|]. Qed.

Lemma open_w_missing (path : str) (w : world) :
  is_directory w (posixpath.dirname path) = false → open_w path w = (w, Raise OSError).
Proof. unfold open_w. by intros ->. Qed.

(** What [save_commands] does on a state whose references are in the store,
    when the directory of the output files is there and neither output path
    is a directory. *)
Lemma save_commands_ok (st : state) (w : world) (inc exc : list json) :
  is_directory w (posixpath.dirname (path_inc st)) = true →
  fs w !! path_inc st ≠ Some Directory → fs w !! path_exc st ≠ Some Directory →
  map_result (deref st) (commands_inc st) = Ok inc →
  map_result (deref st) (commands_exc st) = Ok exc →
  save_commands st w
  = (World (<[path_exc st := File (Some (JArr exc))]>
              (<[path_inc st := File (Some (JArr inc))]> (fs w))) (stdout w),
     Ok st).
Proof.
  intros Hdir Hinc Hexc Hi He. rewrite save_commands_unfold.
  unfold io_bind at 1. rewrite open_w_file by done.
  unfold io_bind at 1, lift at 1. rewrite Hi.
  unfold io_bind at 1, json_dump at 1. cbn [fs stdout].
  rewrite insert_insert_eq.
  unfold io_bind at 1. rewrite open_w_file.
  - cbn [fs stdout]. unfold io_bind at 1, lift at 1. rewrite He.
    unfold io_bind at 1, json_dump at 1. cbn [fs stdout].
    by rewrite insert_insert_eq.
  - rewrite dirname_exc. apply is_directory_insert; [|done].
    intros E. by apply (dirname_inc_ne st).
  - cbn [fs]. rewrite lookup_insert_ne by apply path_inc_exc. done.
Qed.

(** X15. When the directory of the output files is there, the references of
    the two lists are in the store and neither output path is a directory,
    [save_commands] writes the objects behind [commands_inc] to
    [compile_commands_inc.json] and those behind [commands_exc] to
    [compile_commands_exc.json] in the build directory, replacing what these
    files held; it touches no other path, prints nothing and leaves the
    globals as they are.  Without that directory it raises [OSError] at the
    first [open] and writes nothing. *)
Theorem save_commands_writes_both (st : state) (w : world) :
  (is_directory w (posixpath.dirname (path_inc st)) = false →
     save_commands st w = (w, Raise OSError)) ∧
  (∀ inc exc,
     is_directory w (posixpath.dirname (path_inc st)) = true →
     fs w !! path_inc st ≠ Some Directory → fs w !! path_exc st ≠ Some Directory →
     map_result (deref st) (commands_inc st) = Ok inc →
     map_result (deref st) (commands_exc st) = Ok exc →
     ∃ w', save_commands st w = (w', Ok st) ∧ stdout w' = stdout w ∧
       fs w' !! path_inc st = Some (File (Some (JArr inc))) ∧
       fs w' !! path_exc st = Some (File (Some (JArr exc))) ∧
       ∀ path, path ≠ path_inc st → path ≠ path_exc st → fs w' !! path = fs w !! path).
Proof.
  split.
  - intros Hdir. rewrite save_commands_unfold. unfold io_bind at 1.
    by rewrite open_w_missing.
  - intros inc exc Hdir Hinc Hexc Hi He. eexists. split; [by apply save_commands_ok|].
    cbn [fs stdout]. split; [done|]. split; [|split].
    + rewrite lookup_insert_ne by (intros E; by apply (path_inc_exc st)).
      apply lookup_insert_eq.
    + apply lookup_insert_eq.
    + intros path H1 H2. by rewrite !lookup_insert_ne.
Qed.

Lemma save_commands_writes_both_witness :
  save_commands scenario_partitioned empty_world = (empty_world, Raise OSError) ∧
  ∃ w', save_commands scenario_partitioned scenario_world = (w', Ok scenario_partitioned) ∧
    stdout w' = stdout scenario_world ∧
    fs w' !! path_inc scenario_partitioned = Some (File (Some (JArr [main_cpp]))) ∧
    fs w' !! path_exc scenario_partitioned = Some (File (Some (JArr [lib_cpp]))) ∧
    ∀ path, path ≠ path_inc scenario_partitioned → path ≠ path_exc scenario_partitioned →
            fs w' !! path = fs scenario_world !! path.
Proof.
  split.
  - apply (save_commands_writes_both scenario_partitioned empty_world). reflexivity.
  - apply (save_commands_writes_both scenario_partitioned scenario_world);
      try reflexivity; vm_compute; discriminate.
Defined.

(** X16. A directory in the place of an output file makes [save_commands]
    raise [OSError]: at the first path before anything is written; at the
    second path after the file of the included commands has been written,
    which is then left behind. *)
Theorem save_commands_directory (st : state) (w : world) :
  (fs w !! path_inc st = Some Directory → save_commands st w = (w, Raise OSError)) ∧
  (∀ inc, fs w !! path_inc st ≠ Some Directory →
     map_result (deref st) (commands_inc st) = Ok inc →
     fs w !! path_exc st = Some Directory →
     save_commands st w
     = (World (<[path_inc st := File (Some (JArr inc))]> (fs w)) (stdout w), Raise OSError)).
Proof.
  split.
  - intros H. rewrite save_commands_unfold. unfold io_bind at 1, open_w. rewrite H.
    by destruct (is_directory _ _).
  - intros inc Hinc Hi Hexc.
    assert (Hdir : is_directory w (posixpath.dirname (path_inc st)) = true).
    { apply (is_directory_above w (path_exc st)); [by rewrite Hexc|].
      rewrite <- dirname_exc. apply dirname_ancestor, path_exc_ne. }
    rewrite save_commands_unfold.
    unfold io_bind at 1. rewrite open_w_file by done.
    unfold io_bind at 1, lift at 1. rewrite Hi.
    unfold io_bind at 1, json_dump at 1. cbn [fs stdout].
    rewrite insert_insert_eq. unfold io_bind at 1, open_w. cbn [fs].
    rewrite lookup_insert_ne by apply path_inc_exc. rewrite Hexc.
    by destruct (is_directory (World _ _) _).
Qed.

Lemma save_commands_directory_witness :
  save_commands scenario_partitioned
    (World (<[path_exc scenario_partitioned := Directory]> ∅) [])
  = (World (<[path_inc scenario_partitioned := File (Some (JArr [main_cpp]))]>
              (<[path_exc scenario_partitioned := Directory]> ∅)) [],
     Raise OSError).
Proof.
  destruct (save_commands_directory scenario_partitioned
              (World (<[path_exc scenario_partitioned := Directory]> ∅) [])) as [_ H].
  apply (H [main_cpp]); [vm_compute; discriminate | reflexivity | reflexivity].
Defined.

(** ** main *)

Lemma read_config_world (lenient : bool) (st : state) (w w1 : world) (r : result state) :
  read_config lenient st w = (w1, r) → fs w1 = fs w.
Proof.
  unfold read_config, io_bind, exists_path, json_load, lift, print.
  case_bool_decide.
  - destruct (fs w !! path_config st) as [[| |[doc|]]|]; by intros [= <- _].
  - destruct lenient; by intros [= <- _].
Qed.

Lemma read_commands_world (lenient : bool) (st : state) (w w1 : world) (r : result state) :
  read_commands lenient st w = (w1, r) →
  fs w1 = fs w ∧ ∀ st1, r = Ok st1 → w1 = w ∧ path_build st1 = path_build st.
Proof.
  unfold read_commands, io_bind, exists_path, json_load, lift, print.
  case_bool_decide.
  - destruct (fs w !! _) as [[| |[doc|]]|]; intros [= <- <-]; split; try done.
    by intros st1 [= <-].
  - destruct lenient; intros [= <- <-]; split; done.
Qed.

Lemma filter_sources_paths (refs : list nat) (st st' : state) :
  for_each filter_source st refs = Ok st' →
  path_build st' = path_build st ∧ path_config st' = path_config st.
Proof.
  revert st. induction refs as [|r refs IH]; intros st H.
  - by injection H as <-.
  - cbn [for_each] in H. destruct (filter_source st r) as [st1|] eqn:E; [|done].
    cbn [mbind result_bind] in H. apply IH in H as [-> ->].
    unfold filter_source in E.
    destruct (deref st r) as [obj|]; [|done]. cbn [mbind result_bind] in E.
    destruct (path_str_of st obj) as [path_str|]; [|done]. cbn [mbind result_bind] in E.
    by destruct (scan_excludes _ _ _); injection E as <-.
Qed.

Lemma filter_headers_paths (st st' : state) :
  filter_headers st = Ok st' → path_build st' = path_build st.
Proof. by intros (_ & ? & _)%filter_headers_frame. Qed.

Lemma open_w_frame (path : str) (w w1 : world) (r : result unit) (other : str) :
  open_w path w = (w1, r) → other ≠ path →
  fs w1 !! other = fs w !! other ∧ stdout w1 = stdout w.
Proof.
  unfold open_w. intros H Hne.
  destruct (is_directory w _); [|by injection H as <- _].
  destruct (fs w !! path) as [[| |doc]|]; injection H as <- _; cbn [fs stdout];
    by rewrite ?lookup_insert_ne.
Qed.

Lemma save_commands_frame (st : state) (w w1 : world) (r : result state) (path : str) :
  save_commands st w = (w1, r) →
  path ≠ path_inc st → path ≠ path_exc st → fs w1 !! path = fs w !! path.
Proof.
  intros H Hinc Hexc. rewrite save_commands_unfold in H.
  unfold io_bind at 1 in H.
  destruct (open_w (path_inc st) w) as [wa [[]|e]] eqn:Ea;
    apply (open_w_frame _ _ _ _ path) in Ea as [Ha _]; try done;
    [|by injection H as <- _].
  unfold io_bind at 1, lift at 1 in H.
  destruct (map_result (deref st) (commands_inc st)) as [inc|];
    [|by injection H as <- _].
  unfold io_bind at 1, json_dump at 1 in H.
  unfold io_bind at 1 in H.
  destruct (open_w (path_exc st) _) as [wb [[]|e]] eqn:Eb;
    apply (open_w_frame _ _ _ _ path) in Eb as [Hb _]; try done;
    cbn [fs] in Hb; rewrite lookup_insert_ne in Hb by done;
    [|injection H as <- _; congruence].
  unfold io_bind at 1, lift at 1 in H.
  destruct (map_result (deref st) (commands_exc st)) as [exc|];
    [|injection H as <- _; congruence].
  unfold io_bind at 1, json_dump at 1, lift in H. injection H as <- _. cbn [fs].
  rewrite lookup_insert_ne by done. congruence.
Qed.

(** How a run of [main] ends: in one of the four stages before
    [save_commands], with the files as they were, or in [save_commands]. *)
Lemma main_cases (lenient : bool) (st : state) (w w' : world) (r : result state) :
  main lenient st w = (w', r) →
  fs w' = fs w ∨
  ∃ st1 st2 st3 st4,
    read_config lenient st w = (w, Ok st1) ∧ read_commands lenient st1 w = (w, Ok st2) ∧
    filter_sources st2 = Ok st3 ∧ filter_headers st3 = Ok st4 ∧
    save_commands st4 w = (w', r).
Proof.
  unfold main. unfold io_bind at 1.
  destruct (read_config lenient st w) as [w1 [st1|e1]] eqn:H1.
  2:{ intros [= <- _]. left. by eapply read_config_world. }
  apply read_config_ok in H1 as Hw. destruct Hw as (-> & _ & _).
  unfold io_bind at 1.
  destruct (read_commands lenient st1 w) as [w2 [st2|e2]] eqn:H2.
  2:{ intros [= <- _]. left. by eapply read_commands_world. }
  apply read_commands_ok in H2 as Hw. destruct Hw as (-> & _).
  unfold io_bind at 1, lift at 1.
  destruct (filter_sources st2) as [st3|e3] eqn:H3; [|intros [= <- _]; by left].
  unfold io_bind at 1, lift at 1.
  destruct (filter_headers st3) as [st4|e4] eqn:H4; [|intros [= <- _]; by left].
  intros H5. right. by exists st1, st2, st3, st4.
Qed.

(** X17. Whatever its inputs and however it ends, [main] changes no path
    other than the two output files of the build directory; in particular
    the database [compile_commands.json] is left as it was. *)
Theorem main_touches_only_outputs (lenient : bool) (st : state) (w : world) :
  (∀ path, path ≠ path_inc st → path ≠ path_exc st →
     fs (main lenient st w).1 !! path = fs w !! path) ∧
  fs (main lenient st w).1 !! path_database st = fs w !! path_database st.
Proof.
  assert (H : ∀ path, path ≠ path_inc st → path ≠ path_exc st →
                fs (main lenient st w).1 !! path = fs w !! path).
  { intros path Hinc Hexc.
    destruct (main lenient st w) as [w' r] eqn:Hmain. cbn [fst].
    apply main_cases in Hmain as [-> | (st1 & st2 & st3 & st4 & H1 & H2 & H3 & H4 & H5)];
      [done|].
    apply read_config_ok in H1 as (_ & Hb1 & _).
    apply read_commands_world in H2 as [_ H2]. destruct (H2 st2 eq_refl) as [_ Hb2].
    apply filter_sources_paths in H3 as [Hb3 _].
    apply filter_headers_paths in H4 as Hb4.
    assert (Hb : path_build st4 = path_build st) by congruence.
    apply (save_commands_frame st4 w w' r path H5);
      unfold path_inc, path_exc in *; by rewrite Hb. }
  split; [exact H|].
  apply H; [apply path_database_inc | apply path_database_exc].
Qed.

Lemma main_touches_only_outputs_witness :
  fs (main TERMINATE_OK scenario_state scenario_world).1
    !! $"/proj/excludes_clang_tidy.json"
  = fs scenario_world !! $"/proj/excludes_clang_tidy.json".
Proof.
  destruct (main_touches_only_outputs TERMINATE_OK scenario_state scenario_world) as [H _].
  apply H; vm_compute; discriminate.
Defined.

(** X18. [main] writes no file before configuration and database have been
    read and both filters have returned: a run that ends earlier, in an exit
    or in an exception, leaves every file as it was. *)
Theorem main_writes_after_filters (lenient : bool) (st : state) (w w' : world)
    (r : result state) :
  main lenient st w = (w', r) →
  fs w' = fs w ∨
  ∃ st1 st2 st3 st4,
    read_config lenient st w = (w, Ok st1) ∧ read_commands lenient st1 w = (w, Ok st2) ∧
    filter_sources st2 = Ok st3 ∧ filter_headers st3 = Ok st4 ∧
    save_commands st4 w = (w', r).
Proof.
  intros Hmain. unfold main in Hmain. unfold io_bind at 1 in Hmain.
  destruct (read_config lenient st w) as [w1 [st1|e1]] eqn:H1.
  2:{ injection Hmain as <- _. left. by eapply read_config_world. }
  apply read_config_ok in H1 as Hw. destruct Hw as (-> & _ & _).
  unfold io_bind at 1 in Hmain.
  destruct (read_commands lenient st1 w) as [w2 [st2|e2]] eqn:H2.
  2:{ injection Hmain as <- _. left. by eapply read_commands_world. }
  apply read_commands_ok in H2 as Hw. destruct Hw as (-> & _).
  unfold io_bind at 1, lift at 1 in Hmain.
  destruct (filter_sources st2) as [st3|e3] eqn:H3;
    [|injection Hmain as <- _; by left].
  unfold io_bind at 1, lift at 1 in Hmain.
  destruct (filter_headers st3) as [st4|e4] eqn:H4;
    [|injection Hmain as <- _; by left].
  right. by exists st1, st2, st3, st4.
Qed.

Lemma main_writes_after_filters_witness :
  main TERMINATE_OK scenario_state bare_world = (bare_world, Raise ValueError) ∧
  (fs bare_world = fs bare_world ∨
   ∃ st1 st2 st3 st4,
     read_config TERMINATE_OK scenario_state bare_world = (bare_world, Ok st1) ∧
     read_commands TERMINATE_OK st1 bare_world = (bare_world, Ok st2) ∧
     filter_sources st2 = Ok st3 ∧ filter_headers st3 = Ok st4 ∧
     save_commands st4 bare_world = (bare_world, Raise ValueError)).
Proof.
  assert (H : main TERMINATE_OK scenario_state bare_world = (bare_world, Raise ValueError))
    by (vm_compute; reflexivity).
  split; [exact H|].
  exact (main_writes_after_filters TERMINATE_OK scenario_state bare_world bare_world _ H).
Defined.

Lemma main_run (lenient : bool) (st st1 st2 st3 st4 : state) (w : world) :
  read_config lenient st w = (w, Ok st1) → read_commands lenient st1 w = (w, Ok st2) →
  filter_sources st2 = Ok st3 → filter_headers st3 = Ok st4 →
  main lenient st w = save_commands st4 w.
Proof.
  intros H1 H2 H3 H4. unfold main. unfold io_bind at 1. rewrite H1.
  unfold io_bind at 1. rewrite H2. unfold io_bind at 1, lift at 1. rewrite H3.
  unfold io_bind at 1, lift at 1. by rewrite H4.
Qed.

Lemma read_commands_array (lenient : bool) (st : state) (w : world) (items : list json) :
  fs w !! path_database st = Some (File (Some (JArr items))) →
  read_commands lenient st w = (w, Ok (set_commands (seq 0 (length items)) items st)).
Proof.
  intros H. unfold read_commands, io_bind, exists_path, json_load, lift.
  fold (path_database st). rewrite bool_decide_eq_true_2 by (rewrite H; eauto).
  by rewrite H.
Qed.

Lemma map_result_deref (st : state) (refs : list nat) :
  (∀ r, r ∈ refs → is_Some (store st !! r)) →
  ∃ objs, map_result (deref st) refs = Ok objs ∧
          Forall2 (λ r obj, store st !! r = Some obj) refs objs.
Proof.
  induction refs as [|r refs IH]; intros H.
  - exists []. by split.
  - destruct (H r) as [obj Hobj]; [left|].
    destruct IH as (objs & Hobjs & Hall); [intros r' Hr'; apply H; by right|].
    exists (obj :: objs). split; [|by constructor].
    assert (Hderef : deref st r = Ok obj) by (unfold deref; by rewrite Hobj).
    cbn [map_result]. rewrite Hderef. cbn [mbind result_bind]. by rewrite Hobjs.
Qed.

Lemma Forall2_impl_elem {A B : Type} (P Q : A → B → Prop) (l : list A) (k : list B) :
  Forall2 P l k → (∀ x y, x ∈ l → P x y → Q x y) → Forall2 Q l k.
Proof.
  induction 1 as [|x y l k HP Hall IH]; intros HPQ; [constructor|].
  constructor; [apply HPQ; [left | done]|].
  apply IH. intros x' y' Hx'. apply HPQ. by right.
Qed.

(** X19. On a configuration that is an array of arrays of strings and a
    database that is an array of entries, each with a file that has a
    directory part and a string command, [main] returns (exit status 0) and
    writes the two files, printing nothing.  The excluded file holds entries
    of the database as they were loaded, the included file holds entries that
    differ from the loaded ones in the command only, which is the rewritten
    one; both keep the order of the database and together they hold every
    entry once; an entry is in the excluded file exactly when the fragment of
    some rule occurs in its [path_str]. *)
Theorem main_writes_partition (lenient : bool) (config build relative : str) (w : world)
    (raw : list (list str)) (items : list json) :
  let st := initial_state config build relative in
  fs w !! config = Some (File (Some (config_doc raw))) →
  fs w !! path_database st = Some (File (Some (JArr items))) →
  forallb has_directory items = true →
  forallb (fun obj => bool_decide (is_Some (command_of obj))) items = true →
  fs w !! path_inc st ≠ Some Directory → fs w !! path_exc st ≠ Some Directory →
  ∃ st' inc exc,
    main lenient st w
    = (World (<[path_exc st := File (Some (JArr exc))]>
                (<[path_inc st := File (Some (JArr inc))]> (fs w))) (stdout w),
       Ok st') ∧
    commands_inc st' ++ commands_exc st' ≡ₚ seq 0 (length items) ∧
    commands_inc st' `sublist_of` seq 0 (length items) ∧
    commands_exc st' `sublist_of` seq 0 (length items) ∧
    Forall2 (λ r obj, items !! r = Some obj) (commands_exc st') exc ∧
    Forall2 (λ r obj', ∃ obj s,
               items !! r = Some obj ∧ command_of obj = Some s ∧
               command_of obj'
               = Some (rewrite_command relative
                         (map (pystr.lstrip posixpath.sep_char) (map fragment raw)) s) ∧
               ∀ k, k ≠ $"command" → py.getitem obj' k = py.getitem obj k)
            (commands_inc st') inc ∧
    ∀ r obj path_str,
      items !! r = Some obj → path_str_of st obj = Ok path_str →
      (r ∈ commands_exc st'
       ↔ ∃ segs, segs ∈ raw ∧ pystr.contains (fragment segs) path_str = true).
Proof.
  intros st Hconfig Hdb Hdir Hcmd Hinc_path Hexc_path.
  (* the loaders *)
  pose proof (read_config_strings lenient st w raw Hconfig) as H1.
  set (st1 := set_excludes _ st) in H1.
  pose proof (read_commands_array lenient st1 w items Hdb) as H2.
  set (st2 := set_commands _ _ st1) in H2.
  assert (Hitem : ∀ r, r ∈ seq 0 (length items) → ∃ obj, items !! r = Some obj).
  { intros r [_ Hr]%elem_of_seq. by apply lookup_lt_is_Some_2. }
  assert (Hitems : ∀ r obj, items !! r = Some obj → r ∈ seq 0 (length items)).
  { intros r obj Hobj. apply elem_of_seq. split; [lia|]. by eapply lookup_lt_Some. }
  (* the partitioner *)
  assert (Hloc : ∀ r, r ∈ commands st2 → placeable st2 r).
  { intros r Hr. apply locatable_path_str. unfold locatable.
    destruct (Hitem r Hr) as [obj Hobj]. change (store st2 !! r) with (items !! r).
    rewrite Hobj. rewrite forallb_forall in Hdir.
    apply Hdir, list_elem_of_In. by eapply list_elem_of_lookup_2. }
  pose proof (filter_sources_fresh st2 eq_refl eq_refl Hloc) as H3.
  set (st3 := State _ _ _ _ _ _ _ _) in H3.
  (* the header rewrite *)
  destruct (filter_headers_str st3) as (st4 & H4 & Hframe & Hall).
  { apply NoDup_filter, NoDup_seq. }
  { intros r [_ Hr]%list_elem_of_filter. unfold has_command.
    destruct (Hitem r Hr) as [obj Hobj]. change (store st3 !! r) with (items !! r).
    rewrite Hobj. rewrite forallb_forall in Hcmd.
    apply (Hcmd obj), list_elem_of_In. by eapply list_elem_of_lookup_2. }
  destruct Hframe as (_ & Hbuild & _ & _ & _ & Hinc4 & Hexc4 & Hstore).
  cbn [set_excludes path_build commands_inc commands_exc store] in Hbuild, Hinc4, Hexc4, Hstore.
  assert (Hsome : ∀ r, r ∈ seq 0 (length items) → is_Some (store st4 !! r)).
  { intros r Hr. destruct (Hitem r Hr) as [obj Hobj].
    destruct (Hstore r) as [_ Hr']. destruct (Hr' obj Hobj) as (obj' & -> & _). eauto. }
  (* the writer *)
  destruct (map_result_deref st4 (commands_inc st4)) as (inc & Hmap_inc & Hinc).
  { intros r Hr. rewrite Hinc4 in Hr. apply list_elem_of_filter in Hr as [_ Hr]. auto. }
  destruct (map_result_deref st4 (commands_exc st4)) as (exc & Hmap_exc & Hexc).
  { intros r Hr. rewrite Hexc4 in Hr. apply list_elem_of_filter in Hr as [_ Hr]. auto. }
  assert (Hpi : path_inc st4 = path_inc st) by (unfold path_inc; by rewrite Hbuild).
  assert (Hpe : path_exc st4 = path_exc st) by (unfold path_exc; by rewrite Hbuild).
  exists st4, inc, exc. split.
  { rewrite (main_run lenient st st1 st2 st3 st4 w H1 H2 H3 H4).
    rewrite <- Hpi, <- Hpe.
    apply save_commands_ok; [|by rewrite Hpi | by rewrite Hpe | done..].
    apply (is_directory_above w (path_database st)); [by rewrite Hdb|].
    rewrite Hpi, <- dirname_database. apply dirname_ancestor, path_database_ne. }
  rewrite Hinc4, Hexc4 in *.
  split; [apply filter_app_complement|].
  split; [apply sublist_filter|]. split; [apply sublist_filter|].
  split; [|split].
  - eapply Forall2_impl_elem; [exact Hexc|]. intros r obj [Hex _]%list_elem_of_filter <-.
    symmetry. apply Hstore. intros [Hin _]%list_elem_of_filter. done.
  - eapply Forall2_impl_elem; [exact Hinc|]. intros r obj' Hr Hobj'.
    apply list_elem_of_filter in Hr as Hr'. destruct Hr' as [_ Hseq].
    destruct (Hitem r Hseq) as [obj Hobj].
    rewrite forallb_forall in Hcmd.
    destruct (bool_decide_unpack _ (Is_true_true_2 _
                (Hcmd obj (proj1 (list_elem_of_In _ _) (list_elem_of_lookup_2 _ _ _ Hobj)))))
      as [s Hs].
    destruct (Hall r obj s Hr Hobj Hs) as (obj'' & Hobj'' & Hs' & Hsame).
    rewrite Hobj' in Hobj''. injection Hobj'' as <-.
    exists obj, s. split; [done|]. split; [done|]. split; [exact Hs'|].
    intros k Hk. by apply same_but_command_getitem.
  - intros r obj path_str Hobj Hps.
    change (r ∈ filter (λ r, ¬ included st2 r) (seq 0 (length items))
            ↔ ∃ segs, segs ∈ raw ∧ pystr.contains (fragment segs) path_str = true).
    rewrite list_elem_of_filter.
    assert (Hderef : deref st2 r = Ok obj) by (unfold deref; cbn; by rewrite Hobj).
    pose proof (excluded_iff_substring st2 r obj path_str Hderef Hps) as Hsub.
    cbn [st2 st1 st set_commands set_excludes excludes initial_state app] in Hsub.
    split.
    + intros [Hex _]. destruct (included st2 r) eqn:E; [done|].
      destruct (proj1 Hsub eq_refl) as (e & He & Hc).
      apply list_elem_of_fmap in He as (segs & -> & Hsegs). eauto.
    + intros (segs & Hsegs & Hc). split; [|by eapply Hitems].
      assert (E : included st2 r = false).
      { apply Hsub. exists (fragment segs). split; [|done]. by apply list_elem_of_fmap_2. }
      rewrite E. simpl. tauto.
Qed.

Lemma main_writes_partition_witness :
  ∃ st' inc exc,
    main TERMINATE_OK (initial_state $"/proj/excludes_clang_tidy.json" $"/proj/_build" $"/proj")
      scenario_world
    = (World (<[ $"/proj/_build/compile_commands_exc.json" := File (Some (JArr exc))]>
                (<[ $"/proj/_build/compile_commands_inc.json" := File (Some (JArr inc))]>
                   (fs scenario_world))) (stdout scenario_world),
       Ok st') ∧
    commands_inc st' ++ commands_exc st' ≡ₚ [0; 1] ∧
    commands_inc st' `sublist_of` [0; 1] ∧
    commands_exc st' `sublist_of` [0; 1] ∧
    Forall2 (λ r obj, [main_cpp; lib_cpp] !! r = Some obj) (commands_exc st') exc ∧
    Forall2 (λ r obj', ∃ obj s,
               [main_cpp; lib_cpp] !! r = Some obj ∧ command_of obj = Some s ∧
               command_of obj'
               = Some (rewrite_command $"/proj"
                         (map (pystr.lstrip posixpath.sep_char)
                            (map fragment [[ $"vendor" ]])) s) ∧
               ∀ k, k ≠ $"command" → py.getitem obj' k = py.getitem obj k)
            (commands_inc st') inc ∧
    ∀ r obj path_str,
      [main_cpp; lib_cpp] !! r = Some obj →
      path_str_of (initial_state $"/proj/excludes_clang_tidy.json" $"/proj/_build" $"/proj") obj
      = Ok path_str →
      (r ∈ commands_exc st'
       ↔ ∃ segs, segs ∈ [[ $"vendor" ]] ∧ pystr.contains (fragment segs) path_str = true).
Proof.
  apply (main_writes_partition TERMINATE_OK $"/proj/excludes_clang_tidy.json"
           $"/proj/_build" $"/proj" scenario_world [[ $"vendor" ]] [main_cpp; lib_cpp]);
    try reflexivity; vm_compute; discriminate.
Defined.

(** ** Inputs of another shape *)

Section characters.
Import pystr.

Lemma chars_cons (b b' : ascii) (s : str) :
  chars (b :: b' :: s)
  = if continuation b'
    then match chars (b' :: s) with
         | ch :: rest => (b :: ch) :: rest
         | [] => [[b]]
         end
    else [b] :: chars (b' :: s).
Proof. done. Qed.

Lemma chars_nil (s : str) : chars s = [] → s = [].
Proof.
  destruct s as [|b [|b' s]]; [done..|]. rewrite chars_cons.
  by destruct (continuation b'), (chars (b' :: s)).
Qed.

(** The characters of a string are its bytes in order. *)
Lemma chars_concat (s : str) : concat (chars s) = s.
Proof.
  induction s as [|b [|b' s] IH]; [done..|].
  rewrite chars_cons. destruct (continuation b').
  - destruct (chars (b' :: s)) as [|ch rest] eqn:E; [by apply chars_nil in E|].
    cbn [concat app] in *. by rewrite IH.
  - cbn [concat app]. by rewrite IH.
Qed.

(** Every byte below 128 is a character. *)
Lemma chars_single_bytes (s : str) :
  Forall (λ b, continuation b = false) s → chars s = map (λ b, [b]) s.
Proof.
  induction 1 as [|b s Hb Hs IH]; [done|].
  destruct Hs as [|b' s Hb' Hs]; [done|].
  rewrite chars_cons, Hb'. by rewrite IH.
Qed.
End characters.

Lemma read_exclude_string (st : state) (name : str) :
  read_exclude st (JStr name)
  = Ok (set_excludes (excludes st ++ [fragment (pystr.chars name)]) st).
Proof.
  unfold read_exclude, py.str_join. cbn [py.iter mbind result_bind].
  by rewrite map_result_as_str.
Qed.

Lemma read_exclude_string_loop (names : list str) (st : state) :
  for_each read_exclude st (map JStr names)
  = Ok (set_excludes
          (excludes st ++ map (fun name => fragment (pystr.chars name)) names) st).
Proof.
  revert st. induction names as [|name names IH]; intros st.
  - cbn [map for_each]. rewrite app_nil_r. by destruct st.
  - cbn [map for_each]. rewrite read_exclude_string.
    cbn [mbind result_bind]. rewrite IH. f_equal.
    unfold set_excludes. cbn. by rewrite <- app_assoc.
Qed.

(** X20. A rule written as a string instead of an array of names is taken
    character by character: [read_config] accepts a configuration that is an
    array of strings and builds, for each string, the fragment whose names
    are its characters, a character that takes several bytes being one name.
    For a string of bytes below 128 the names are its single bytes. *)
Theorem read_config_splits_string_rules (lenient : bool) (st : state) (w : world)
    (names : list str) :
  fs w !! path_config st = Some (File (Some (JArr (map JStr names)))) →
  read_config lenient st w
  = (w, Ok (set_excludes
              (excludes st ++ map (fun name => fragment (pystr.chars name)) names) st)) ∧
  ∀ name, Forall (λ b, pystr.continuation b = false) name →
          pystr.chars name = map (λ b, [b]) name.
Proof.
  intros H. split.
  - unfold read_config, io_bind, exists_path, json_load, lift.
    rewrite bool_decide_eq_true_2 by (rewrite H; eauto). rewrite H.
    cbn [py.iter mbind result_bind]. by rewrite read_exclude_string_loop.
  - apply chars_single_bytes.
Qed.

Lemma read_config_splits_string_rules_witness :
  read_config TERMINATE_OK scenario_state
    (World (<[ $"/proj/excludes_clang_tidy.json" :=
                File (Some (JArr (map JStr [ $"lib"; two_byte_rule ]))) ]> ∅) [])
  = (World (<[ $"/proj/excludes_clang_tidy.json" :=
                File (Some (JArr (map JStr [ $"lib"; two_byte_rule ]))) ]> ∅) [],
     Ok (set_excludes
           [ $"/l/i/b";
             $"/" ++ [ascii_of_nat 197; ascii_of_nat 153] ++ $"/x" ] scenario_state)).
Proof.
  apply (read_config_splits_string_rules TERMINATE_OK scenario_state _
           [ $"lib"; two_byte_rule ]).
  reflexivity.
Defined.

Lemma read_commands_doc (lenient : bool) (st : state) (w : world) (doc : json) :
  fs w !! path_database st = Some (File (Some doc)) →
  read_commands lenient st w
  = (w, Ok (set_commands (seq 0 (length (loaded_objects doc))) (loaded_objects doc) st)).
Proof.
  intros H. unfold read_commands, io_bind, exists_path, json_load, lift.
  fold (path_database st). rewrite bool_decide_eq_true_2 by (rewrite H; eauto).
  by rewrite H.
Qed.

Lemma loaded_objects_not_object (doc : json) (obj : json) :
  (∀ items, doc ≠ JArr items) → obj ∈ loaded_objects doc →
  py.getitem obj $"file" = Raise TypeError.
Proof.
  intros Hdoc. unfold loaded_objects.
  destruct doc as [| | |s|items|members]; cbn [py.iter].
  - by intros ->%list_elem_of_singleton.
  - by intros ->%list_elem_of_singleton.
  - by intros ->%list_elem_of_singleton.
  - by intros (c & -> & _)%list_elem_of_fmap.
  - by destruct (Hdoc items).
  - by intros (kv & -> & _)%list_elem_of_fmap.
Qed.

(** X21. A database whose document is not an array ends [main] with
    [TypeError] and without output, once the configuration has been read,
    unless the document is an empty object or an empty string, over which the
    loop of [filter_sources] does not run. *)
Theorem database_not_array_raises (lenient : bool) (st st1 : state) (w : world) (doc : json) :
  read_config lenient st w = (w, Ok st1) →
  fs w !! path_database st = Some (File (Some doc)) →
  (∀ items, doc ≠ JArr items) → doc ≠ JObj [] → doc ≠ JStr [] →
  main lenient st w = (w, Raise TypeError).
Proof.
  intros Hcfg Hdb Harr Hobj Hstr.
  apply read_config_ok in Hcfg as Hcfg'. destruct Hcfg' as (_ & Hb & _).
  assert (Hdb1 : fs w !! path_database st1 = Some (File (Some doc)))
    by (unfold path_database in *; by rewrite Hb).
  pose proof (read_commands_doc lenient st1 w doc Hdb1) as H2.
  set (st2 := set_commands _ _ st1) in H2.
  destruct (loaded_objects doc) as [|obj objs] eqn:Hobjs.
  { exfalso. unfold loaded_objects in Hobjs.
    destruct doc as [| | |s|items|members]; cbn [py.iter] in Hobjs; try done.
    - apply fmap_nil_inv, chars_nil in Hobjs. by subst s.
    - by destruct (Harr items).
    - by destruct members. }
  assert (Hfile : py.getitem obj $"file" = Raise TypeError).
  { apply (loaded_objects_not_object doc); [done|]. rewrite Hobjs. left. }
  assert (H3 : filter_sources st2 = Raise TypeError).
  { apply (filter_sources_first_failure st2 [] (seq 1 (length objs)) 0 obj);
      [done | done | done |].
    unfold path_str_of. by rewrite Hfile. }
  unfold main. unfold io_bind at 1. rewrite Hcfg. unfold io_bind at 1. rewrite H2.
  unfold io_bind at 1, lift at 1. by rewrite H3.
Qed.

Lemma database_not_array_raises_witness :
  main TERMINATE_OK scenario_state
    (World (<[ $"/proj/excludes_clang_tidy.json" := File (Some (JArr [JArr [JStr $"vendor"]])) ]>
            (<[ $"/proj/_build/compile_commands.json" :=
                  File (Some (JObj [($"file", JStr $"/proj/src/main.cpp")])) ]> ∅)) [])
  = (World (<[ $"/proj/excludes_clang_tidy.json" := File (Some (JArr [JArr [JStr $"vendor"]])) ]>
            (<[ $"/proj/_build/compile_commands.json" :=
                  File (Some (JObj [($"file", JStr $"/proj/src/main.cpp")])) ]> ∅)) [],
     Raise TypeError).
Proof.
  apply (database_not_array_raises TERMINATE_OK scenario_state
           (set_excludes [ $"/vendor" ] scenario_state) _
           (JObj [($"file", JStr $"/proj/src/main.cpp")]));
    try (vm_compute; reflexivity); discriminate.
Defined.

(** ** What a fragment matches *)

Section rule_semantics.
Import pystr.

Lemma split_sep_free (c : ascii) (s : str) : Forall (λ piece, c ∉ piece) (split c s).
Proof.
  induction s as [|x s IH]; [repeat constructor; apply not_elem_of_nil|].
  cbn [split]. case_bool_decide as E.
  - constructor; [apply not_elem_of_nil | done].
  - destruct (split c s) as [|piece pieces].
    { constructor; [|done]. apply not_elem_of_cons. split; [congruence|].
      apply not_elem_of_nil. }
    apply Forall_cons in IH as [Hpiece Hpieces]. constructor; [|done].
    apply not_elem_of_cons. split; [congruence | done].
Qed.

Lemma prefixed_cons (seg : str) (segs : list str) :
  prefixed (seg :: segs) = posixpath.sep_char :: seg ++ prefixed segs.
Proof. unfold prefixed. cbn [flat_map]. by rewrite <- app_assoc. Qed.

Lemma prefixed_at_separator (segs : list str) : at_separator (prefixed segs).
Proof.
  destruct segs as [|seg segs]; [by left|]. right. rewrite prefixed_cons. eauto.
Qed.

Lemma startswith_last_name (name seg t : str) :
  posixpath.sep_char ∉ name → at_separator t →
  startswith name (seg ++ t) = startswith name seg.
Proof.
  intros Hname Ht. revert seg. induction name as [|a name IH]; intros seg; [done|].
  apply not_elem_of_cons in Hname as [Ha Hname].
  destruct seg as [|b seg].
  - cbn [app]. destruct Ht as [->|[t' ->]]; [done|].
    cbn [startswith]. by rewrite bool_decide_eq_false_2.
  - cbn [app startswith]. by rewrite IH.
Qed.

Lemma startswith_whole_name (name seg x t : str) :
  posixpath.sep_char ∉ name → posixpath.sep_char ∉ seg → at_separator t →
  startswith (name ++ posixpath.sep_char :: x) (seg ++ t)
  = bool_decide (name = seg) && startswith (posixpath.sep_char :: x) t.
Proof.
  intros Hname Hseg Ht. revert seg Hseg.
  induction name as [|a name IH]; intros seg Hseg.
  - destruct seg as [|b seg].
    + by rewrite bool_decide_eq_true_2.
    + apply not_elem_of_cons in Hseg as [Hb _].
      cbn [app startswith]. rewrite bool_decide_eq_false_2 by congruence.
      by rewrite bool_decide_eq_false_2.
  - apply not_elem_of_cons in Hname as [Ha Hname].
    destruct seg as [|b seg].
    + rewrite (bool_decide_eq_false_2 (_ = [])) by done.
      cbn [app]. destruct Ht as [->|[t' ->]]; [done|].
      cbn [startswith]. by rewrite bool_decide_eq_false_2.
    + apply not_elem_of_cons in Hseg as [_ Hseg].
      cbn [app startswith]. rewrite IH by done.
      rewrite andb_assoc. f_equal.
      destruct (decide (a = b)) as [->|Hab].
      * rewrite bool_decide_eq_true_2 by done. cbn [andb].
        apply bool_decide_ext. split; [by intros -> | by intros [= ->]].
      * rewrite (bool_decide_eq_false_2 (a = b)) by done.
        rewrite (bool_decide_eq_false_2 (_ :: _ = _ :: _)); [done | by intros [= -> _]].
Qed.

Lemma startswith_rule (segs dir : list str) :
  Forall (λ name, posixpath.sep_char ∉ name) segs →
  Forall (λ seg, posixpath.sep_char ∉ seg) dir →
  startswith (prefixed segs) (prefixed dir) = rule_starts segs dir.
Proof.
  intros Hsegs. revert dir. induction Hsegs as [|name segs Hname Hsegs IH]; intros dir Hdir.
  - by destruct dir.
  - destruct Hdir as [|seg dir Hseg Hdir]; [by destruct segs|].
    rewrite !prefixed_cons. cbn [startswith]. rewrite bool_decide_eq_true_2 by done.
    cbn [andb]. pose proof (prefixed_at_separator dir) as Ht.
    destruct segs as [|name' segs].
    + cbn [prefixed flat_map rule_starts]. rewrite app_nil_r.
      by apply startswith_last_name.
    + change (rule_starts (name :: name' :: segs) (seg :: dir))
        with (bool_decide (name = seg) && rule_starts (name' :: segs) dir).
      rewrite <- (IH dir Hdir).
      rewrite (prefixed_cons name'). rewrite startswith_whole_name by done.
      by rewrite <- prefixed_cons.
Qed.

Lemma rule_starts_nil (segs : list str) : segs ≠ [] → rule_starts segs [] = false.
Proof. by destruct segs as [|name [|name' segs]]. Qed.

Lemma contains_rule (segs dir : list str) :
  segs ≠ [] →
  Forall (λ name, posixpath.sep_char ∉ name) segs →
  Forall (λ seg, posixpath.sep_char ∉ seg) dir →
  contains (prefixed segs) (prefixed dir) = rule_matches segs dir.
Proof.
  intros Hne Hsegs Hdir. induction Hdir as [|seg dir Hseg Hdir IH].
  - cbn [prefixed flat_map contains rule_matches]. rewrite rule_starts_nil by done.
    destruct segs as [|name segs]; [done|]. by rewrite prefixed_cons.
  - cbn [rule_matches]. rewrite <- IH, <- startswith_rule by (done || by constructor).
    rewrite (prefixed_cons seg), contains_cons. f_equal.
    apply contains_copy. intros a b -> Hb.
    destruct segs as [|name segs]; [done|]. rewrite prefixed_cons.
    destruct b as [|x b]; [done|]. cbn [app startswith].
    rewrite bool_decide_eq_false_2; [done|]. intros <-. apply Hseg. set_solver.
Qed.
End rule_semantics.

(** X22. What the substring test of the partitioner means for rules whose
    names hold no separator: the fragment of a rule occurs in the [path_str]
    of a relative directory exactly when, from some segment of the directory
    on, the names of the rule but the last are the next whole segments and
    the last name is the beginning of the segment after them. *)
Theorem fragment_matches_segment_start (segs : list str) (rel : str) :
  segs ≠ [] → Forall (λ name, posixpath.sep_char ∉ name) segs →
  pystr.contains (fragment segs) (posixpath.sep ++ rel)
  = rule_matches segs (pystr.split posixpath.sep_char rel).
Proof.
  intros Hne Hsegs. unfold fragment. rewrite prefixed_join by done.
  rewrite <- (join_split posixpath.sep_char rel) at 1. fold posixpath.sep.
  rewrite prefixed_join by apply split_cons_nonempty.
  apply contains_rule; [done | done | apply split_sep_free].
Qed.

Lemma fragment_matches_segment_start_witness :
  pystr.contains (fragment [ $"third_party"; $"lib" ]) (posixpath.sep ++ $"src/third_party/liblib/x")
  = rule_matches [ $"third_party"; $"lib" ]
      (pystr.split posixpath.sep_char $"src/third_party/liblib/x").
Proof.
  apply (fragment_matches_segment_start [ $"third_party"; $"lib" ]); [discriminate|].
  repeat constructor; apply (bool_decide_unpack _); reflexivity.
Defined.

Example rule_matches_prefix :
  rule_matches [ $"third_party"; $"lib" ]
    (pystr.split posixpath.sep_char $"src/third_party/liblib/x") = true ∧
  rule_matches [ $"party"; $"liblib" ]
    (pystr.split posixpath.sep_char $"src/third_party/liblib/x") = false.
Proof. split; reflexivity. Qed.

(** ** The header stage run again *)

Lemma rewrite_command_twice (rel : str) (excl : list str) (s : str) :
  forallb flag_safe (map (posixpath.join rel) excl) = true →
  rewrite_command rel excl (rewrite_command rel excl s) = rewrite_command rel excl s.
Proof.
  intros Hsafe%flag_safe_all_apart. by apply (rewrite_command_settled [] eq_refl).
Qed.

Lemma same_but_command_eq (obj obj' : json) (s : str) :
  same_but_command obj obj' → command_of obj = Some s → command_of obj' = Some s →
  obj' = obj.
Proof.
  intros [->|(m & v & -> & ->)] Hs Hs'; [done|].
  apply command_of_members in Hs, Hs'. rewrite dict_get_set_eq in Hs'.
  injection Hs' as ->. by rewrite dict_set_id.
Qed.

Lemma stripped_twice (l : list str) :
  map (pystr.lstrip posixpath.sep_char) (map (pystr.lstrip posixpath.sep_char) l)
  = map (pystr.lstrip posixpath.sep_char) l.
Proof. rewrite map_map. apply map_ext. intros e. apply lstrip_idemp. Qed.

(** X23. When in no exclusion path a [-] is followed by [I] or [i] or ends
    the path, the header stage is idempotent on distinct included entries
    with string commands: it returns, and run again on the state it returned
    it returns that same state, fragments and store included. *)
Theorem filter_headers_again (st : state) :
  NoDup (commands_inc st) →
  forallb (has_command st) (commands_inc st) = true →
  forallb flag_safe (exclude_paths st) = true →
  ∃ st1, filter_headers st = Ok st1 ∧ filter_headers st1 = Ok st1.
Proof.
  intros Hnd Hcmd Hsafe.
  assert (Hcmd' : ∀ r, r ∈ commands_inc st → has_command st r = true).
  { intros r Hr. rewrite forallb_forall in Hcmd. apply (Hcmd r). by apply list_elem_of_In. }
  destruct (filter_headers_str st Hnd Hcmd') as (st1 & H1 & Hframe1 & Hall1).
  exists st1. split; [done|].
  destruct Hframe1 as (F1 & F2 & F3 & F4 & F5 & F6 & F7 & Hstore1).
  cbn [set_excludes path_config path_build path_relative commands excludes commands_inc
       commands_exc store] in F1, F2, F3, F4, F5, F6, F7, Hstore1.
  assert (Hstripped : stripped_excludes st1 = stripped_excludes st).
  { unfold stripped_excludes at 1. rewrite F5. apply stripped_twice. }
  assert (Hcmd1 : ∀ r, r ∈ commands_inc st1 → has_command st1 r = true).
  { intros r Hr. rewrite F6 in Hr.
    destruct (has_command_inv st r (Hcmd' r Hr)) as (m & s & Hobj & Hget).
    destruct (Hall1 r (JObj m) s Hr Hobj) as (obj' & Hobj' & Hs' & _);
      [by apply command_of_members|].
    unfold has_command. rewrite Hobj'. apply bool_decide_eq_true. eauto. }
  destruct (filter_headers_str st1) as (st2 & H2 & Hframe2 & Hall2);
    [by rewrite F6 | done |].
  rewrite H2. f_equal.
  destruct Hframe2 as (G1 & G2 & G3 & G4 & G5 & G6 & G7 & Hstore2).
  cbn [set_excludes path_config path_build path_relative commands excludes commands_inc
       commands_exc store] in G1, G2, G3, G4, G5, G6, G7, Hstore2.
  assert (Hstore : store st2 = store st1).
  { apply list_eq. intros r.
    destruct (decide (r ∈ commands_inc st1)) as [Hr|Hr]; [|by apply Hstore2].
    pose proof Hr as Hr0. rewrite F6 in Hr0.
    destruct (has_command_inv st r (Hcmd' r Hr0)) as (m & s & Hobj & Hget%command_of_members).
    destruct (Hall1 r (JObj m) s Hr0 Hobj Hget) as (obj1 & Hobj1 & Hs1 & _).
    destruct (Hall2 r obj1 _ Hr Hobj1 Hs1) as (obj2 & Hobj2 & Hs2 & Hsame).
    rewrite Hobj2, Hobj1. f_equal. apply (same_but_command_eq _ _ _ Hsame Hs1).
    rewrite Hs2. f_equal. unfold rewritten. rewrite Hstripped, F3.
    apply rewrite_command_twice. exact Hsafe. }
  rewrite Hstripped, <- F5 in G5.
  destruct st1, st2. cbn in *. by subst.
Qed.

Lemma filter_headers_again_witness :
  ∃ st1, filter_headers scenario_partitioned = Ok st1 ∧ filter_headers st1 = Ok st1.
Proof.
  apply (filter_headers_again scenario_partitioned); try reflexivity.
  apply (bool_decide_unpack _). reflexivity.
Defined.

